(** * EntregaDrones: the assignment-and-routing engine

    A shallow embedding of the [Order] and [Drone] models, of
    [OptimizationAlgorithm] (js/utils/OptimizationAlgorithm.js) and of the
    parts of [DroneController], [OrderController] and [DeliveryController]
    that assign, group and deliver orders, with the properties of the engine
    stated and proved over it.

    Modelling conventions.
    - A JavaScript number is a real number ([R]): no rounding and no
      infinities.  Comparisons are decided with [Rle_dec] and [Rlt_dec].
      [NaN] appears where the code can get it from what the user types: in
      [Order.validateNumbers].
    - Objects live in a heap: an order or a drone is named by a reference
      ([oref], [dref]) and a JavaScript array of objects is a list of
      references, so that two arrays holding the same order share it.
      Every reference denotes an object (a JavaScript reference never
      dangles), so a heap is a total function from references.
    - A method that mutates [this] or an argument returns the new values.
    - [Math.random] is an oracle [rnd]: [rnd i] is the value returned by the
      [i]-th call made by one invocation.
    - [new Date()] is a parameter [now] (milliseconds).
    - The calls that only redraw the page or write to the console are left
      out. *)

From Stdlib Require Import String DecimalString Reals Lra Lia List Bool Arith ZArith Permutation Sorted.
Import ListNotations.
Local Open Scope R_scope.

(** ** Numbers *)

Definition Rleb (a b : R) : bool := if Rle_dec a b then true else false.
Definition Rltb (a b : R) : bool := if Rlt_dec a b then true else false.

(** [Math.round(x)]: the nearest integer, a half rounding up. *)
Definition js_round (x : R) : R := IZR (Zfloor (x + 0.5)).

(** ** JavaScript arrays *)

(** [Array.prototype.sort(cmp)] is stable: [a] is kept before [b] unless
    [cmp a b > 0].  For the comparators of the engine, which compare a
    numeric key of each element, this insertion sort returns what the
    JavaScript sort returns. *)
Fixpoint sort_insert {A : Type} (cmp : A -> A -> R) (a : A) (l : list A)
  : list A :=
  match l with
  | [] => [a]
  | b :: l' =>
      if Rle_dec (cmp a b) 0 then a :: b :: l' else b :: sort_insert cmp a l'
  end.

Definition js_sort {A : Type} (cmp : A -> A -> R) (l : list A) : list A :=
  fold_right (sort_insert cmp) [] l.

(** [l.splice(i, 1)] *)
Definition splice1 {A : Type} (i : nat) (l : list A) : list A :=
  firstn i l ++ skipn (S i) l.

(** [l[i] = v] for [i] inside the array. *)
Fixpoint set_nth {A : Type} (i : nat) (v : A) (l : list A) : list A :=
  match l, i with
  | [], _ => []
  | _ :: l', O => v :: l'
  | a :: l', S i' => a :: set_nth i' v l'
  end.

(** [l.indexOf(r)] on an array of references. *)
Fixpoint indexOf (r : nat) (l : list nat) : option nat :=
  match l with
  | [] => None
  | a :: l' => if Nat.eqb a r then Some O else option_map S (indexOf r l')
  end.

(** [Math.min(...l)]; [None] stands for [Infinity], the minimum of nothing. *)
Fixpoint math_min (l : list R) : option R :=
  match l with
  | [] => None
  | a :: l' => match math_min l' with
               | None => Some a
               | Some m => Some (Rmin a m)
               end
  end.

(** ** Geometry *)

Module Point.
Record t := mk { x : R; y : R }.
End Point.

(** ** Orders *)

(** References to order and drone objects. *)
Abbreviation oref := nat (only parsing).
Abbreviation dref := nat (only parsing).

Inductive Priority := alta | media | baixa.
Inductive OrderStatus := pending | assigned | delivered | cancelled.
Inductive DroneStatus := idle | loading | flying | delivering | returning.

Definition OrderStatus_eqb (a b : OrderStatus) : bool :=
  match a, b with
  | pending, pending | assigned, assigned
  | delivered, delivered | cancelled, cancelled => true
  | _, _ => false
  end.

Definition DroneStatus_eqb (a b : DroneStatus) : bool :=
  match a, b with
  | idle, idle | loading, loading | flying, flying
  | delivering, delivering | returning, returning => true
  | _, _ => false
  end.

Module Order.

Record t := mk {
  id : string;
  location : Point.t;
  weight : R;
  priority : Priority;
  status : OrderStatus;
  createdAt : R;
  assignedDrone : option string;
  deliveredAt : option R;
  estimatedDeliveryTime : option R
}.

Definition getPriorityScore (o : t) : R :=
  match priority o with alta => 3 | media => 2 | baixa => 1 end.

(** [Math.floor(diffMs / (1000 * 60))] *)
Definition getWaitingTime (now : R) (o : t) : R :=
  IZR (Zfloor ((now - createdAt o) / (1000 * 60))).

(** [new Order(id, clientLocation, weight, priority)], created at [now]. *)
Definition new (now : R) (id : string) (clientLocation : Point.t)
    (weight : R) (priority : Priority) : t :=
  mk id clientLocation weight priority pending now None None None.

Definition set_assigned (o : t) (droneId : string) : t :=
  mk (id o) (location o) (weight o) (priority o) assigned (createdAt o)
     (Some droneId) (deliveredAt o) (estimatedDeliveryTime o).

Definition maxWaitTimes (p : Priority) : R :=
  match p with alta => 15 | media => 30 | baixa => 60 end.

Definition isOverdue (now : R) (this : t) : bool :=
  Rltb (maxWaitTimes (priority this)) (getWaitingTime now this).

Definition getDistanceTo (this : t) (point : Point.t) : R :=
  let dx := Point.x (location this) - Point.x point in
  let dy := Point.y (location this) - Point.y point in
  sqrt (dx * dx + dy * dy).

(** [canGroupWith(otherOrder, maxDistance = 2)] *)
Definition canGroupWith (this otherOrder : t) (maxDistance : R) : bool :=
  if negb (OrderStatus_eqb (status this) pending)
     || negb (OrderStatus_eqb (status otherOrder) pending)
  then false
  else Rleb (getDistanceTo this (location otherOrder)) maxDistance.

(** [validate()]: the list of errors; the order is valid when it is empty.
    The checks that [location] holds numbers and that [priority] is one of
    the three names cannot fail on a [t]. *)
Definition validate (this : t) : list string :=
  (if Rleb (weight this) 0 || Rltb 20 (weight this)
   then ["Peso deve estar entre 0.1kg e 20kg"%string] else [])
  ++ (if Rltb (Point.x (location this)) 0 || Rltb 20 (Point.x (location this))
         || Rltb (Point.y (location this)) 0
         || Rltb 20 (Point.y (location this))
      then ["Localização deve estar dentro dos limites da cidade (0-20)"%string]
      else []).

Definition isValid (this : t) : bool :=
  Nat.eqb (List.length (validate this)) 0.

(** What [typeof] calls a number: a real, or [NaN], which [parseFloat]
    returns for a text that is no number.  The infinities are left out:
    they fail the bounds of [validate] like any number beyond them. *)
Inductive Number := NaN | Num (r : R).

(** [a < b] and [a <= b]; a comparison with [NaN] is false. *)
Definition Number_ltb (a b : Number) : bool :=
  match a, b with
  | Num a, Num b => Rltb a b
  | _, _ => false
  end.

Definition Number_leb (a b : Number) : bool :=
  match a, b with
  | Num a, Num b => Rleb a b
  | _, _ => false
  end.

(** [!n]: [NaN] and 0 are falsy. *)
Definition falsy (n : Number) : bool :=
  match n with
  | NaN => true
  | Num r => if Req_dec_T r 0 then true else false
  end.

(** [validate()] on an order whose weight and coordinates are any numbers,
    [NaN] included: the list of errors.  [typeof] calls each of them a
    number, so the first check cannot fail; nor can that of the priority,
    here one of the three names. *)
Definition validateNumbers (x y weight : Number) : list string :=
  (if falsy weight || Number_leb weight (Num 0) || Number_ltb (Num 20) weight
   then ["Peso deve estar entre 0.1kg e 20kg"%string] else [])
  ++ (if Number_ltb x (Num 0) || Number_ltb (Num 20) x
         || Number_ltb y (Num 0) || Number_ltb (Num 20) y
      then ["Localização deve estar dentro dos limites da cidade (0-20)"%string]
      else []).

End Order.

(** The order objects reachable from the engine. *)
Definition OrderHeap := oref -> Order.t.

(** ** Drones *)

Inductive StopType := base | delivery.

Module RouteStop.
Record t := mk { x : R; y : R; type : StopType; order : option oref }.
Definition point (s : t) : Point.t := Point.mk (x s) (y s).
End RouteStop.

Module Drone.

Record t := mk {
  id : string;
  capacity : R;
  range : R;
  currentLoad : R;
  battery : R;
  position : Point.t;
  status : DroneStatus;
  assignedOrders : list oref;
  currentRoute : list RouteStop.t;
  totalDistance : R;
  deliveriesCount : nat;
  basePosition : Point.t;
  currentRouteIndex : nat;
  speed : R
}.

(** [new Drone(id, capacity, range)] *)
Definition new (id : string) (capacity range : R) : t :=
  mk id capacity range 0 100 (Point.mk 10 10) idle [] [] 0 0
     (Point.mk 10 10) 0 0.5.

Definition calculateDistance (point1 point2 : Point.t) : R :=
  let dx := Point.x point2 - Point.x point1 in
  let dy := Point.y point2 - Point.y point1 in
  sqrt (dx * dx + dy * dy).

Definition calculateBatteryNeeded (distance : R) : R :=
  Rmin 100 (distance * 5).

Definition canCarryOrder (this : t) (order : Order.t) : bool :=
  let newLoad := currentLoad this + Order.weight order in
  let distanceToOrder := calculateDistance (position this) (Order.location order) in
  let distanceToBase := calculateDistance (Order.location order) (basePosition this) in
  let totalDistance := distanceToOrder + distanceToBase in
  Rleb newLoad (capacity this)
  && Rleb totalDistance (range this)
  && Rleb (calculateBatteryNeeded totalDistance) (battery this).

(** [this.assignedOrders.push(order); this.currentLoad += order.weight] *)
Definition push_order (this : t) (r : oref) (w : R) : t :=
  mk (id this) (capacity this) (range this) (currentLoad this + w)
     (battery this) (position this) (status this)
     (assignedOrders this ++ [r]) (currentRoute this) (totalDistance this)
     (deliveriesCount this) (basePosition this) (currentRouteIndex this)
     (speed this).

(** [assignOrder(order)]: [r] is the reference of the order object, [order]
    its contents.  The result is the returned boolean with the contents of
    [this] and of the order after the call. *)
Definition assignOrder (this : t) (r : oref) (order : Order.t)
  : bool * t * Order.t :=
  if canCarryOrder this order
  then (true, push_order this r (Order.weight order),
        Order.set_assigned order (id this))
  else (false, this, order).

Definition set_assignedOrders (this : t) (l : list oref) : t :=
  mk (id this) (capacity this) (range this) (currentLoad this)
     (battery this) (position this) (status this)
     l (currentRoute this) (totalDistance this)
     (deliveriesCount this) (basePosition this) (currentRouteIndex this)
     (speed this).

Definition set_currentRoute (this : t) (route : list RouteStop.t) : t :=
  mk (id this) (capacity this) (range this) (currentLoad this)
     (battery this) (position this) (status this)
     (assignedOrders this) route (totalDistance this)
     (deliveriesCount this) (basePosition this) (currentRouteIndex this)
     (speed this).

Definition priorityOrder (p : Priority) : R :=
  match p with alta => 3 | media => 2 | baixa => 1 end.

Definition priorityWeight (p : Priority) : R :=
  match p with alta => 0.7 | media => 0.85 | baixa => 1.0 end.

(** The [for (let i = 1; ...)] loop of [optimizeRoute]: [rest] holds
    [unvisited[i..]]. *)
Fixpoint nearestLoop (orders : OrderHeap) (currentPosition : Point.t)
    (rest : list oref) (i nearestIndex : nat) (nearestDistance : R) : nat :=
  match rest with
  | [] => nearestIndex
  | r :: rest' =>
      let distance :=
        calculateDistance currentPosition (Order.location (orders r)) in
      if Rlt_dec (distance * priorityWeight (Order.priority (orders r)))
                 nearestDistance
      then nearestLoop orders currentPosition rest' (S i) i distance
      else nearestLoop orders currentPosition rest' (S i)
                       nearestIndex nearestDistance
  end.

Definition deliveryStop (orders : OrderHeap) (r : oref) : RouteStop.t :=
  RouteStop.mk (Point.x (Order.location (orders r)))
               (Point.y (Order.location (orders r))) delivery (Some r).

Definition baseStop (this : t) : RouteStop.t :=
  RouteStop.mk (Point.x (basePosition this)) (Point.y (basePosition this))
               base None.

(** The [while (unvisited.length > 0)] loop; every turn removes one order, so
    [length unvisited] turns are enough. *)
Fixpoint visitLoop (fuel : nat) (orders : OrderHeap)
    (currentPosition : Point.t) (unvisited : list oref)
    (route : list RouteStop.t) : list RouteStop.t :=
  match fuel, unvisited with
  | S fuel', u0 :: rest =>
      let nearestIndex :=
        nearestLoop orders currentPosition rest 1 0
          (calculateDistance currentPosition (Order.location (orders u0))) in
      let nearestOrder := nth nearestIndex unvisited u0 in
      visitLoop fuel' orders (Order.location (orders nearestOrder))
                (splice1 nearestIndex unvisited)
                (route ++ [deliveryStop orders nearestOrder])
  | _, _ => route
  end.

(** [optimizeRoute()]: returns the route and the contents of [this]
    afterwards ([assignedOrders] sorted in place, [currentRoute] set). *)
Definition optimizeRoute (orders : OrderHeap) (this : t)
  : list RouteStop.t * t :=
  match assignedOrders this with
  | [] => ([], this)
  | _ :: _ =>
      let sortedOrders :=
        js_sort (fun a b => priorityOrder (Order.priority (orders b))
                            - priorityOrder (Order.priority (orders a)))
                (assignedOrders this) in
      let this1 := set_assignedOrders this sortedOrders in
      let route :=
        visitLoop (length sortedOrders) orders (basePosition this)
                  sortedOrders [baseStop this] ++ [baseStop this] in
      (route, set_currentRoute this1 route)
  end.

(** The loop [totalDistance += calculateDistance(route[i], route[i + 1])]. *)
Fixpoint sumLegs (totalDistance : R) (route : list Point.t) : R :=
  match route with
  | a :: (b :: _) as rest => sumLegs (totalDistance + calculateDistance a b) rest
  | _ => totalDistance
  end.

Definition calculateRouteDistance (this : t) : R :=
  if Nat.ltb (length (currentRoute this)) 2 then 0
  else sumLegs 0 (map RouteStop.point (currentRoute this)).

(** [deliverOrder(order)] up to its return: the timer that sets the status
    back to flying fires later.  [orders] holds the assigned orders, whose
    ids the filter reads. *)
Definition deliverOrder (now : R) (orders : OrderHeap) (this : t)
    (order : Order.t) : t * Order.t :=
  (mk (id this) (capacity this) (range this)
      (currentLoad this - Order.weight order)
      (battery this) (position this) delivering
      (filter (fun o => negb (String.eqb (Order.id (orders o)) (Order.id order)))
              (assignedOrders this))
      (currentRoute this) (totalDistance this)
      (S (deliveriesCount this)) (basePosition this) (currentRouteIndex this)
      (speed this),
   Order.mk (Order.id order) (Order.location order) (Order.weight order)
            (Order.priority order) delivered (Order.createdAt order)
            (Order.assignedDrone order) (Some now)
            (Order.estimatedDeliveryTime order)).

(** [completeDelivery()] up to its return: the timer that sets the status
    to idle and recharges fires later. *)
Definition completeDelivery (this : t) : t :=
  mk (id this) (capacity this) (range this) 0 (battery this)
     (basePosition this) returning [] [] (totalDistance this)
     (deliveriesCount this) (basePosition this) 0 (speed this).

Definition reset (this : t) : t :=
  mk (id this) (capacity this) (range this) 0 100
     (basePosition this) idle [] [] (totalDistance this)
     (deliveriesCount this) (basePosition this) 0 (speed this).

Definition needsToReturn (this : t) : bool := Rltb (battery this) 20.

Definition getEfficiency (this : t) : R :=
  if Req_dec_T (totalDistance this) 0 then 0
  else js_round (INR (deliveriesCount this) / totalDistance this * 100).

Definition set_status (this : t) (st : DroneStatus) : t :=
  mk (id this) (capacity this) (range this) (currentLoad this)
     (battery this) (position this) st
     (assignedOrders this) (currentRoute this) (totalDistance this)
     (deliveriesCount this) (basePosition this) (currentRouteIndex this)
     (speed this).

Definition add_totalDistance (this : t) (d : R) : t :=
  mk (id this) (capacity this) (range this) (currentLoad this)
     (battery this) (position this) (status this)
     (assignedOrders this) (currentRoute this) (totalDistance this + d)
     (deliveriesCount this) (basePosition this) (currentRouteIndex this)
     (speed this).

(** [startDelivery()] up to its return: the timer that starts the flight
    fires later. *)
Definition startDelivery (orders : OrderHeap) (this : t) : bool * t :=
  match assignedOrders this with
  | [] => (false, this)
  | _ :: _ =>
      let this1 := set_status this loading in
      let this2 := snd (optimizeRoute orders this1) in
      let routeDistance := calculateRouteDistance this2 in
      (true, add_totalDistance this2 routeDistance)
  end.

(** The timer of [startDelivery]: [status = 'flying'] and
    [currentRouteIndex = 0]; it then calls [simulateMovement]. *)
Definition takeOff (this : t) : t :=
  mk (id this) (capacity this) (range this) (currentLoad this)
     (battery this) (position this) flying
     (assignedOrders this) (currentRoute this) (totalDistance this)
     (deliveriesCount this) (basePosition this) 0 (speed this).

(** What the callback of [simulateMovement] does after the delivery:
    [currentRouteIndex++] and the battery pays for the leg. *)
Definition advance (this : t) (distance : R) : t :=
  mk (id this) (capacity this) (range this) (currentLoad this)
     (Rmax 0 (battery this - calculateBatteryNeeded distance))
     (position this) (status this)
     (assignedOrders this) (currentRoute this) (totalDistance this)
     (deliveriesCount this) (basePosition this) (S (currentRouteIndex this))
     (speed this).

(** The last step of [moveToPoint(targetPoint, callback)], which puts the
    drone on the target and calls [callback]; the steps before it move
    [position] along the segment. *)
Definition moveToPoint (this : t) (targetPoint : Point.t) : t :=
  mk (id this) (capacity this) (range this) (currentLoad this)
     (battery this) (Point.mk (Point.x targetPoint) (Point.y targetPoint))
     (status this)
     (assignedOrders this) (currentRoute this) (totalDistance this)
     (deliveriesCount this) (basePosition this) (currentRouteIndex this)
     (speed this).

(** The timer of [completeDelivery]: [status = 'idle'] and
    [battery = 100]. *)
Definition recharge (this : t) : t :=
  mk (id this) (capacity this) (range this) (currentLoad this)
     100 (position this) idle
     (assignedOrders this) (currentRoute this) (totalDistance this)
     (deliveriesCount this) (basePosition this) (currentRouteIndex this)
     (speed this).

End Drone.

(** ** The store: the orders and drones the engine works on *)

Module Store.
Record t := mk {
  orders : oref -> Order.t;
  drones : dref -> Drone.t
}.
End Store.

Definition upd {A : Type} (f : nat -> A) (k : nat) (v : A) : nat -> A :=
  fun k' => if Nat.eqb k' k then v else f k'.

(** [drone.assignOrder(order)] on the objects behind two references. *)
Definition callAssignOrder (s : Store.t) (d : dref) (o : oref)
  : bool * Store.t :=
  let '(ok, this', order') :=
    Drone.assignOrder (Store.drones s d) o (Store.orders s o) in
  if ok
  then (true, Store.mk (upd (Store.orders s) o order')
                       (upd (Store.drones s) d this'))
  else (false, s).

(** [drone.optimizeRoute()] *)
Definition callOptimizeRoute (s : Store.t) (d : dref)
  : list RouteStop.t * Store.t :=
  let '(route, this') := Drone.optimizeRoute (Store.orders s) (Store.drones s d) in
  (route, Store.mk (Store.orders s) (upd (Store.drones s) d this')).

(** ** Results of the engine *)

Module Assignment.
Record t := mk {
  drone : string;
  orders : list string;
  totalWeight : option R;
  clusterDistance : option R
}.
End Assignment.

(** A result object; [assignments] and [strategy] are absent from the
    object returned on empty input. *)
Module Result.
Record t := mk {
  success : bool;
  message : string;
  assignments : option (list Assignment.t);
  strategy : option string
}.
End Result.

(** A call either returns or throws a [TypeError] (a property read on
    [undefined]). *)
Inductive Exc (A : Type) : Type :=
| OK (a : A)
| TypeError.
Arguments OK {A} a.
Arguments TypeError {A}.

Definition bindExc {A B : Type} (m : Exc A) (f : A -> Exc B) : Exc B :=
  match m with
  | OK a => f a
  | TypeError => TypeError
  end.

Notation "x <- m ;; k" := (bindExc m (fun x => k))
  (at level 61, m at next level, right associativity).

Definition nat_to_string (n : nat) : string :=
  NilZero.string_of_uint (Nat.to_uint n).

(** [l[z]] for a number [z] that is an integer. *)
Definition js_index {A : Type} (l : list A) (z : Z) : option A :=
  if (z <? 0)%Z then None else nth_error l (Z.to_nat z).

(** ** OptimizationAlgorithm *)

Module OptimizationAlgorithm.

Module Analysis.
Record t := mk {
  orderCount : nat;
  droneCount : nat;
  capacityUtilization : R;
  avgDistance : R;
  priorityRatio : R;
  isHighVolume : bool;
  isHighPriority : bool
}.
End Analysis.

Definition calculateDistance (point1 point2 : Point.t) : R :=
  let dx := Point.x point2 - Point.x point1 in
  let dy := Point.y point2 - Point.y point1 in
  sqrt (dx * dx + dy * dy).

Fixpoint sumLegs (totalDistance : R) (route : list Point.t) : R :=
  match route with
  | a :: (b :: _) as rest => sumLegs (totalDistance + calculateDistance a b) rest
  | _ => totalDistance
  end.

Definition calculateRouteDistance (route : list Point.t) : R :=
  if Nat.ltb (List.length route) 2 then 0 else sumLegs 0 route.

Definition calculateAverageDistanceFromBase (s : Store.t) (orders : list oref)
  : R :=
  match orders with
  | [] => 0
  | _ :: _ =>
      let basePosition := Point.mk 10 10 in
      let totalDistance :=
        fold_left (fun sum order =>
                     sum + calculateDistance
                             (Order.location (Store.orders s order))
                             basePosition)
                  orders 0 in
      totalDistance / INR (List.length orders)
  end.

Definition is_alta (p : Priority) : bool :=
  match p with alta => true | _ => false end.

Definition analyzeDeliveryScenario (s : Store.t) (orders : list oref)
    (drones : list dref) : Analysis.t :=
  let totalWeight :=
    fold_left (fun sum order => sum + Order.weight (Store.orders s order))
              orders 0 in
  let totalCapacity :=
    fold_left (fun sum drone => sum + Drone.capacity (Store.drones s drone))
              drones 0 in
  let avgOrderDistance := calculateAverageDistanceFromBase s orders in
  let highPriorityCount :=
    List.length
      (filter (fun o => is_alta (Order.priority (Store.orders s o))) orders) in
  Analysis.mk
    (List.length orders)
    (List.length drones)
    (totalWeight / totalCapacity)
    avgOrderDistance
    (INR highPriorityCount / INR (List.length orders))
    (Nat.ltb (List.length drones * 3) (List.length orders))
    (Rltb (INR (List.length orders) * 0.5) (INR highPriorityCount)).

Definition selectOptimizationStrategy (analysis : Analysis.t) : string :=
  if Analysis.isHighPriority analysis then "priority_first"%string
  else if Analysis.isHighVolume analysis then "capacity_optimization"%string
  else if Rlt_dec 10 (Analysis.avgDistance analysis)
       then "distance_optimization"%string
  else "balanced_optimization"%string.

(** *** Greedy assignment *)

Definition calculateAssignmentScore (order : Order.t) (drone : Drone.t) : R :=
  let distance :=
    Drone.calculateDistance (Drone.position drone) (Order.location order) in
  let capacityUtilization :=
    (Drone.currentLoad drone + Order.weight order) / Drone.capacity drone in
  let batteryFactor := Drone.battery drone / 100 in
  (capacityUtilization * batteryFactor) / (distance + 0.1).

(** The loop [for (const drone of availableDrones)]. *)
Fixpoint bestDroneLoop (s : Store.t) (order : oref)
    (availableDrones : list dref) (bestDrone : option dref) (bestScore : R)
  : option dref :=
  match availableDrones with
  | [] => bestDrone
  | drone :: rest =>
      if Drone.canCarryOrder (Store.drones s drone) (Store.orders s order)
      then
        let score :=
          calculateAssignmentScore (Store.orders s order)
                                   (Store.drones s drone) in
        if Rlt_dec bestScore score
        then bestDroneLoop s order rest (Some drone) score
        else bestDroneLoop s order rest bestDrone bestScore
      else bestDroneLoop s order rest bestDrone bestScore
  end.

(** [assignments.find(a => a.drone === id)] followed by
    [existingAssignment.orders.push(orderId)]. *)
Fixpoint pushToExisting (droneId orderId : string)
    (assignments : list Assignment.t) : list Assignment.t :=
  match assignments with
  | [] => []
  | a :: rest =>
      if String.eqb (Assignment.drone a) droneId
      then Assignment.mk (Assignment.drone a)
                         (Assignment.orders a ++ [orderId])
                         (Assignment.totalWeight a)
                         (Assignment.clusterDistance a) :: rest
      else a :: pushToExisting droneId orderId rest
  end.

(** The loop [for (const order of orders)] of [greedyAssignment], on the
    store, the assignments and [assignedOrdersCount]. *)
Fixpoint greedyLoop (availableDrones : list dref) (orders : list oref)
    (s : Store.t) (assignments : list Assignment.t) (assignedOrdersCount : nat)
  : Store.t * list Assignment.t * nat :=
  match orders with
  | [] => (s, assignments, assignedOrdersCount)
  | order :: rest =>
      if negb (OrderStatus_eqb (Order.status (Store.orders s order)) pending)
      then greedyLoop availableDrones rest s assignments assignedOrdersCount
      else
        match bestDroneLoop s order availableDrones None (-1) with
        | None =>
            greedyLoop availableDrones rest s assignments assignedOrdersCount
        | Some bestDrone =>
            let '(ok, s') := callAssignOrder s bestDrone order in
            if ok then
              let droneId := Drone.id (Store.drones s' bestDrone) in
              let orderId := Order.id (Store.orders s' order) in
              let assignments' :=
                if Nat.eqb
                     (List.length
                        (Drone.assignedOrders (Store.drones s' bestDrone))) 1
                then assignments ++ [Assignment.mk droneId [orderId] None None]
                else pushToExisting droneId orderId assignments in
              greedyLoop availableDrones rest s' assignments'
                         (S assignedOrdersCount)
            else
              greedyLoop availableDrones rest s' assignments
                         assignedOrdersCount
        end
  end.

Definition is_idle (s : Store.t) (d : dref) : bool :=
  DroneStatus_eqb (Drone.status (Store.drones s d)) idle.

Definition is_pending (s : Store.t) (o : oref) : bool :=
  OrderStatus_eqb (Order.status (Store.orders s o)) pending.

Definition greedyAssignment (s : Store.t) (orders : list oref)
    (drones : list dref) : Result.t * Store.t :=
  let availableDrones := filter (is_idle s) drones in
  let '(s', assignments, assignedOrdersCount) :=
    greedyLoop availableDrones orders s [] 0 in
  (Result.mk (Nat.ltb 0 assignedOrdersCount)
             (nat_to_string assignedOrdersCount
              ++ " pedidos atribuídos usando algoritmo guloso")%string
             (Some assignments)
             (Some "greedy_assignment"%string),
   s').

Definition priorityScores (p : Priority) : R :=
  match p with alta => 100 | media => 50 | baixa => 10 end.

(** [orders.sort(...)] also reorders the caller's array, which is not part
    of the store. *)
Definition priorityFirstOptimization (now : R) (s : Store.t)
    (orders : list oref) (drones : list dref) : Result.t * Store.t :=
  let sortedOrders :=
    js_sort (fun a b =>
               let priorityDiff :=
                 priorityScores (Order.priority (Store.orders s b))
                 - priorityScores (Order.priority (Store.orders s a)) in
               if Req_dec_T priorityDiff 0
               then Order.getWaitingTime now (Store.orders s b)
                    - Order.getWaitingTime now (Store.orders s a)
               else priorityDiff)
            orders in
  greedyAssignment s sortedOrders drones.

(** *** Capacity optimization *)

Definition calculateOrderEfficiencyScore (now : R) (order : Order.t)
    (drone : Drone.t) : R :=
  let priorityWeight :=
    match Order.priority order with alta => 3 | media => 2 | baixa => 1 end in
  let distance :=
    Drone.calculateDistance (Drone.position drone) (Order.location order) in
  let timeWeight := Rmin (Order.getWaitingTime now order / 30) 2 in
  (priorityWeight + timeWeight) / (distance + 0.1).

(** The loop [for (const order of remainingOrders)]. *)
Fixpoint fillLoop (s : Store.t) (remainingOrders combination : list oref)
    (remainingCapacity : R) : list oref :=
  match remainingOrders with
  | [] => combination
  | order :: rest =>
      if Rle_dec (Order.weight (Store.orders s order)) remainingCapacity
      then fillLoop s rest (combination ++ [order])
                    (remainingCapacity - Order.weight (Store.orders s order))
      else fillLoop s rest combination remainingCapacity
  end.

Definition findBestOrderCombination (now : R) (s : Store.t)
    (orders : list oref) (drone : dref) : list oref :=
  let validOrders :=
    filter (fun order =>
              Drone.canCarryOrder (Store.drones s drone) (Store.orders s order))
           orders in
  match validOrders with
  | [] => []
  | _ :: _ =>
      let remainingCapacity :=
        Drone.capacity (Store.drones s drone)
        - Drone.currentLoad (Store.drones s drone) in
      let remainingOrders :=
        js_sort (fun a b =>
                   calculateOrderEfficiencyScore now (Store.orders s b)
                                                 (Store.drones s drone)
                   - calculateOrderEfficiencyScore now (Store.orders s a)
                                                   (Store.drones s drone))
                validOrders in
      fillLoop s remainingOrders [] remainingCapacity
  end.

(** [pendingOrders.splice(pendingOrders.indexOf(order), 1)]; [indexOf]
    answers -1 for an absent order and [splice(-1, 1)] removes the last
    element. *)
Definition spliceIndexOf (order : oref) (pendingOrders : list oref)
  : list oref :=
  match indexOf order pendingOrders with
  | Some i => splice1 i pendingOrders
  | None => removelast pendingOrders
  end.

(** [bestCombination.forEach(...)], on the store and [pendingOrders]. *)
Fixpoint assignCombination (drone : dref) (bestCombination : list oref)
    (s : Store.t) (pendingOrders : list oref) : Store.t * list oref :=
  match bestCombination with
  | [] => (s, pendingOrders)
  | order :: rest =>
      let '(ok, s') := callAssignOrder s drone order in
      if ok
      then assignCombination drone rest s' (spliceIndexOf order pendingOrders)
      else assignCombination drone rest s' pendingOrders
  end.

(** The loop [for (const drone of availableDrones)]. *)
Fixpoint capacityLoop (now : R) (availableDrones : list dref) (s : Store.t)
    (pendingOrders : list oref) (assignments : list Assignment.t)
  : Store.t * list Assignment.t :=
  match availableDrones with
  | [] => (s, assignments)
  | drone :: rest =>
      let bestCombination :=
        findBestOrderCombination now s pendingOrders drone in
      if Nat.ltb 0 (List.length bestCombination)
      then
        let '(s', pendingOrders') :=
          assignCombination drone bestCombination s pendingOrders in
        let a :=
          Assignment.mk
            (Drone.id (Store.drones s' drone))
            (map (fun o => Order.id (Store.orders s' o)) bestCombination)
            (Some (fold_left
                     (fun sum o => sum + Order.weight (Store.orders s' o))
                     bestCombination 0))
            None in
        capacityLoop now rest s' pendingOrders' (assignments ++ [a])
      else capacityLoop now rest s pendingOrders assignments
  end.

Definition capacityOptimization (now : R) (s : Store.t) (orders : list oref)
    (drones : list dref) : Result.t * Store.t :=
  let availableDrones := filter (is_idle s) drones in
  let pendingOrders := filter (is_pending s) orders in
  let '(s', assignments) :=
    capacityLoop now availableDrones s pendingOrders [] in
  (Result.mk (Nat.ltb 0 (List.length assignments))
             (nat_to_string (List.length assignments)
              ++ " drones otimizados por capacidade")%string
             (Some assignments)
             (Some "capacity_optimization"%string),
   s').

(** *** Clustering *)

(** The loop [for (let i = 1; i < centroids.length; i++)]: [rest] holds
    [centroids[i..]]. *)
Fixpoint nearestCentroidLoop (location : Point.t) (rest : list Point.t)
    (i nearestCentroid : nat) (nearestDistance : R) : nat :=
  match rest with
  | [] => nearestCentroid
  | c :: rest' =>
      let distance := calculateDistance location c in
      if Rlt_dec distance nearestDistance
      then nearestCentroidLoop location rest' (S i) i distance
      else nearestCentroidLoop location rest' (S i)
                               nearestCentroid nearestDistance
  end.

(** [centroids[0]] is [undefined] in an empty array and [calculateDistance]
    reads its [x]. *)
Definition nearestCentroidOf (location : Point.t) (centroids : list Point.t)
  : Exc nat :=
  match centroids with
  | [] => TypeError
  | c0 :: rest =>
      OK (nearestCentroidLoop location rest 1 0 (calculateDistance location c0))
  end.

(** [clusters[i].push(order)] *)
Definition pushAt (i : nat) (order : oref) (clusters : list (list oref))
  : Exc (list (list oref)) :=
  match nth_error clusters i with
  | None => TypeError
  | Some c => OK (set_nth i (c ++ [order]) clusters)
  end.

(** The loop [for (const order of orders)] filling the clusters. *)
Fixpoint assignToClusters (s : Store.t) (centroids : list Point.t)
    (orders : list oref) (clusters : list (list oref))
  : Exc (list (list oref)) :=
  match orders with
  | [] => OK clusters
  | order :: rest =>
      nearestCentroid <-
        nearestCentroidOf (Order.location (Store.orders s order)) centroids ;;
      clusters' <- pushAt nearestCentroid order clusters ;;
      assignToClusters s centroids rest clusters'
  end.

Definition centroidOf (s : Store.t) (cluster : list oref) : Point.t :=
  let avgX :=
    fold_left (fun sum o => sum + Point.x (Order.location (Store.orders s o)))
              cluster 0 / INR (List.length cluster) in
  let avgY :=
    fold_left (fun sum o => sum + Point.y (Order.location (Store.orders s o)))
              cluster 0 / INR (List.length cluster) in
  Point.mk avgX avgY.

(** The loop updating [centroids[i]] from [clusters[i]], both read from
    index [i] on. *)
Fixpoint updateCentroids (s : Store.t) (centroids : list Point.t)
    (clusters : list (list oref)) : Exc (list Point.t) :=
  match centroids with
  | [] => OK []
  | c :: centroids' =>
      match clusters with
      | [] => TypeError
      | cluster :: clusters' =>
          rest <- updateCentroids s centroids' clusters' ;;
          OK ((if Nat.ltb 0 (List.length cluster)
               then centroidOf s cluster else c) :: rest)
      end
  end.

(** The loop [for (let i = 0; i < k; i++)] drawing the centroids: [i] is
    the number of the draw, [n] the turns left. *)
Fixpoint initCentroids (rnd : nat -> R) (s : Store.t) (orders : list oref)
    (i n : nat) (centroids : list Point.t) : Exc (list Point.t) :=
  match n with
  | O => OK centroids
  | S n' =>
      match js_index orders (Zfloor (rnd i * INR (List.length orders))) with
      | None => TypeError
      | Some randomOrder =>
          initCentroids rnd s orders (S i) n'
            (centroids ++ [Order.location (Store.orders s randomOrder)])
      end
  end.

(** The three turns of the simplified k-means. *)
Fixpoint kmeansLoop (s : Store.t) (orders : list oref) (k : nat)
    (iterations : nat) (centroids : list Point.t) : Exc (list Point.t) :=
  match iterations with
  | O => OK centroids
  | S iterations' =>
      clusters <- assignToClusters s centroids orders (repeat [] k) ;;
      centroids' <- updateCentroids s centroids clusters ;;
      kmeansLoop s orders k iterations' centroids'
  end.

Definition nonEmpty (cluster : list oref) : bool :=
  Nat.ltb 0 (List.length cluster).

Definition clusterOrdersByDistance (rnd : nat -> R) (s : Store.t)
    (orders : list oref) (k : nat) : Exc (list (list oref)) :=
  if Nat.leb (List.length orders) k
  then OK (map (fun order => [order]) orders)
  else
    centroids0 <- initCentroids rnd s orders 0 k [] ;;
    centroids <- kmeansLoop s orders k 3 centroids0 ;;
    finalClusters <- assignToClusters s centroids orders (repeat [] k) ;;
    OK (filter nonEmpty finalClusters).

(** *** Distance optimization *)

Definition calculateClusterDistance (s : Store.t) (orders : list oref) : R :=
  match orders with
  | [] => 0
  | [_] => 0
  | first :: _ =>
      let basePosition := Point.mk 10 10 in
      sumLegs 0 ([basePosition]
                 ++ map (fun o => Order.location (Store.orders s o)) orders
                 ++ [basePosition])
  end.

(** The loop [for (const order of cluster)], on the store and
    [assignedOrders]. *)
Fixpoint assignCluster (drone : dref) (cluster : list oref) (s : Store.t)
    (assignedOrders : list oref) : Store.t * list oref :=
  match cluster with
  | [] => (s, assignedOrders)
  | order :: rest =>
      if Drone.canCarryOrder (Store.drones s drone) (Store.orders s order)
      then
        let '(ok, s') := callAssignOrder s drone order in
        if ok
        then assignCluster drone rest s' (assignedOrders ++ [order])
        else assignCluster drone rest s' assignedOrders
      else assignCluster drone rest s assignedOrders
  end.

(** The loop over [i < Math.min(clusters.length, drones.length)]: [clusters]
    and [drones] hold the elements from index [i] on.  The table
    [priorityScores] of the comparator is [{alta: 3, media: 2, baixa: 1}],
    the values of [Drone.priorityOrder]. *)
Fixpoint distanceLoop (clusters : list (list oref)) (drones : list dref)
    (s : Store.t) (assignments : list Assignment.t)
  : Store.t * list Assignment.t :=
  match clusters, drones with
  | cluster :: clusters', drone :: drones' =>
      let sorted :=
        js_sort (fun a b =>
                   Drone.priorityOrder (Order.priority (Store.orders s b))
                   - Drone.priorityOrder (Order.priority (Store.orders s a)))
                cluster in
      let '(s', assignedOrders) := assignCluster drone sorted s [] in
      if Nat.ltb 0 (List.length assignedOrders)
      then
        let a :=
          Assignment.mk
            (Drone.id (Store.drones s' drone))
            (map (fun o => Order.id (Store.orders s' o)) assignedOrders)
            None
            (Some (calculateClusterDistance s' assignedOrders)) in
        distanceLoop clusters' drones' s' (assignments ++ [a])
      else distanceLoop clusters' drones' s' assignments
  | _, _ => (s, assignments)
  end.

Definition distanceOptimization (rnd : nat -> R) (s : Store.t)
    (orders : list oref) (drones : list dref) : Exc (Result.t * Store.t) :=
  clusters <- clusterOrdersByDistance rnd s orders (List.length drones) ;;
  let '(s', assignments) := distanceLoop clusters drones s [] in
  OK (Result.mk (Nat.ltb 0 (List.length assignments))
                (nat_to_string (List.length assignments)
                 ++ " drones otimizados por distância")%string
                (Some assignments)
                (Some "distance_optimization"%string),
      s').

(** *** Balanced optimization *)

(** [None] stands for [-Infinity], the score when there is no drone. *)
Definition calculateBalancedScore (now : R) (s : Store.t) (order : oref)
    (drones : list dref) : option R :=
  let timeBonus :=
    Rmin (Order.getWaitingTime now (Store.orders s order) * 2) 50 in
  match math_min
          (map (fun drone =>
                  Drone.calculateDistance
                    (Drone.position (Store.drones s drone))
                    (Order.location (Store.orders s order)))
               drones) with
  | None => None
  | Some minDistance =>
      let distancePenalty := minDistance * 5 in
      Some (priorityScores (Order.priority (Store.orders s order))
            + timeBonus - distancePenalty)
  end.

(** [b.score - a.score]; the difference of two [-Infinity] is NaN, which
    [sort] reads as 0. *)
Definition scoreDiff (a b : oref * option R) : R :=
  match snd a, snd b with
  | Some sa, Some sb => sb - sa
  | None, None => 0
  | None, Some _ => 1
  | Some _, None => -1
  end.

Definition balancedOptimization (now : R) (s : Store.t) (orders : list oref)
    (drones : list dref) : Result.t * Store.t :=
  let scoredOrders :=
    map (fun order => (order, calculateBalancedScore now s order drones))
        orders in
  let sorted := js_sort scoreDiff scoredOrders in
  greedyAssignment s (map fst sorted) drones.

(** *** Entry points *)

Definition applyOptimizationStrategy (now : R) (rnd : nat -> R) (s : Store.t)
    (orders : list oref) (drones : list dref) (strategy : string)
  : Exc (Result.t * Store.t) :=
  if String.eqb strategy "priority_first"
  then OK (priorityFirstOptimization now s orders drones)
  else if String.eqb strategy "capacity_optimization"
  then OK (capacityOptimization now s orders drones)
  else if String.eqb strategy "distance_optimization"
  then distanceOptimization rnd s orders drones
  else OK (balancedOptimization now s orders drones).

Definition optimizeDeliveries (now : R) (rnd : nat -> R) (s : Store.t)
    (orders : list oref) (drones : list dref) : Exc (Result.t * Store.t) :=
  if orb (Nat.eqb (List.length orders) 0) (Nat.eqb (List.length drones) 0)
  then OK (Result.mk false "Sem pedidos ou drones disponíveis"%string
                     None None, s)
  else
    let analysis := analyzeDeliveryScenario s orders drones in
    let strategy := selectOptimizationStrategy analysis in
    applyOptimizationStrategy now rnd s orders drones strategy.

(** *** 2-opt *)

(** The loop of [reverseRouteSegment]; it runs at most [end - start] turns.
    The indices the engine passes are inside the array. *)
Fixpoint reverseLoop (fuel : nat) (route : list Point.t) (start end_ : nat)
  : list Point.t :=
  match fuel with
  | O => route
  | S fuel' =>
      if Nat.ltb start end_
      then
        match nth_error route start, nth_error route end_ with
        | Some temp, Some other =>
            reverseLoop fuel' (set_nth end_ temp (set_nth start other route))
                        (S start) (Nat.pred end_)
        | _, _ => route
        end
      else route
  end.

Definition reverseRouteSegment (route : list Point.t) (start end_ : nat)
  : list Point.t :=
  reverseLoop (end_ - start) route start end_.

(** The body of the two [for] loops, on [bestRoute], [bestDistance] and
    [improved]. *)
Definition tryReversal (route : list Point.t) (i j : nat)
    (st : list Point.t * R * bool) : list Point.t * R * bool :=
  let newRoute := reverseRouteSegment route i j in
  let newDistance := calculateRouteDistance newRoute in
  if Rlt_dec newDistance (snd (fst st))
  then (newRoute, newDistance, true)
  else st.

(** [for (i = 1; i < route.length - 2; i++)
      for (j = i + 1; j < route.length - 1; j++)] *)
Definition scanPairs (route : list Point.t) (st : list Point.t * R * bool)
  : list Point.t * R * bool :=
  fold_left
    (fun st i =>
       fold_left (fun st j => tryReversal route i j st)
                 (seq (i + 1) (List.length route - 1 - (i + 1))) st)
    (seq 1 (List.length route - 2 - 1)) st.

(** The loop [while (improved)]; [None] when [fuel] turns were not enough. *)
Fixpoint whileImproved (fuel : nat) (route bestRoute : list Point.t)
    (bestDistance : R) : option (list Point.t) :=
  match fuel with
  | O => None
  | S fuel' =>
      let '(bestRoute', bestDistance', improved) :=
        scanPairs route (bestRoute, bestDistance, false) in
      if improved
      then whileImproved fuel' bestRoute' bestRoute' bestDistance'
      else Some bestRoute'
  end.

Definition optimizeRouteWith2Opt (fuel : nat) (route : list Point.t)
  : option (list Point.t) :=
  if Nat.ltb (List.length route) 4 then Some route
  else whileImproved fuel route route (calculateRouteDistance route).

End OptimizationAlgorithm.

(** What a successful [assignOrder] leaves alone in the drone. *)
Definition sameDroneFrame (a b : Drone.t) : Prop :=
  Drone.id b = Drone.id a /\ Drone.capacity b = Drone.capacity a
  /\ Drone.range b = Drone.range a /\ Drone.battery b = Drone.battery a
  /\ Drone.position b = Drone.position a /\ Drone.status b = Drone.status a
  /\ Drone.currentRoute b = Drone.currentRoute a
  /\ Drone.totalDistance b = Drone.totalDistance a
  /\ Drone.deliveriesCount b = Drone.deliveriesCount a
  /\ Drone.basePosition b = Drone.basePosition a
  /\ Drone.currentRouteIndex b = Drone.currentRouteIndex a
  /\ Drone.speed b = Drone.speed a.

(** What a successful [assignOrder] leaves alone in the order. *)
Definition sameOrderFrame (a b : Order.t) : Prop :=
  Order.id b = Order.id a /\ Order.location b = Order.location a
  /\ Order.weight b = Order.weight a /\ Order.priority b = Order.priority a
  /\ Order.createdAt b = Order.createdAt a
  /\ Order.deliveredAt b = Order.deliveredAt a
  /\ Order.estimatedDeliveryTime b = Order.estimatedDeliveryTime a.

(** ** Drone methods on the store *)

(** [drone.deliverOrder(order)] up to its return. *)
Definition callDeliverOrder (now : R) (s : Store.t) (d : dref) (o : oref)
  : Store.t :=
  let '(this', order') :=
    Drone.deliverOrder now (Store.orders s) (Store.drones s d)
                       (Store.orders s o) in
  Store.mk (upd (Store.orders s) o order') (upd (Store.drones s) d this').

(** The drone behind [d] changed by [f]. *)
Definition onDrone (s : Store.t) (d : dref) (f : Drone.t -> Drone.t)
  : Store.t :=
  Store.mk (Store.orders s) (upd (Store.drones s) d (f (Store.drones s d))).

(** [drone.startDelivery()] up to its return. *)
Definition callStartDelivery (s : Store.t) (d : dref) : bool * Store.t :=
  let '(ok, this') :=
    Drone.startDelivery (Store.orders s) (Store.drones s d) in
  (ok, Store.mk (Store.orders s) (upd (Store.drones s) d this')).

(** ** A flight

    [startDelivery] leaves the flight to timers and to the animation of
    [moveToPoint].  The flight is modelled as the events of one drone in
    the order in which they fire, with nothing else touching the drone or
    its orders in between; [clock i] is the time at which the stop [i] of
    the route is reached. *)

(** The callback that [simulateMovement] hands to [moveToPoint], run at
    [now] on arrival at [nextPoint], and then the timer of [deliverOrder],
    which fires before the one that calls [simulateMovement] again.
    Delivering the order of a stop that has none throws. *)
Definition arrive (now : R) (s : Store.t) (d : dref)
    (currentPoint nextPoint : RouteStop.t) : Exc Store.t :=
  let distance :=
    Drone.calculateDistance (RouteStop.point currentPoint)
                            (RouteStop.point nextPoint) in
  match RouteStop.type nextPoint with
  | delivery =>
      match RouteStop.order nextPoint with
      | Some o =>
          let s1 := callDeliverOrder now s d o in
          let s2 := onDrone s1 d (fun this => Drone.advance this distance) in
          OK (onDrone s2 d (fun this => Drone.set_status this flying))
      | None => TypeError
      end
  | base => OK (onDrone s d (fun this => Drone.advance this distance))
  end.

(** [simulateMovement()] and the calls of itself that it schedules, up to
    [completeDelivery()]; every call moves one stop on, so
    [length currentRoute] calls are enough.  [None]: out of fuel. *)
Fixpoint simulateMovement (fuel : nat) (clock : nat -> R) (s : Store.t)
    (d : dref) : option (Exc Store.t) :=
  let this := Store.drones s d in
  if Nat.leb (List.length (Drone.currentRoute this))
             (S (Drone.currentRouteIndex this))
  then Some (OK (onDrone s d Drone.completeDelivery))
  else
    match fuel with
    | O => None
    | S fuel' =>
        match nth_error (Drone.currentRoute this)
                        (Drone.currentRouteIndex this),
              nth_error (Drone.currentRoute this)
                        (S (Drone.currentRouteIndex this)) with
        | Some currentPoint, Some nextPoint =>
            let s1 :=
              onDrone s d (fun this =>
                Drone.moveToPoint this (RouteStop.point nextPoint)) in
            match arrive (clock (S (Drone.currentRouteIndex this))) s1 d
                         currentPoint nextPoint with
            | OK s2 => simulateMovement fuel' clock s2 d
            | TypeError => Some TypeError
            end
        | _, _ => Some TypeError
        end
    end.

(** The flight that a successful [startDelivery] has scheduled: the timer
    of [startDelivery], the movement along the route, [completeDelivery]
    and its timer. *)
Definition flight (clock : nat -> R) (s : Store.t) (d : dref)
  : option (Exc Store.t) :=
  let s1 := onDrone s d Drone.takeOff in
  match simulateMovement
          (List.length (Drone.currentRoute (Store.drones s1 d))) clock s1 d
  with
  | Some (OK s2) => Some (OK (onDrone s2 d Drone.recharge))
  | r => r
  end.

(** ** DroneController (unnamed/part_004) *)

Module DroneController.

(** The object returned by [optimizeOrderDistribution]; the two counts are
    absent from the object returned on empty input. *)
Module Distribution.
Record t := mk {
  success : bool;
  message : string;
  assignedOrders : option nat;
  totalOrders : option nat
}.
End Distribution.

(** [this.drones] is the list [drones]. *)
Definition getAvailableDrones (s : Store.t) (drones : list dref) : list dref :=
  filter (fun drone =>
            OptimizationAlgorithm.is_idle s drone
            && negb (Drone.needsToReturn (Store.drones s drone)))
         drones.

(** [drone.getEfficiency() || 50] *)
Definition efficiencyOrDefault (drone : Drone.t) : R :=
  if Req_dec_T (Drone.getEfficiency drone) 0 then 50
  else Drone.getEfficiency drone.

Definition droneScore (order : Order.t) (drone : Drone.t) : R :=
  let distanceToOrder :=
    Drone.calculateDistance (Drone.position drone) (Order.location order) in
  let capacityUtilization :=
    (Drone.currentLoad drone + Order.weight order) / Drone.capacity drone in
  let efficiency := efficiencyOrDefault drone in
  (1 / (distanceToOrder + 1)) * capacityUtilization * (efficiency / 100).

(** The loop [for (const drone of availableDrones)] of
    [findBestDroneForOrder]. *)
Fixpoint bestDroneLoop (s : Store.t) (order : oref)
    (availableDrones : list dref) (bestDrone : option dref) (bestScore : R)
  : option dref :=
  match availableDrones with
  | [] => bestDrone
  | drone :: rest =>
      if negb (Drone.canCarryOrder (Store.drones s drone) (Store.orders s order))
      then bestDroneLoop s order rest bestDrone bestScore
      else
        let score := droneScore (Store.orders s order) (Store.drones s drone) in
        if Rlt_dec bestScore score
        then bestDroneLoop s order rest (Some drone) score
        else bestDroneLoop s order rest bestDrone bestScore
  end.

Definition findBestDroneForOrder (s : Store.t) (drones : list dref)
    (order : oref) : option dref :=
  let availableDrones := getAvailableDrones s drones in
  if Nat.eqb (List.length availableDrones) 0 then None
  else bestDroneLoop s order availableDrones None (-1).

Definition assignOrderToDrone (s : Store.t) (drones : list dref)
    (order : oref) : bool * Store.t :=
  match findBestDroneForOrder s drones order with
  | Some bestDrone => callAssignOrder s bestDrone order
  | None => (false, s)
  end.

(** The loop [for (const order of sortedOrders)], on the store and
    [assignedOrders]. *)
Fixpoint distributionLoop (drones : list dref) (sortedOrders : list oref)
    (s : Store.t) (assignedOrders : nat) : Store.t * nat :=
  match sortedOrders with
  | [] => (s, assignedOrders)
  | order :: rest =>
      if OptimizationAlgorithm.is_pending s order
      then
        let '(ok, s') := assignOrderToDrone s drones order in
        if ok then distributionLoop drones rest s' (S assignedOrders)
        else distributionLoop drones rest s' assignedOrders
      else distributionLoop drones rest s assignedOrders
  end.

Definition optimizeOrderDistribution (now : R) (s : Store.t)
    (drones : list dref) (orders : list oref) : Distribution.t * Store.t :=
  if Nat.eqb (List.length orders) 0
     || Nat.eqb (List.length (getAvailableDrones s drones)) 0
  then (Distribution.mk false "Nenhum pedido ou drone disponível"%string
                        None None, s)
  else
    let sortedOrders :=
      js_sort (fun a b =>
                 let aPriority :=
                   Drone.priorityOrder (Order.priority (Store.orders s a)) in
                 let bPriority :=
                   Drone.priorityOrder (Order.priority (Store.orders s b)) in
                 if Req_dec_T aPriority bPriority
                 then Order.getWaitingTime now (Store.orders s b)
                      - Order.getWaitingTime now (Store.orders s a)
                 else bPriority - aPriority)
              orders in
    let totalOrders := List.length sortedOrders in
    let '(s', assignedOrders) := distributionLoop drones sortedOrders s 0 in
    (Distribution.mk
       (Nat.ltb 0 assignedOrders)
       (nat_to_string assignedOrders ++ " de " ++ nat_to_string totalOrders
        ++ " pedidos atribuídos")%string
       (Some assignedOrders) (Some totalOrders),
     s').

End DroneController.

(** ** OrderController *)

Module OrderController.

(** [this.orders] is the list [orders]. *)
Definition getPendingOrders (s : Store.t) (orders : list oref) : list oref :=
  filter (OptimizationAlgorithm.is_pending s) orders.

(** [processed.has(id)] on the set [processed] of order ids, held as the
    list of the ids added to it, the latest first. *)
Definition has (processed : list string) (id : string) : bool :=
  existsb (String.eqb id) processed.

(** The inner loop [for (const otherOrder of pendingOrders)] of
    [groupNearbyOrders]. *)
Fixpoint nearbyLoop (s : Store.t) (maxDistance : R) (order : oref)
    (others : list oref) (group : list oref) (processed : list string)
  : list oref * list string :=
  match others with
  | [] => (group, processed)
  | otherOrder :: rest =>
      if has processed (Order.id (Store.orders s otherOrder))
      then nearbyLoop s maxDistance order rest group processed
      else if Order.canGroupWith (Store.orders s order)
                                 (Store.orders s otherOrder) maxDistance
      then nearbyLoop s maxDistance order rest (group ++ [otherOrder])
                      (Order.id (Store.orders s otherOrder) :: processed)
      else nearbyLoop s maxDistance order rest group processed
  end.

(** The outer loop [for (const order of pendingOrders)]; [todo] holds the
    orders still to come. *)
Fixpoint groupLoop (s : Store.t) (maxDistance : R) (pendingOrders : list oref)
    (todo : list oref) (groups : list (list oref)) (processed : list string)
  : list (list oref) :=
  match todo with
  | [] => groups
  | order :: rest =>
      if has processed (Order.id (Store.orders s order))
      then groupLoop s maxDistance pendingOrders rest groups processed
      else
        let '(group, processed') :=
          nearbyLoop s maxDistance order pendingOrders [order]
                     (Order.id (Store.orders s order) :: processed) in
        groupLoop s maxDistance pendingOrders rest (groups ++ [group])
                  processed'
  end.

(** [groupNearbyOrders(maxDistance = 2)] *)
Definition groupNearbyOrders (s : Store.t) (orders : list oref)
    (maxDistance : R) : list (list oref) :=
  let pendingOrders := getPendingOrders s orders in
  groupLoop s maxDistance pendingOrders pendingOrders [] [].

End OrderController.

(** ** DeliveryController *)

(** [Math.max(...l)]; [None] stands for [-Infinity], the maximum of
    nothing. *)
Fixpoint math_max (l : list R) : option R :=
  match l with
  | [] => None
  | a :: l' => match math_max l' with
               | None => Some a
               | Some m => Some (Rmax a m)
               end
  end.

(** [x > m] for a number [x] and a maximum [m]: every number is above
    [-Infinity]. *)
Definition exceeds (x : R) (m : option R) : bool :=
  match m with
  | None => true
  | Some m => Rltb m x
  end.

Module DeliveryController.

(** The object returned by [assignGroupsToDrones]. *)
Module Report.
Record t := mk {
  success : bool;
  message : string;
  assignedOrders : nat;
  totalOrders : nat;
  totalTrips : nat;
  efficiency : R
}.
End Report.

Definition calculateDistance (point1 point2 : Point.t) : R :=
  let dx := Point.x point2 - Point.x point1 in
  let dy := Point.y point2 - Point.y point1 in
  sqrt (dx * dx + dy * dy).

Definition priorityScores (p : Priority) : R :=
  match p with alta => 100 | media => 50 | baixa => 10 end.

Definition prioritizeOrders (now : R) (s : Store.t) (orders : list oref)
  : list oref :=
  js_sort (fun a b =>
             let priorityDiff :=
               priorityScores (Order.priority (Store.orders s b))
               - priorityScores (Order.priority (Store.orders s a)) in
             if Req_dec_T priorityDiff 0
             then
               let timeDiff :=
                 Order.getWaitingTime now (Store.orders s b)
                 - Order.getWaitingTime now (Store.orders s a) in
               if Req_dec_T timeDiff 0
               then Order.weight (Store.orders s a)
                    - Order.weight (Store.orders s b)
               else timeDiff
             else priorityDiff)
          orders.

(** The [for (let i = 1; ...)] loop of [calculateGroupDistance]: [rest]
    holds [unvisited[i..]]. *)
Fixpoint nearestLoop (orders : OrderHeap) (currentPosition : Point.t)
    (rest : list oref) (i nearestIndex : nat) (nearestDistance : R) : nat :=
  match rest with
  | [] => nearestIndex
  | r :: rest' =>
      let distance :=
        calculateDistance currentPosition (Order.location (orders r)) in
      if Rlt_dec distance nearestDistance
      then nearestLoop orders currentPosition rest' (S i) i distance
      else nearestLoop orders currentPosition rest' (S i)
                       nearestIndex nearestDistance
  end.

(** The [while (unvisited.length > 0)] loop of [calculateGroupDistance], on
    [totalDistance] and [currentPosition]; every turn removes one order, so
    [length unvisited] turns are enough.  The array [route] is filled and
    never read. *)
Fixpoint visitLoop (fuel : nat) (orders : OrderHeap)
    (currentPosition : Point.t) (unvisited : list oref) (totalDistance : R)
  : R * Point.t :=
  match fuel, unvisited with
  | S fuel', u0 :: rest =>
      let nearestIndex :=
        nearestLoop orders currentPosition rest 1 0
          (calculateDistance currentPosition (Order.location (orders u0))) in
      let nearestOrder := nth nearestIndex unvisited u0 in
      visitLoop fuel' orders (Order.location (orders nearestOrder))
                (splice1 nearestIndex unvisited)
                (totalDistance
                 + calculateDistance currentPosition
                                     (Order.location (orders nearestOrder)))
  | _, _ => (totalDistance, currentPosition)
  end.

Definition calculateGroupDistance (orders : OrderHeap) (group : list oref)
    (basePosition : Point.t) : R :=
  match group with
  | [] => 0
  | _ :: _ =>
      let '(totalDistance, currentPosition) :=
        visitLoop (List.length group) orders basePosition group 0 in
      totalDistance + calculateDistance currentPosition basePosition
  end.

(** The loop [for (let i = unassigned.length - 1; i >= 0; i--)] of
    [createOptimalGroups], with [n = i + 1]; it returns [group] and
    [unassigned].  Reading the weight of [unassigned[i]] throws when [i] is
    outside the array.  [lastPosition] and the two distances computed from
    it are never read. *)
Fixpoint candidateLoop (orders : OrderHeap) (maxCapacity maxRange : option R)
    (basePosition : Point.t) (n : nat) (unassigned : list oref)
    (group : list oref) (currentWeight : R)
  : Exc (list oref * list oref) :=
  match n with
  | O => OK (group, unassigned)
  | S i =>
      match nth_error unassigned i with
      | None => TypeError
      | Some candidateOrder =>
          let newWeight := currentWeight + Order.weight (orders candidateOrder) in
          if exceeds newWeight maxCapacity
          then candidateLoop orders maxCapacity maxRange basePosition i
                             unassigned group currentWeight
          else
            let totalGroupDistance :=
              calculateGroupDistance orders (group ++ [candidateOrder])
                                     basePosition in
            if exceeds totalGroupDistance maxRange
            then candidateLoop orders maxCapacity maxRange basePosition i
                               unassigned group currentWeight
            else candidateLoop orders maxCapacity maxRange basePosition i
                               (splice1 i unassigned)
                               (group ++ [candidateOrder]) newWeight
      end
  end.

(** The loop [while (unassigned.length > 0)]; every turn shifts one order
    out of [unassigned], so [length unassigned] turns are enough. *)
Fixpoint groupsLoop (fuel : nat) (orders : OrderHeap)
    (maxCapacity maxRange : option R) (unassigned : list oref)
    (groups : list (list oref)) : Exc (list (list oref)) :=
  match fuel, unassigned with
  | S fuel', firstOrder :: rest =>
      r <- candidateLoop orders maxCapacity maxRange (Point.mk 10 10)
                         (List.length rest) rest [firstOrder]
                         (0 + Order.weight (orders firstOrder)) ;;
      groupsLoop fuel' orders maxCapacity maxRange (snd r) (groups ++ [fst r])
  | _, _ => OK groups
  end.

Definition createOptimalGroups (s : Store.t) (orders : list oref)
    (drones : list dref) : Exc (list (list oref)) :=
  let maxCapacity :=
    math_max (map (fun d => Drone.capacity (Store.drones s d)) drones) in
  let maxRange :=
    math_max (map (fun d => Drone.range (Store.drones s d)) drones) in
  groupsLoop (List.length orders) (Store.orders s) maxCapacity maxRange
             orders [].

(** [group.reduce((sum, order) => sum + order.weight, 0)] *)
Definition totalWeight (orders : OrderHeap) (group : list oref) : R :=
  fold_left (fun sum order => sum + Order.weight (orders order)) group 0.

(** The loop [for (const drone of drones)] of [findBestDroneForGroup]. *)
Fixpoint bestDroneLoop (s : Store.t) (group : list oref) (drones : list dref)
    (bestDrone : option dref) (bestScore : R) : option dref :=
  match drones with
  | [] => bestDrone
  | drone :: rest =>
      if negb (OptimizationAlgorithm.is_idle s drone)
      then bestDroneLoop s group rest bestDrone bestScore
      else
        let totalWeight := totalWeight (Store.orders s) group in
        if Rltb (Drone.capacity (Store.drones s drone))
                (Drone.currentLoad (Store.drones s drone) + totalWeight)
        then bestDroneLoop s group rest bestDrone bestScore
        else
          let totalDistance :=
            calculateGroupDistance (Store.orders s) group (Point.mk 10 10) in
          if Rltb (Drone.range (Store.drones s drone)) totalDistance
          then bestDroneLoop s group rest bestDrone bestScore
          else
            let avgDistance := totalDistance / INR (List.length group) in
            let capacityUtilization :=
              (Drone.currentLoad (Store.drones s drone) + totalWeight)
              / Drone.capacity (Store.drones s drone) in
            let score := capacityUtilization / (avgDistance + 1) in
            if Rlt_dec bestScore score
            then bestDroneLoop s group rest (Some drone) score
            else bestDroneLoop s group rest bestDrone bestScore
  end.

Definition findBestDroneForGroup (s : Store.t) (group : list oref)
    (drones : list dref) : option dref :=
  bestDroneLoop s group drones None (-1).

(** The loop [for (const order of group)] of [assignGroupsToDrones], which
    breaks at the first order that the drone refuses; it returns
    [groupAssigned]. *)
Fixpoint assignGroupLoop (s : Store.t) (bestDrone : dref) (group : list oref)
  : bool * Store.t :=
  match group with
  | [] => (true, s)
  | order :: rest =>
      let '(ok, s') := callAssignOrder s bestDrone order in
      if ok then assignGroupLoop s' bestDrone rest else (false, s')
  end.

(** The counters of [assignGroupsToDrones], with [this.totalTrips]. *)
Record Counters := mkCounters {
  assignedGroups : nat;
  assignedOrders : nat;
  totalTrips : nat
}.

(** The loop [for (const group of sortedGroups)]. *)
Fixpoint groupsAssignLoop (s : Store.t) (drones : list dref)
    (sortedGroups : list (list oref)) (c : Counters) : Store.t * Counters :=
  match sortedGroups with
  | [] => (s, c)
  | group :: rest =>
      match findBestDroneForGroup s group drones with
      | Some bestDrone =>
          let '(groupAssigned, s') := assignGroupLoop s bestDrone group in
          if groupAssigned
          then groupsAssignLoop s' drones rest
                 (mkCounters (S (assignedGroups c))
                             (assignedOrders c + List.length group)
                             (S (totalTrips c)))
          else groupsAssignLoop s' drones rest c
      | None => groupsAssignLoop s drones rest c
      end
  end.

(** [Math.max(...group.map(o => o.getPriorityScore()))] *)
Definition maxPriority (orders : OrderHeap) (group : list oref) : option R :=
  math_max (map (fun o => Order.getPriorityScore (orders o)) group).

(** [bMaxPriority - aMaxPriority], of which the sort reads the sign: a
    difference with one [-Infinity] keeps the sign of its finite side, and
    the difference of two is [NaN], which the sort takes as 0. *)
Definition byMaxPriority (orders : OrderHeap) (a b : list oref) : R :=
  match maxPriority orders b, maxPriority orders a with
  | Some bMaxPriority, Some aMaxPriority => bMaxPriority - aMaxPriority
  | Some _, None => 1
  | None, Some _ => -1
  | None, None => 0
  end.

(** [assignGroupsToDrones(groups, drones)], called with [this.totalTrips]
    at [totalTrips]; it returns the report, the store and [this.totalTrips]
    afterwards. *)
Definition assignGroupsToDrones (s : Store.t) (groups : list (list oref))
    (drones : list dref) (totalTrips : nat) : Report.t * Store.t * nat :=
  let totalOrders :=
    fold_left (fun totalOrders group => (totalOrders + List.length group)%nat)
              groups 0%nat in
  let sortedGroups := js_sort (byMaxPriority (Store.orders s)) groups in
  let '(s', c) :=
    groupsAssignLoop s drones sortedGroups (mkCounters 0 0 totalTrips) in
  (Report.mk
     (Nat.ltb 0 (assignedOrders c))
     (nat_to_string (assignedOrders c) ++ " de " ++ nat_to_string totalOrders
      ++ " pedidos atribuídos em " ++ nat_to_string (assignedGroups c)
      ++ " viagens")%string
     (assignedOrders c) totalOrders (assignedGroups c)
     (if Nat.ltb 0 totalOrders
      then js_round (INR (assignedOrders c) / INR totalOrders * 100)
      else 0),
   s', DeliveryController.totalTrips c).

Definition performAdvancedOptimization (now : R) (s : Store.t)
    (orders : list oref) (drones : list dref) (totalTrips : nat)
  : Exc (Report.t * Store.t * nat) :=
  let sortedOrders := prioritizeOrders now s orders in
  orderGroups <- createOptimalGroups s sortedOrders drones ;;
  OK (assignGroupsToDrones s orderGroups drones totalTrips).

(** [optimizeDeliveries()], with both controllers initialised:
    [window.orderController.orders] is the list [orders] and
    [window.droneController.drones] the list [drones].  It returns either a
    refusal, which is a message, or the report of the optimisation. *)
Definition optimizeDeliveries (now : R) (s : Store.t) (orders : list oref)
    (drones : list dref) (totalTrips : nat)
  : Exc ((string + Report.t) * Store.t * nat) :=
  let pendingOrders := OrderController.getPendingOrders s orders in
  let availableDrones := DroneController.getAvailableDrones s drones in
  if Nat.eqb (List.length pendingOrders) 0
  then OK (inl "Nenhum pedido pendente para otimizar"%string, s, totalTrips)
  else if Nat.eqb (List.length availableDrones) 0
  then OK (inl "Nenhum drone disponível"%string, s, totalTrips)
  else
    r <- performAdvancedOptimization now s pendingOrders availableDrones
                                     totalTrips ;;
    OK (inr (fst (fst r)), snd (fst r), snd r).

End DeliveryController.

(** * What the properties are stated with *)

(** ** Runs of successful assignments *)

(** The store after a successful [drone.assignOrder(order)]. *)
Definition assignStore (s : Store.t) (d : dref) (o : oref) : Store.t :=
  Store.mk
    (upd (Store.orders s) o
         (Order.set_assigned (Store.orders s o) (Drone.id (Store.drones s d))))
    (upd (Store.drones s) d
         (Drone.push_order (Store.drones s d) o
                           (Order.weight (Store.orders s o)))).

Inductive run : Store.t -> list oref -> Store.t -> Prop :=
| run_nil s : run s [] s
| run_cons s d o s1 l s2 :
    callAssignOrder s d o = (true, s1) -> run s1 l s2 -> run s (o :: l) s2.

#[local] Hint Constructors run : core.

(** A property kept by every successful assignment. *)
Definition stepClosed (I : Store.t -> Prop) : Prop :=
  forall s d o s', I s -> callAssignOrder s d o = (true, s') -> I s'.

(** ** The invariants of the store *)

(** [sum(weight of l)] *)
Fixpoint sumWeights (s : Store.t) (l : list oref) : R :=
  match l with
  | [] => 0
  | o :: l' => Order.weight (Store.orders s o) + sumWeights s l'
  end.

(** For every drone, [currentLoad] is the sum of the weights of
    [assignedOrders] and does not exceed [capacity]. *)
Definition loadInvariant (s : Store.t) : Prop :=
  forall d,
    Drone.currentLoad (Store.drones s d)
    = sumWeights s (Drone.assignedOrders (Store.drones s d))
    /\ sumWeights s (Drone.assignedOrders (Store.drones s d))
       <= Drone.capacity (Store.drones s d).

(** The orders and the drones agree on who carries what: no drone lists an
    order twice, no two drones list the same order, a listed order is
    assigned and names its drone, and an assigned order is listed. *)
Definition assignmentInvariant (s : Store.t) : Prop :=
  (forall d, NoDup (Drone.assignedOrders (Store.drones s d)))
  /\ (forall d1 d2 o,
         In o (Drone.assignedOrders (Store.drones s d1)) ->
         In o (Drone.assignedOrders (Store.drones s d2)) -> d1 = d2)
  /\ (forall d o,
         In o (Drone.assignedOrders (Store.drones s d)) ->
         Order.status (Store.orders s o) = assigned
         /\ Order.assignedDrone (Store.orders s o)
            = Some (Drone.id (Store.drones s d)))
  /\ (forall o,
         Order.status (Store.orders s o) = assigned ->
         exists d, In o (Drone.assignedOrders (Store.drones s d))).

(** Every assigned order is in the list of exactly one drone, once, and
    its [assignedDrone] is the id of that drone. *)
Definition assignedExactlyOnce (s : Store.t) : Prop :=
  forall o,
    Order.status (Store.orders s o) = assigned ->
    exists d,
      count_occ Nat.eq_dec (Drone.assignedOrders (Store.drones s d)) o = 1%nat
      /\ Order.assignedDrone (Store.orders s o)
         = Some (Drone.id (Store.drones s d))
      /\ forall d',
           In o (Drone.assignedOrders (Store.drones s d')) -> d' = d.

(** ** The measure that bounds 2-opt *)

(** All the arrays of [n] elements taken from [alphabet]: the routes that
    2-opt can reach from a route of [n] points are among them. *)
Fixpoint words {A : Type} (alphabet : list A) (n : nat) : list (list A) :=
  match n with
  | O => [[]]
  | S n' => flat_map (fun a => map (cons a) (words alphabet n')) alphabet
  end.

(** How many candidate routes are strictly shorter than [d]. *)
Definition shorterRoutes (alphabet : list Point.t) (n : nat) (d : R) : nat :=
  List.length
    (filter (fun p => Rltb (OptimizationAlgorithm.calculateRouteDistance p) d)
            (words alphabet n)).

(** What one scan of the pairs keeps: the best route is either the one it
    started from, untouched, or a strictly shorter rearrangement. *)
Definition scanInvariant (route : list Point.t)
    (st0 st : list Point.t * R * bool) : Prop :=
  (snd st = false /\ st = st0)
  \/ (snd st = true
      /\ OptimizationAlgorithm.calculateRouteDistance (fst (fst st))
         = snd (fst st)
      /\ snd (fst st) < snd (fst st0)
      /\ List.length (fst (fst st)) = List.length route
      /\ incl (fst (fst st)) route).

(** ** The score of the spec's route builder *)

(** The score of the spec: the distance to an order weighted by its
    priority. *)
Definition weightedDistance (s : Store.t) (from : Point.t) (o : oref) : R :=
  Drone.calculateDistance from (Order.location (Store.orders s o))
  * Drone.priorityWeight (Order.priority (Store.orders s o)).

(** ** Stores used as examples *)

(** Six orders for one address. *)
Definition sameSpot : Store.t :=
  Store.mk (fun r => Order.new 0 "ORDER" (Point.mk 5 5) 1 baixa)
           (fun d => Drone.new "DRONE" 5 10).

(** One order in the west, two in the east. *)
Definition westEast : Store.t :=
  Store.mk (fun r => match r with
                     | O => Order.new 0 "ORDER-1" (Point.mk 0 0) 1 baixa
                     | _ => Order.new 0 "ORDER-2" (Point.mk 20 0) 1 baixa
                     end)
           (fun d => Drone.new "DRONE" 5 10).

Definition drawsWestFirst (i : nat) : R :=
  match i with O => 0 | _ => 0.5 end.

Definition drawsEastFirst (i : nat) : R :=
  match i with O => 0.5 | _ => 0 end.

(** One new drone (capacity 5, range 10) at the base (10, 10); one order
    five units east of the base and one five units west, each of 1 kg. *)
Definition eastWest : Store.t :=
  Store.mk (fun r => match r with
                     | O => Order.new 0 "ORDER-1" (Point.mk 15 10) 1 baixa
                     | _ => Order.new 0 "ORDER-2" (Point.mk 5 10) 1 baixa
                     end)
           (fun d => Drone.new "DRONE-1" 5 10).

(** [eastWest] once the drone has been given both orders. *)
Definition eastWestAssigned : Store.t :=
  assignStore (assignStore eastWest 0%nat 0%nat) 0%nat 1%nat.

(** One new drone (capacity 5, range 20) at the base (10, 10); a
    high-priority order ten units east and a low-priority order eight units
    north. *)
Definition highFarLowNear : Store.t :=
  Store.mk (fun r => match r with
                     | O => Order.new 0 "ORDER-1" (Point.mk 20 10) 1 alta
                     | _ => Order.new 0 "ORDER-2" (Point.mk 10 18) 1 baixa
                     end)
           (fun d => Drone.new "DRONE-1" 5 20).

(** One new drone (capacity 5, range 10) at the base (10, 10); two orders
    north of the base, three and two units away. *)
Definition nearTwo : Store.t :=
  Store.mk (fun r => match r with
                     | O => Order.new 0 "ORDER-1" (Point.mk 10 13) 1 alta
                     | _ => Order.new 0 "ORDER-2" (Point.mk 10 12) 2 baixa
                     end)
           (fun d => Drone.new "DRONE-1" 5 10).

(** One new drone (capacity 5, range 10) at the base (10, 10); north of
    the base an order of 6 kg, which it cannot lift, and one of 1 kg. *)
Definition tooHeavy : Store.t :=
  Store.mk (fun r => match r with
                     | O => Order.new 0 "ORDER-1" (Point.mk 10 13) 6 baixa
                     | _ => Order.new 0 "ORDER-2" (Point.mk 10 12) 1 baixa
                     end)
           (fun d => Drone.new "DRONE-1" 5 10).


(** ** The orders in which the engine sorts *)

(** [a] may stand before [b]: its priority is at least as high. *)
Definition byPriority (orders : OrderHeap) (a b : oref) : Prop :=
  Drone.priorityOrder (Order.priority (orders b))
  <= Drone.priorityOrder (Order.priority (orders a)).

(** [a] may stand before [b]: its priority is higher, or it is the same and
    [a] has waited at least as long. *)
Definition byPriorityThenWaiting (now : R) (orders : OrderHeap) (a b : oref)
  : Prop :=
  OptimizationAlgorithm.priorityScores (Order.priority (orders b))
  < OptimizationAlgorithm.priorityScores (Order.priority (orders a))
  \/ (OptimizationAlgorithm.priorityScores (Order.priority (orders b))
      = OptimizationAlgorithm.priorityScores (Order.priority (orders a))
      /\ Order.getWaitingTime now (orders b)
         <= Order.getWaitingTime now (orders a)).

(** What [optimizeRoute] leaves alone in the drone. *)
Definition sameDroneBut (a b : Drone.t) : Prop :=
  Drone.id b = Drone.id a /\ Drone.capacity b = Drone.capacity a
  /\ Drone.range b = Drone.range a
  /\ Drone.currentLoad b = Drone.currentLoad a
  /\ Drone.battery b = Drone.battery a
  /\ Drone.position b = Drone.position a /\ Drone.status b = Drone.status a
  /\ Drone.totalDistance b = Drone.totalDistance a
  /\ Drone.deliveriesCount b = Drone.deliveriesCount a
  /\ Drone.basePosition b = Drone.basePosition a
  /\ Drone.currentRouteIndex b = Drone.currentRouteIndex a
  /\ Drone.speed b = Drone.speed a.

(** Two routes with the same stops, the same first stop and the same last
    stop. *)
Definition sameStops (a b : list Point.t) : Prop :=
  Permutation a b
  /\ hd_error a = hd_error b
  /\ hd_error (rev a) = hd_error (rev b).

(** The drones outside [D] are the same in both stores. *)
Definition dronesOutside (D : list dref) (s s' : Store.t) : Prop :=
  forall d, ~ In d D -> Store.drones s' d = Store.drones s d.

(** The orders of the delivery stops of a route. *)
Fixpoint deliveries (stops : list RouteStop.t) : list oref :=
  match stops with
  | [] => []
  | st :: rest =>
      match RouteStop.type st, RouteStop.order st with
      | delivery, Some o => o :: deliveries rest
      | _, _ => deliveries rest
      end
  end.

(** What a flight leaves alone in the drone until it lands. *)
Definition flightFrame (a b : Drone.t) : Prop :=
  Drone.id b = Drone.id a /\ Drone.capacity b = Drone.capacity a
  /\ Drone.range b = Drone.range a
  /\ Drone.currentRoute b = Drone.currentRoute a
  /\ Drone.totalDistance b = Drone.totalDistance a
  /\ Drone.basePosition b = Drone.basePosition a
  /\ Drone.speed b = Drone.speed a.

(** * Properties of the feasibility model *)

Lemma Rleb_true_iff (a b : R) : Rleb a b = true <-> a <= b.
Proof.
  unfold Rleb. destruct (Rle_dec a b); split; intros; try easy.
Qed.

Lemma Rltb_true_iff (a b : R) : Rltb a b = true <-> a < b.
Proof.
  unfold Rltb. destruct (Rlt_dec a b); split; intros; try easy.
Qed.

Lemma Rleb_false_iff (a b : R) : Rleb a b = false <-> b < a.
Proof.
  unfold Rleb. destruct (Rle_dec a b); split; intros; try easy; lra.
Qed.

Lemma Rltb_false_iff (a b : R) : Rltb a b = false <-> b <= a.
Proof.
  unfold Rltb. destruct (Rlt_dec a b); split; intros; try easy; lra.
Qed.

(** C3. [canCarryOrder] answers true exactly when the load fits the capacity,
    the round trip position -> order -> base fits the range, and the battery
    covers [min(100, 5 * round trip)].  It is a function of the two objects
    to a boolean: it returns no new contents for either, so it changes
    nothing. *)
Theorem canCarryOrder_iff (this : Drone.t) (order : Order.t) :
  let roundTrip :=
    Drone.calculateDistance (Drone.position this) (Order.location order)
    + Drone.calculateDistance (Order.location order) (Drone.basePosition this) in
  Drone.canCarryOrder this order = true <->
  (Drone.currentLoad this + Order.weight order <= Drone.capacity this
   /\ roundTrip <= Drone.range this
   /\ Drone.battery this >= Rmin 100 (roundTrip * 5)).
Proof.
  intros roundTrip. unfold Drone.canCarryOrder, Drone.calculateBatteryNeeded.
  fold roundTrip.
  rewrite !andb_true_iff, !Rleb_true_iff.
  split.
  - intros [[Hload Hrange] Hbat]. repeat split; auto using Rle_ge.
  - intros (Hload & Hrange & Hbat). repeat split; auto using Rge_le.
Qed.

(** * Properties of [assignOrder] *)

(** C10. [assignOrder] is all or nothing.  When [canCarryOrder] is false it
    returns false and both objects keep their contents.  When it is true it
    returns true, appends the order to [assignedOrders], adds the weight to
    [currentLoad], sets the order's [status] to assigned and its
    [assignedDrone] to the drone's id, and changes no other field. *)
Theorem assignOrder_atomic (this : Drone.t) (r : oref) (order : Order.t) :
  (Drone.canCarryOrder this order = false ->
   Drone.assignOrder this r order = (false, this, order))
  /\ (Drone.canCarryOrder this order = true ->
      exists this' order',
        Drone.assignOrder this r order = (true, this', order')
        /\ Drone.assignedOrders this' = Drone.assignedOrders this ++ [r]
        /\ Drone.currentLoad this' = Drone.currentLoad this + Order.weight order
        /\ Order.status order' = assigned
        /\ Order.assignedDrone order' = Some (Drone.id this)
        /\ sameDroneFrame this this'
        /\ sameOrderFrame order order').
Proof.
  unfold Drone.assignOrder. split; intros Hc; rewrite Hc.
  - reflexivity.
  - eexists; eexists. split; [reflexivity|].
    unfold sameDroneFrame, sameOrderFrame. cbn. intuition reflexivity.
Qed.

Lemma callAssignOrder_true (s s' : Store.t) (d : dref) (o : oref) :
  callAssignOrder s d o = (true, s') ->
  Drone.canCarryOrder (Store.drones s d) (Store.orders s o) = true
  /\ s' = Store.mk
            (upd (Store.orders s) o
                 (Order.set_assigned (Store.orders s o)
                                     (Drone.id (Store.drones s d))))
            (upd (Store.drones s) d
                 (Drone.push_order (Store.drones s d) o
                                   (Order.weight (Store.orders s o)))).
Proof.
  unfold callAssignOrder, Drone.assignOrder.
  destruct (Drone.canCarryOrder (Store.drones s d) (Store.orders s o));
    intros H; inversion H; auto.
Qed.

Lemma callAssignOrder_false (s s' : Store.t) (d : dref) (o : oref) :
  callAssignOrder s d o = (false, s') -> s' = s.
Proof.
  unfold callAssignOrder, Drone.assignOrder.
  destruct (Drone.canCarryOrder (Store.drones s d) (Store.orders s o));
    intros H; inversion H; auto.
Qed.

Lemma callAssignOrder_can (s : Store.t) (d : dref) (o : oref) :
  Drone.canCarryOrder (Store.drones s d) (Store.orders s o) = true ->
  exists s', callAssignOrder s d o = (true, s').
Proof.
  intros H. unfold callAssignOrder, Drone.assignOrder. rewrite H.
  eexists; reflexivity.
Qed.

Lemma upd_same {A : Type} (f : nat -> A) (k : nat) (v : A) : upd f k v k = v.
Proof. unfold upd. now rewrite Nat.eqb_refl. Qed.

Lemma upd_other {A : Type} (f : nat -> A) (k k' : nat) (v : A) :
  k' <> k -> upd f k v k' = f k'.
Proof. intros H. unfold upd. apply Nat.eqb_neq in H. now rewrite H. Qed.

(** ** Runs of successful assignments

Every strategy changes the store only through successful calls of
    [assignOrder]; [run s l s'] says that [s'] is reached from [s] by such
    calls, for the orders [l] in turn. *)

Lemma run_app s l1 s1 l2 s2 :
  run s l1 s1 -> run s1 l2 s2 -> run s (l1 ++ l2) s2.
Proof. induction 1; cbn; eauto. Qed.

Lemma run_one s d o s1 :
  callAssignOrder s d o = (true, s1) -> run s [o] s1.
Proof. eauto. Qed.

Lemma run_stepClosed (I : Store.t -> Prop) s l s' :
  stepClosed I -> run s l s' -> I s -> I s'.
Proof. intros HI. induction 1; eauto. Qed.

Lemma step_orders_frame s d o s' o' :
  callAssignOrder s d o = (true, s') -> o' <> o ->
  Store.orders s' o' = Store.orders s o'.
Proof.
  intros H Hne. apply callAssignOrder_true in H as [_ ->]. cbn.
  now apply upd_other.
Qed.

Lemma step_order_static s d o s' o' :
  callAssignOrder s d o = (true, s') ->
  sameOrderFrame (Store.orders s o') (Store.orders s' o').
Proof.
  intros H. apply callAssignOrder_true in H as [_ ->]. cbn.
  unfold upd. destruct (Nat.eqb o' o) eqn:E.
  - apply Nat.eqb_eq in E as ->. unfold sameOrderFrame. cbn. intuition.
  - unfold sameOrderFrame. intuition.
Qed.

Lemma run_orders_frame s l s' o :
  run s l s' -> ~ In o l -> Store.orders s' o = Store.orders s o.
Proof.
  induction 1; intros Hn; [reflexivity|].
  rewrite IHrun by (intros Hin; apply Hn; now right).
  eapply step_orders_frame; eauto. intros ->. apply Hn. now left.
Qed.

Lemma run_order_static s l s' o :
  run s l s' -> sameOrderFrame (Store.orders s o) (Store.orders s' o).
Proof.
  induction 1.
  - unfold sameOrderFrame; intuition.
  - pose proof (step_order_static _ _ _ _ o H) as H1.
    unfold sameOrderFrame in *. intuition congruence.
Qed.

Lemma step_status s d o s' :
  callAssignOrder s d o = (true, s') ->
  Order.status (Store.orders s' o) = assigned.
Proof.
  intros H. apply callAssignOrder_true in H as [_ ->]. cbn.
  now rewrite upd_same.
Qed.

Lemma is_pending_iff s o :
  OptimizationAlgorithm.is_pending s o = true
  <-> Order.status (Store.orders s o) = pending.
Proof.
  unfold OptimizationAlgorithm.is_pending.
  destruct (Order.status (Store.orders s o)); cbn; split; congruence.
Qed.

(** The orders of a run are distinct and were pending when it started, as
    soon as each was pending when its turn came. *)
Lemma run_cons_pending s d o s1 l s2 :
  Order.status (Store.orders s o) = pending ->
  callAssignOrder s d o = (true, s1) ->
  run s1 l s2 ->
  NoDup l ->
  (forall o', In o' l -> Order.status (Store.orders s1 o') = pending) ->
  NoDup (o :: l)
  /\ (forall o', In o' (o :: l) -> Order.status (Store.orders s o') = pending).
Proof.
  intros Hp Hstep Hrun Hnd Hall.
  assert (Hnotin : ~ In o l).
  { intros Hin. apply Hall in Hin. rewrite (step_status _ _ _ _ Hstep) in Hin.
    discriminate. }
  split; [now constructor|].
  intros o' [<-|Hin]; [assumption|].
  rewrite <- (step_orders_frame _ _ _ _ o' Hstep); auto.
  intros ->. contradiction.
Qed.

Lemma greedyLoop_run availableDrones orders s a c s' a' c' :
  OptimizationAlgorithm.greedyLoop availableDrones orders s a c = (s', a', c') ->
  exists l, run s l s' /\ incl l orders /\ NoDup l
            /\ (forall o, In o l -> Order.status (Store.orders s o) = pending).
Proof.
  revert s a c. induction orders as [|order rest IH]; intros s a c; cbn.
  - intros H. inversion H; subst. exists []. repeat split; auto.
    + apply incl_refl.
    + constructor.
    + intros o [].
  - destruct (negb (OrderStatus_eqb (Order.status (Store.orders s order)) pending))
      eqn:Hst.
    { intros H. apply IH in H as (l & Hr & Hi & Hn & Hp).
      exists l. repeat split; auto. now apply incl_tl. }
    assert (Hpend : Order.status (Store.orders s order) = pending).
    { apply negb_false_iff in Hst. now apply is_pending_iff. }
    destruct (OptimizationAlgorithm.bestDroneLoop s order availableDrones None (-1))
      as [bestDrone|].
    2:{ intros H. apply IH in H as (l & Hr & Hi & Hn & Hp).
        exists l. repeat split; auto. now apply incl_tl. }
    destruct (callAssignOrder s bestDrone order) as [ok s1] eqn:Hcall.
    destruct ok.
    + intros H. apply IH in H as (l & Hr & Hi & Hn & Hp).
      destruct (run_cons_pending _ _ _ _ _ _ Hpend Hcall Hr Hn Hp) as [Hn' Hp'].
      exists (order :: l). repeat split; eauto.
      intros o [<-|Hin]; [now left | right; now apply Hi].
    + apply callAssignOrder_false in Hcall as ->.
      intros H. apply IH in H as (l & Hr & Hi & Hn & Hp).
      exists l. repeat split; auto. now apply incl_tl.
Qed.

Lemma greedyAssignment_run s orders drones res s' :
  OptimizationAlgorithm.greedyAssignment s orders drones = (res, s') ->
  exists l, run s l s' /\ incl l orders /\ NoDup l
            /\ (forall o, In o l -> Order.status (Store.orders s o) = pending).
Proof.
  unfold OptimizationAlgorithm.greedyAssignment.
  destruct (OptimizationAlgorithm.greedyLoop _ orders s [] 0) as [[s1 a1] c1] eqn:H.
  intros E; inversion E; subst. eapply greedyLoop_run; eauto.
Qed.

(** [sort] permutes. *)
Lemma sort_insert_perm {A : Type} (cmp : A -> A -> R) (a : A) (l : list A) :
  Permutation (sort_insert cmp a l) (a :: l).
Proof.
  induction l as [|b l IH]; cbn; [reflexivity|].
  destruct (Rle_dec (cmp a b) 0); [reflexivity|].
  rewrite IH. apply perm_swap.
Qed.

Lemma js_sort_perm {A : Type} (cmp : A -> A -> R) (l : list A) :
  Permutation (js_sort cmp l) l.
Proof.
  induction l as [|a l IH]; cbn; [reflexivity|].
  rewrite sort_insert_perm. now constructor.
Qed.

Lemma js_sort_incl {A : Type} (cmp : A -> A -> R) (l : list A) :
  incl (js_sort cmp l) l.
Proof.
  intros a Ha. eapply Permutation_in; [apply js_sort_perm|exact Ha].
Qed.

Lemma priorityFirstOptimization_run now s orders drones res s' :
  OptimizationAlgorithm.priorityFirstOptimization now s orders drones = (res, s') ->
  exists l, run s l s' /\ incl l orders /\ NoDup l
            /\ (forall o, In o l -> Order.status (Store.orders s o) = pending).
Proof.
  unfold OptimizationAlgorithm.priorityFirstOptimization. intros H.
  apply greedyAssignment_run in H as (l & Hr & Hi & Hn & Hp).
  exists l. repeat split; auto.
  eapply incl_tran; [exact Hi|apply js_sort_incl].
Qed.

Lemma balancedOptimization_run now s orders drones res s' :
  OptimizationAlgorithm.balancedOptimization now s orders drones = (res, s') ->
  exists l, run s l s' /\ incl l orders /\ NoDup l
            /\ (forall o, In o l -> Order.status (Store.orders s o) = pending).
Proof.
  unfold OptimizationAlgorithm.balancedOptimization. intros H.
  apply greedyAssignment_run in H as (l & Hr & Hi & Hn & Hp).
  exists l. repeat split; auto.
  intros o Ho. apply Hi in Ho. apply in_map_iff in Ho as ((o1 & sc) & <- & Hin).
  apply js_sort_incl in Hin. apply in_map_iff in Hin as (o2 & E & Hin).
  inversion E; subst. exact Hin.
Qed.

(** ** Lists: [indexOf], [splice], [set_nth] *)

Lemma indexOf_Some (r : nat) (l : list nat) (i : nat) :
  indexOf r l = Some i -> l = firstn i l ++ r :: skipn (S i) l.
Proof.
  revert i. induction l as [|a l IH]; cbn; intros i H; [discriminate|].
  destruct (Nat.eqb a r) eqn:E.
  - inversion H; subst. apply Nat.eqb_eq in E as ->. reflexivity.
  - destruct (indexOf r l) as [j|]; [|discriminate]. inversion H; subst.
    cbn. f_equal. now apply IH.
Qed.

Lemma indexOf_None (r : nat) (l : list nat) : indexOf r l = None -> ~ In r l.
Proof.
  induction l as [|a l IH]; cbn; intros H; [tauto|].
  destruct (Nat.eqb a r) eqn:E; [discriminate|].
  destruct (indexOf r l); [discriminate|].
  apply Nat.eqb_neq in E. intros [?|?]; [contradiction|]. now apply IH.
Qed.

Lemma removelast_incl {A : Type} (l : list A) : incl (removelast l) l.
Proof.
  induction l as [|a l IH]; [apply incl_refl|].
  destruct l as [|b l]; cbn; [intros ? []|].
  intros c [<-|Hc]; [now left|right; now apply IH].
Qed.

Lemma removelast_NoDup {A : Type} (l : list A) : NoDup l -> NoDup (removelast l).
Proof.
  induction l as [|a l IH]; intros H; [constructor|].
  destruct l as [|b l]; [constructor|].
  inversion H; subst. change (NoDup (a :: removelast (b :: l))).
  constructor; auto. intros Hin. now apply removelast_incl in Hin.
Qed.

Lemma spliceIndexOf_incl (o : nat) (p : list nat) :
  incl (OptimizationAlgorithm.spliceIndexOf o p) p.
Proof.
  unfold OptimizationAlgorithm.spliceIndexOf, splice1.
  destruct (indexOf o p) as [i|] eqn:E; [|apply removelast_incl].
  intros a Ha. apply in_app_or in Ha as [Ha|Ha].
  - rewrite <- (firstn_skipn i p). apply in_or_app. now left.
  - rewrite <- (firstn_skipn (S i) p). apply in_or_app. now right.
Qed.

Lemma spliceIndexOf_NoDup (o : nat) (p : list nat) :
  NoDup p ->
  NoDup (OptimizationAlgorithm.spliceIndexOf o p)
  /\ ~ In o (OptimizationAlgorithm.spliceIndexOf o p).
Proof.
  intros Hnd. unfold OptimizationAlgorithm.spliceIndexOf, splice1.
  destruct (indexOf o p) as [i|] eqn:E.
  - apply indexOf_Some in E. rewrite E in Hnd.
    split; [eapply NoDup_remove_1|eapply NoDup_remove_2]; eauto.
  - apply indexOf_None in E. split; [now apply removelast_NoDup|].
    intros Hin. now apply removelast_incl in Hin.
Qed.

(** ** Capacity optimization is a run *)

Lemma fillLoop_incl s rem comb cap :
  incl (OptimizationAlgorithm.fillLoop s rem comb cap) (comb ++ rem)
  /\ (NoDup (comb ++ rem) ->
      NoDup (OptimizationAlgorithm.fillLoop s rem comb cap)).
Proof.
  revert comb cap. induction rem as [|o rest IH]; intros comb cap; cbn.
  - rewrite app_nil_r. split; [apply incl_refl|auto].
  - destruct (Rle_dec (Order.weight (Store.orders s o)) cap).
    + destruct (IH (comb ++ [o]) (cap - Order.weight (Store.orders s o)))
        as [Hi Hn].
      rewrite <- app_assoc in Hi, Hn. cbn in Hi, Hn. auto.
    + destruct (IH comb cap) as [Hi Hn]. split.
      * intros a Ha. apply Hi in Ha. apply in_app_or in Ha as [?|?];
          apply in_or_app; [now left|right; now right].
      * intros Hnd. apply Hn. eapply NoDup_remove_1; eauto.
Qed.

Lemma findBestOrderCombination_incl now s orders drone :
  incl (OptimizationAlgorithm.findBestOrderCombination now s orders drone) orders
  /\ (NoDup orders ->
      NoDup (OptimizationAlgorithm.findBestOrderCombination now s orders drone)).
Proof.
  unfold OptimizationAlgorithm.findBestOrderCombination.
  set (valid := filter _ orders).
  assert (Hv : incl valid orders) by (apply incl_filter).
  assert (Hvn : NoDup orders -> NoDup valid) by (apply NoDup_filter).
  destruct valid as [|v valid'] eqn:Ev.
  { split; [intros ? []|constructor]. }
  rewrite <- Ev in *. clear Ev v valid'.
  match goal with |- context [OptimizationAlgorithm.fillLoop s ?r [] ?c] =>
    destruct (fillLoop_incl s r [] c) as [Hi Hn] end.
  cbn in Hi, Hn. split.
  - eapply incl_tran; [exact Hi|]. eapply incl_tran; [apply js_sort_incl|exact Hv].
  - intros Hnd. apply Hn. eapply Permutation_NoDup.
    + symmetry. apply js_sort_perm.
    + auto.
Qed.

Lemma assignCombination_run drone comb s pend s' pend' :
  OptimizationAlgorithm.assignCombination drone comb s pend = (s', pend') ->
  exists l, run s l s' /\ incl l comb /\ (NoDup comb -> NoDup l)
            /\ incl pend' pend
            /\ (NoDup pend ->
                NoDup pend' /\ forall o, In o l -> ~ In o pend').
Proof.
  revert s pend. induction comb as [|order rest IH]; intros s pend; cbn.
  - intros H; inversion H; subst. exists []. repeat apply conj; auto.
    + apply incl_refl.
    + apply incl_refl.
  - destruct (callAssignOrder s drone order) as [ok s1] eqn:Hcall.
    destruct ok; intros H; apply IH in H as (l & Hr & Hi & Hn & Hpi & Hpn).
    + exists (order :: l). repeat apply conj.
      * eauto.
      * intros o [<-|Hin]; [now left|right; now apply Hi].
      * intros Hnd. inversion Hnd; subst. constructor; auto.
      * eapply incl_tran; [exact Hpi|apply spliceIndexOf_incl].
      * intros Hnd.
        destruct (spliceIndexOf_NoDup order pend Hnd) as [Hnd1 Hout].
        destruct (Hpn Hnd1) as [Hnd2 Hout2]. split; auto.
        intros o [<-|Hin]; auto.
    + apply callAssignOrder_false in Hcall as ->.
      exists l. repeat apply conj; auto.
      * now apply incl_tl.
      * intros Hnd. inversion Hnd; auto.
Qed.

Lemma capacityLoop_run now availableDrones s pend a s' a' :
  OptimizationAlgorithm.capacityLoop now availableDrones s pend a = (s', a') ->
  exists l, run s l s' /\ incl l pend /\ (NoDup pend -> NoDup l).
Proof.
  revert s pend a. induction availableDrones as [|drone rest IH];
    intros s pend a; cbn.
  - intros H; inversion H; subst. exists []. repeat split; auto.
    + intros ? [].
    + constructor.
  - destruct (findBestOrderCombination_incl now s pend drone) as [Hci Hcn].
    match goal with |- context [if ?c then _ else _] => destruct c end;
      [|apply IH].
    destruct (OptimizationAlgorithm.assignCombination _ _ s pend)
      as [s1 pend1] eqn:Hcomb.
    apply assignCombination_run in Hcomb
      as (l1 & Hr1 & Hi1 & Hn1 & Hpi & Hpn).
    intros H. apply IH in H as (l2 & Hr2 & Hi2 & Hn2).
    exists (l1 ++ l2). repeat split.
    + eapply run_app; eauto.
    + apply incl_app.
      * eapply incl_tran; eauto.
      * eapply incl_tran; eauto.
    + intros Hnd. destruct (Hpn Hnd) as [Hnd1 Hout].
      apply NoDup_app; auto.
      intros o Ho1 Ho2. apply (Hout o Ho1). now apply Hi2.
Qed.

Lemma capacityOptimization_run now s orders drones res s' :
  OptimizationAlgorithm.capacityOptimization now s orders drones = (res, s') ->
  exists l, run s l s' /\ incl l orders /\ (NoDup orders -> NoDup l)
            /\ (forall o, In o l -> Order.status (Store.orders s o) = pending).
Proof.
  unfold OptimizationAlgorithm.capacityOptimization.
  destruct (OptimizationAlgorithm.capacityLoop _ _ s _ []) as [s1 a1] eqn:H.
  intros E; inversion E; subst.
  apply capacityLoop_run in H as (l & Hr & Hi & Hn).
  exists l. repeat split; auto.
  - eapply incl_tran; [exact Hi|apply incl_filter].
  - intros Hnd. apply Hn. now apply NoDup_filter.
  - intros o Ho. apply Hi in Ho. apply filter_In in Ho as [_ Ho].
    now apply is_pending_iff.
Qed.

(** ** Clustering *)

Lemma nearestCentroidLoop_bound location rest i n d :
  (n < i)%nat ->
  (OptimizationAlgorithm.nearestCentroidLoop location rest i n d
   < i + List.length rest)%nat.
Proof.
  revert i n d. induction rest as [|c rest IH]; intros i n d Hn; cbn; [lia|].
  destruct (Rlt_dec _ d).
  - specialize (IH (S i) i (OptimizationAlgorithm.calculateDistance location c)).
    lia.
  - specialize (IH (S i) n d). lia.
Qed.

Lemma nearestCentroidOf_bound location centroids n :
  OptimizationAlgorithm.nearestCentroidOf location centroids = OK n ->
  (n < List.length centroids)%nat.
Proof.
  destruct centroids as [|c0 rest]; cbn; [discriminate|].
  intros H; inversion H; subst.
  pose proof (nearestCentroidLoop_bound location rest 1 0
                (OptimizationAlgorithm.calculateDistance location c0)).
  lia.
Qed.

Lemma nearestCentroidOf_total location centroids :
  centroids <> [] ->
  exists n, OptimizationAlgorithm.nearestCentroidOf location centroids = OK n.
Proof.
  destruct centroids; [congruence|]. intros _. cbn. eauto.
Qed.

Lemma set_nth_length {A : Type} (i : nat) (v : A) (l : list A) :
  List.length (set_nth i v l) = List.length l.
Proof.
  revert i. induction l as [|a l IH]; intros [|i]; cbn; auto.
Qed.

Lemma set_nth_push_concat (i : nat) (o : oref) (c : list oref)
    (clusters : list (list oref)) :
  nth_error clusters i = Some c ->
  Permutation (concat (set_nth i (c ++ [o]) clusters)) (o :: concat clusters).
Proof.
  revert i. induction clusters as [|c0 clusters IH]; intros [|i]; cbn;
    try discriminate.
  - intros H; inversion H; subst. rewrite <- app_assoc. cbn.
    symmetry. apply Permutation_middle.
  - intros H. rewrite (IH _ H). symmetry. apply Permutation_middle.
Qed.

Lemma pushAt_OK i o clusters clusters' :
  OptimizationAlgorithm.pushAt i o clusters = OK clusters' ->
  List.length clusters' = List.length clusters
  /\ Permutation (concat clusters') (o :: concat clusters).
Proof.
  unfold OptimizationAlgorithm.pushAt.
  destruct (nth_error clusters i) as [c|] eqn:E; [|discriminate].
  intros H; inversion H; subst. split.
  - apply set_nth_length.
  - now apply set_nth_push_concat.
Qed.

Lemma pushAt_total i o clusters :
  (i < List.length clusters)%nat ->
  exists clusters', OptimizationAlgorithm.pushAt i o clusters = OK clusters'.
Proof.
  intros H. unfold OptimizationAlgorithm.pushAt.
  destruct (nth_error clusters i) eqn:E; [eauto|].
  apply nth_error_None in E. lia.
Qed.

Lemma assignToClusters_OK s centroids orders clusters clusters' :
  OptimizationAlgorithm.assignToClusters s centroids orders clusters
  = OK clusters' ->
  List.length clusters' = List.length clusters
  /\ Permutation (concat clusters') (orders ++ concat clusters).
Proof.
  revert clusters. induction orders as [|o rest IH]; intros clusters; cbn.
  - intros H; inversion H; subst. split; reflexivity.
  - destruct (OptimizationAlgorithm.nearestCentroidOf _ centroids) as [n|];
      cbn; [|discriminate].
    destruct (OptimizationAlgorithm.pushAt n o clusters) as [c1|] eqn:Hp;
      cbn; [|discriminate].
    apply pushAt_OK in Hp as [Hl Hperm].
    intros H. apply IH in H as [Hl' Hperm']. split; [congruence|].
    rewrite Hperm', Hperm. symmetry. apply Permutation_middle.
Qed.

Lemma assignToClusters_total s centroids orders clusters :
  centroids <> [] ->
  List.length clusters = List.length centroids ->
  exists clusters',
    OptimizationAlgorithm.assignToClusters s centroids orders clusters
    = OK clusters'.
Proof.
  intros Hne. revert clusters.
  induction orders as [|o rest IH]; intros clusters Hl; cbn; [eauto|].
  destruct (nearestCentroidOf_total
              (Order.location (Store.orders s o)) centroids Hne) as [n Hn].
  rewrite Hn. cbn. apply nearestCentroidOf_bound in Hn.
  destruct (pushAt_total n o clusters) as [c1 Hc1]; [lia|].
  rewrite Hc1. cbn. apply IH. apply pushAt_OK in Hc1 as [-> _]. exact Hl.
Qed.

Lemma updateCentroids_total s centroids clusters :
  (List.length centroids <= List.length clusters)%nat ->
  exists centroids',
    OptimizationAlgorithm.updateCentroids s centroids clusters = OK centroids'
    /\ List.length centroids' = List.length centroids.
Proof.
  revert clusters. induction centroids as [|c cs IH]; intros clusters Hl; cbn.
  - eauto.
  - destruct clusters as [|cl cls]; cbn in Hl; [lia|].
    destruct (IH cls) as (cs' & -> & Hlen); [lia|]. cbn.
    eexists; split; [reflexivity|]. cbn. now rewrite Hlen.
Qed.

Lemma Zfloor_draw (r : R) (n : nat) :
  0 <= r < 1 -> (0 < n)%nat ->
  (0 <= Zfloor (r * INR n) < Z.of_nat n)%Z.
Proof.
  intros [H0 H1] Hn.
  assert (Hpos : 0 < INR n) by (apply lt_0_INR; exact Hn).
  split.
  - apply Zfloor_lub. cbn. nra.
  - apply lt_IZR. rewrite <- INR_IZR_INZ.
    pose proof (Zfloor_bound (r * INR n)). nra.
Qed.

Lemma js_index_draw {A : Type} (l : list A) (r : R) :
  0 <= r < 1 -> l <> [] ->
  exists a, js_index l (Zfloor (r * INR (List.length l))) = Some a.
Proof.
  intros Hr Hne.
  assert (Hn : (0 < List.length l)%nat).
  { destruct l; [congruence|cbn; lia]. }
  destruct (Zfloor_draw r _ Hr Hn) as [Hlo Hhi].
  unfold js_index.
  destruct (Z.ltb_spec (Zfloor (r * INR (List.length l))) 0); [lia|].
  destruct (nth_error l (Z.to_nat (Zfloor (r * INR (List.length l))))) eqn:E;
    [eauto|].
  apply nth_error_None in E. lia.
Qed.

Lemma initCentroids_total rnd s orders i n centroids :
  (forall j, 0 <= rnd j < 1) -> orders <> [] ->
  exists centroids',
    OptimizationAlgorithm.initCentroids rnd s orders i n centroids
    = OK centroids'
    /\ List.length centroids' = (List.length centroids + n)%nat.
Proof.
  intros Hr Hne. revert i centroids.
  induction n as [|n IH]; intros i centroids; cbn.
  - eexists; split; [reflexivity|lia].
  - destruct (js_index_draw orders (rnd i) (Hr i) Hne) as [a ->].
    destruct (IH (S i) (centroids ++ [Order.location (Store.orders s a)]))
      as (cs & -> & Hl).
    eexists; split; [reflexivity|]. rewrite Hl, length_app. cbn. lia.
Qed.

Lemma kmeansLoop_total s orders k iterations centroids :
  (0 < k)%nat -> List.length centroids = k ->
  exists centroids',
    OptimizationAlgorithm.kmeansLoop s orders k iterations centroids
    = OK centroids'
    /\ List.length centroids' = k.
Proof.
  intros Hk. revert centroids.
  induction iterations as [|it IH]; intros centroids Hl; cbn; [eauto|].
  assert (Hne : centroids <> []) by (destruct centroids; cbn in *; [lia|congruence]).
  destruct (assignToClusters_total s centroids orders (repeat [] k) Hne)
    as [cl Hcl]; [now rewrite repeat_length|].
  rewrite Hcl. cbn. apply assignToClusters_OK in Hcl as [Hlen _].
  rewrite repeat_length in Hlen.
  destruct (updateCentroids_total s centroids cl) as (cs' & -> & Hl'); [lia|].
  cbn. apply IH. lia.
Qed.

Lemma concat_repeat_nil {A : Type} (k : nat) :
  concat (repeat (@nil A) k) = [].
Proof. induction k; cbn; auto. Qed.

Lemma concat_filter_nonEmpty (clusters : list (list oref)) :
  concat (filter OptimizationAlgorithm.nonEmpty clusters) = concat clusters.
Proof.
  induction clusters as [|c cl IH]; cbn; [reflexivity|].
  destruct c; cbn; [exact IH|]. now rewrite IH.
Qed.

Lemma concat_singletons {A : Type} (l : list A) :
  concat (map (fun a => [a]) l) = l.
Proof. induction l; cbn; congruence. Qed.

(** What [clusterOrdersByDistance] returns: no empty cluster, the clusters
    hold the orders, each once. *)
Lemma clusterOrdersByDistance_OK rnd s orders k clusters :
  OptimizationAlgorithm.clusterOrdersByDistance rnd s orders k = OK clusters ->
  Forall (fun c => c <> []) clusters
  /\ Permutation (concat clusters) orders
  /\ ((k < List.length orders)%nat -> (List.length clusters <= k)%nat).
Proof.
  unfold OptimizationAlgorithm.clusterOrdersByDistance.
  destruct (Nat.leb_spec (List.length orders) k) as [Hle|Hgt].
  - intros H; inversion H; subst. repeat apply conj.
    + apply Forall_forall. intros c Hc. apply in_map_iff in Hc as (o & <- & _).
      discriminate.
    + now rewrite concat_singletons.
    + lia.
  - destruct (OptimizationAlgorithm.initCentroids rnd s orders 0 k [])
      as [c0|]; cbn [bindExc]; [|discriminate].
    destruct (OptimizationAlgorithm.kmeansLoop s orders k 3 c0) as [cs|];
      cbn [bindExc]; [|discriminate].
    destruct (OptimizationAlgorithm.assignToClusters s cs orders (repeat [] k))
      as [fc|] eqn:Hfc; cbn [bindExc]; [|discriminate].
    intros H; inversion H; subst.
    apply assignToClusters_OK in Hfc as [Hlen Hperm].
    rewrite repeat_length in Hlen. rewrite concat_repeat_nil, app_nil_r in Hperm.
    repeat apply conj.
    + apply Forall_forall. intros c Hc. apply filter_In in Hc as [_ Hc].
      destruct c; [discriminate|congruence].
    + now rewrite concat_filter_nonEmpty.
    + intros _. rewrite <- Hlen. apply filter_length_le.
Qed.

(** With draws in [0, 1) and at least one cluster asked for,
    [clusterOrdersByDistance] returns. *)
Lemma clusterOrdersByDistance_total rnd s orders k :
  (forall j, 0 <= rnd j < 1) ->
  (0 < k)%nat ->
  exists clusters,
    OptimizationAlgorithm.clusterOrdersByDistance rnd s orders k = OK clusters.
Proof.
  intros Hr Hk. unfold OptimizationAlgorithm.clusterOrdersByDistance.
  destruct (Nat.leb_spec (List.length orders) k) as [Hle|Hgt]; [eauto|].
  assert (Hne : orders <> []) by (destruct orders; cbn in *; [lia|congruence]).
  destruct (initCentroids_total rnd s orders 0 k [] Hr Hne) as (c0 & -> & Hl0).
  cbn in Hl0. cbn [bindExc].
  destruct (kmeansLoop_total s orders k 3 c0 Hk Hl0) as (cs & -> & Hl).
  cbn [bindExc].
  assert (Hcs : cs <> []) by (destruct cs; cbn in *; [lia|congruence]).
  destruct (assignToClusters_total s cs orders (repeat [] k) Hcs) as [fc ->];
    [rewrite repeat_length; lia|].
  cbn [bindExc]. eauto.
Qed.

(** ** Distance optimization is a run *)

Lemma NoDup_app_disjoint {A : Type} (l1 l2 : list A) (a : A) :
  NoDup (l1 ++ l2) -> In a l1 -> ~ In a l2.
Proof.
  induction l1 as [|b l1 IH]; cbn; intros Hnd Hin; [contradiction|].
  inversion Hnd; subst. destruct Hin as [->|Hin]; [|now apply IH].
  intros Hin. apply H1. apply in_or_app. now right.
Qed.

Lemma assignCluster_run drone cluster s acc s' acc' :
  OptimizationAlgorithm.assignCluster drone cluster s acc = (s', acc') ->
  exists l, run s l s' /\ incl l cluster /\ (NoDup cluster -> NoDup l).
Proof.
  revert s acc. induction cluster as [|order rest IH]; intros s acc; cbn.
  - intros H; inversion H; subst. exists []. repeat apply conj; auto.
    apply incl_refl.
  - assert (Hskip : forall s0 acc0,
      OptimizationAlgorithm.assignCluster drone rest s0 acc0 = (s', acc') ->
      s0 = s ->
      exists l, run s l s' /\ incl l (order :: rest)
                /\ (NoDup (order :: rest) -> NoDup l)).
    { intros s0 acc0 H ->. apply IH in H as (l & Hr & Hi & Hn).
      exists l. repeat apply conj; auto.
      - now apply incl_tl.
      - intros Hnd. inversion Hnd; auto. }
    destruct (Drone.canCarryOrder _ _); [|intros H; eapply Hskip; eauto].
    destruct (callAssignOrder s drone order) as [ok s1] eqn:Hcall.
    destruct ok.
    + intros H. apply IH in H as (l & Hr & Hi & Hn).
      exists (order :: l). repeat apply conj.
      * eauto.
      * intros o [<-|Hin]; [now left|right; now apply Hi].
      * intros Hnd. inversion Hnd; subst. constructor; auto.
    + apply callAssignOrder_false in Hcall. intros H. eapply Hskip; eauto.
Qed.

Lemma distanceLoop_run clusters drones s a s' a' :
  OptimizationAlgorithm.distanceLoop clusters drones s a = (s', a') ->
  exists l, run s l s' /\ incl l (concat clusters)
            /\ (NoDup (concat clusters) -> NoDup l).
Proof.
  revert drones s a. induction clusters as [|cluster clusters IH];
    intros drones s a; cbn.
  - intros H; inversion H; subst. exists []. repeat apply conj; auto.
    apply incl_refl.
  - destruct drones as [|drone drones].
    { intros H; inversion H; subst. exists []. repeat apply conj; auto.
      - intros ? [].
      - intros _. constructor. }
    destruct (OptimizationAlgorithm.assignCluster drone _ s [])
      as [s1 assignedOrders] eqn:Hc.
    apply assignCluster_run in Hc as (l1 & Hr1 & Hi1 & Hn1).
    assert (Hrest : forall a0,
      OptimizationAlgorithm.distanceLoop clusters drones s1 a0 = (s', a') ->
      exists l, run s l s' /\ incl l (cluster ++ concat clusters)
                /\ (NoDup (cluster ++ concat clusters) -> NoDup l)).
    { intros a0 H. apply IH in H as (l2 & Hr2 & Hi2 & Hn2).
      exists (l1 ++ l2). repeat apply conj.
      - eapply run_app; eauto.
      - apply incl_app.
        + apply incl_appl. eapply incl_tran; [exact Hi1|apply js_sort_incl].
        + now apply incl_appr.
      - intros Hnd. apply NoDup_app.
        + apply Hn1. eapply Permutation_NoDup.
          * symmetry. apply js_sort_perm.
          * eapply NoDup_app_remove_r; eauto.
        + apply Hn2. eapply NoDup_app_remove_l; eauto.
        + intros o Ho1 Ho2. apply Hi1 in Ho1. apply js_sort_incl in Ho1.
          apply Hi2 in Ho2.
          now apply (NoDup_app_disjoint _ _ o Hnd). }
    match goal with |- context [if ?c then _ else _] => destruct c end;
      apply Hrest.
Qed.

Lemma distanceOptimization_run rnd s orders drones res s' :
  OptimizationAlgorithm.distanceOptimization rnd s orders drones = OK (res, s') ->
  exists l, run s l s' /\ incl l orders /\ (NoDup orders -> NoDup l).
Proof.
  unfold OptimizationAlgorithm.distanceOptimization.
  destruct (OptimizationAlgorithm.clusterOrdersByDistance rnd s orders _)
    as [clusters|] eqn:Hcl; cbn [bindExc]; [|discriminate].
  apply clusterOrdersByDistance_OK in Hcl as (_ & Hperm & _).
  destruct (OptimizationAlgorithm.distanceLoop clusters drones s [])
    as [s1 a1] eqn:Hd.
  intros H; inversion H; subst.
  apply distanceLoop_run in Hd as (l & Hr & Hi & Hn).
  exists l. repeat apply conj; auto.
  - intros o Ho. eapply Permutation_in; [exact Hperm|]. now apply Hi.
  - intros Hnd. apply Hn. eapply Permutation_NoDup; [symmetry|]; eauto.
Qed.

(** ** Every strategy is a run *)

Lemma applyOptimizationStrategy_run now rnd s orders drones strategy res s' :
  OptimizationAlgorithm.applyOptimizationStrategy now rnd s orders drones strategy
  = OK (res, s') ->
  exists l, run s l s' /\ incl l orders /\ (NoDup orders -> NoDup l)
            /\ ((forall o, In o orders ->
                           Order.status (Store.orders s o) = pending) ->
                forall o, In o l -> Order.status (Store.orders s o) = pending).
Proof.
  unfold OptimizationAlgorithm.applyOptimizationStrategy.
  assert (Hweak : forall l,
    run s l s' /\ incl l orders /\ (NoDup orders -> NoDup l) ->
    exists l, run s l s' /\ incl l orders /\ (NoDup orders -> NoDup l)
            /\ ((forall o, In o orders ->
                           Order.status (Store.orders s o) = pending) ->
                forall o, In o l -> Order.status (Store.orders s o) = pending)).
  { intros l (Hr & Hi & Hn). exists l. repeat apply conj; auto. }
  destruct (String.eqb strategy "priority_first").
  { intros H; inversion H as [H1].
    apply priorityFirstOptimization_run in H1 as (l & Hr & Hi & Hn & Hp).
    apply (Hweak l); auto. }
  destruct (String.eqb strategy "capacity_optimization").
  { intros H; inversion H as [H1].
    apply capacityOptimization_run in H1 as (l & Hr & Hi & Hn & Hp).
    apply (Hweak l); auto. }
  destruct (String.eqb strategy "distance_optimization").
  { intros H. apply distanceOptimization_run in H as (l & Hr & Hi & Hn).
    apply (Hweak l); auto. }
  intros H; inversion H as [H1].
  apply balancedOptimization_run in H1 as (l & Hr & Hi & Hn & Hp).
  apply (Hweak l); auto.
Qed.

Lemma distanceOptimization_total rnd s orders drones :
  (forall j, 0 <= rnd j < 1) -> drones <> [] ->
  exists res s',
    OptimizationAlgorithm.distanceOptimization rnd s orders drones = OK (res, s').
Proof.
  intros Hr Hd. unfold OptimizationAlgorithm.distanceOptimization.
  destruct (clusterOrdersByDistance_total rnd s orders (List.length drones) Hr)
    as [clusters ->].
  { destruct drones; [congruence|cbn; lia]. }
  cbn [bindExc].
  destruct (OptimizationAlgorithm.distanceLoop clusters drones s []) as [s1 a1].
  eauto.
Qed.

Lemma applyOptimizationStrategy_total now rnd s orders drones strategy :
  (forall j, 0 <= rnd j < 1) -> drones <> [] ->
  exists res s',
    OptimizationAlgorithm.applyOptimizationStrategy
      now rnd s orders drones strategy = OK (res, s').
Proof.
  intros Hr Hd. unfold OptimizationAlgorithm.applyOptimizationStrategy.
  destruct (String.eqb strategy "priority_first").
  { destruct (OptimizationAlgorithm.priorityFirstOptimization now s orders drones).
    eauto. }
  destruct (String.eqb strategy "capacity_optimization").
  { destruct (OptimizationAlgorithm.capacityOptimization now s orders drones).
    eauto. }
  destruct (String.eqb strategy "distance_optimization").
  { now apply distanceOptimization_total. }
  destruct (OptimizationAlgorithm.balancedOptimization now s orders drones).
  eauto.
Qed.

Lemma optimizeDeliveries_cases now rnd s orders drones :
  (orders = [] \/ drones = []) /\
  OptimizationAlgorithm.optimizeDeliveries now rnd s orders drones
  = OK (Result.mk false "Sem pedidos ou drones disponíveis"%string None None, s)
  \/
  (orders <> [] /\ drones <> []) /\
  OptimizationAlgorithm.optimizeDeliveries now rnd s orders drones
  = OptimizationAlgorithm.applyOptimizationStrategy now rnd s orders drones
      (OptimizationAlgorithm.selectOptimizationStrategy
         (OptimizationAlgorithm.analyzeDeliveryScenario s orders drones)).
Proof.
  unfold OptimizationAlgorithm.optimizeDeliveries.
  destruct orders as [|o orders]; [left; split; [now left|reflexivity]|].
  destruct drones as [|d drones]; [left; split; [now right|reflexivity]|].
  right. split; [split; congruence|reflexivity].
Qed.

Lemma optimizeDeliveries_total now rnd s orders drones :
  (forall j, 0 <= rnd j < 1) ->
  exists res s',
    OptimizationAlgorithm.optimizeDeliveries now rnd s orders drones
    = OK (res, s').
Proof.
  intros Hr.
  destruct (optimizeDeliveries_cases now rnd s orders drones)
    as [[_ ->]|[[_ Hd] ->]]; [eauto|].
  now apply applyOptimizationStrategy_total.
Qed.

Lemma optimizeDeliveries_run now rnd s orders drones res s' :
  OptimizationAlgorithm.optimizeDeliveries now rnd s orders drones
  = OK (res, s') ->
  exists l, run s l s' /\ incl l orders /\ (NoDup orders -> NoDup l)
            /\ ((forall o, In o orders ->
                           Order.status (Store.orders s o) = pending) ->
                forall o, In o l -> Order.status (Store.orders s o) = pending).
Proof.
  destruct (optimizeDeliveries_cases now rnd s orders drones)
    as [[_ ->]|[_ ->]].
  - intros H; inversion H; subst. exists []. repeat apply conj; auto.
    + intros ? [].
    + intros _. constructor.
    + intros _ ? [].
  - apply applyOptimizationStrategy_run.
Qed.

(** * The capacity invariant *)

Lemma sumWeights_app s l1 l2 :
  sumWeights s (l1 ++ l2) = sumWeights s l1 + sumWeights s l2.
Proof.
  induction l1 as [|o l1 IH]; cbn; [lra|]. rewrite IH. lra.
Qed.

Lemma sumWeights_ext s s' l :
  (forall o, Order.weight (Store.orders s' o) = Order.weight (Store.orders s o)) ->
  sumWeights s' l = sumWeights s l.
Proof.
  intros H. induction l as [|o l IH]; cbn; [reflexivity|].
  now rewrite IH, H.
Qed.

Lemma canCarryOrder_load this order :
  Drone.canCarryOrder this order = true ->
  Drone.currentLoad this + Order.weight order <= Drone.capacity this.
Proof.
  unfold Drone.canCarryOrder. rewrite !andb_true_iff, !Rleb_true_iff. tauto.
Qed.

Lemma loadInvariant_stepClosed : stepClosed loadInvariant.
Proof.
  intros s d o s' HI Hstep.
  assert (Hw : forall o', Order.weight (Store.orders s' o')
                          = Order.weight (Store.orders s o')).
  { intros o'. now apply (step_order_static _ _ _ _ o' Hstep). }
  intros d'. rewrite (sumWeights_ext s s' _ Hw). clear Hw.
  apply callAssignOrder_true in Hstep as [Hcan ->]. cbn.
  unfold upd. destruct (Nat.eqb d' d) eqn:E.
  - apply Nat.eqb_eq in E as ->. cbn.
    rewrite sumWeights_app. cbn. destruct (HI d) as [Heq Hle].
    apply canCarryOrder_load in Hcan. split; lra.
  - apply HI.
Qed.

(** C1. [optimizeDeliveries] returns, and afterwards the weights of the
    orders assigned to a drone add up to at most its capacity, with
    [currentLoad] equal to that sum; the same holds for each of the four
    strategies applied to at least one drone.  The drones are taken to
    satisfy this before the call (a new drone does), and [Math.random]
    answers in [0, 1). *)
Theorem capacity_invariant (now : R) (rnd : nat -> R) (s : Store.t)
    (orders : list oref) (drones : list dref) :
  (forall j, 0 <= rnd j < 1) ->
  loadInvariant s ->
  (exists res s',
      OptimizationAlgorithm.optimizeDeliveries now rnd s orders drones
      = OK (res, s')
      /\ loadInvariant s')
  /\ (forall strategy, drones <> [] ->
      exists res s',
        OptimizationAlgorithm.applyOptimizationStrategy
          now rnd s orders drones strategy = OK (res, s')
        /\ loadInvariant s').
Proof.
  intros Hr HI. split.
  - destruct (optimizeDeliveries_total now rnd s orders drones Hr)
      as (res & s' & H).
    exists res, s'. split; [exact H|].
    apply optimizeDeliveries_run in H as (l & Hrun & _).
    eapply run_stepClosed; eauto using loadInvariant_stepClosed.
  - intros strategy Hd.
    destruct (applyOptimizationStrategy_total now rnd s orders drones strategy
                Hr Hd) as (res & s' & H).
    exists res, s'. split; [exact H|].
    apply applyOptimizationStrategy_run in H as (l & Hrun & _).
    eapply run_stepClosed; eauto using loadInvariant_stepClosed.
Qed.

(** * No double assignment *)

Lemma assignmentInvariant_exactlyOnce s :
  assignmentInvariant s -> assignedExactlyOnce s.
Proof.
  intros (Hnd & Huniq & Hlisted & Hassigned) o Ho.
  destruct (Hassigned o Ho) as [d Hd]. exists d. repeat apply conj.
  - apply NoDup_count_occ'; auto.
  - now apply Hlisted.
  - intros d' Hd'. eapply Huniq; eauto.
Qed.

(** Assigning a pending order keeps the invariant. *)
Lemma assignmentInvariant_step s d o s' :
  assignmentInvariant s ->
  Order.status (Store.orders s o) = pending ->
  callAssignOrder s d o = (true, s') ->
  assignmentInvariant s'.
Proof.
  intros (Hnd & Huniq & Hlisted & Hassigned) Hpend Hstep.
  assert (Hfresh : forall d', ~ In o (Drone.assignedOrders (Store.drones s d'))).
  { intros d' Hin. apply Hlisted in Hin as [Hin _]. congruence. }
  apply callAssignOrder_true in Hstep as [_ ->].
  assert (Hlist : forall d' o',
    In o' (Drone.assignedOrders
             (upd (Store.drones s) d
                  (Drone.push_order (Store.drones s d) o
                     (Order.weight (Store.orders s o))) d')) ->
    (o' = o /\ d' = d)
    \/ (o' <> o /\ In o' (Drone.assignedOrders (Store.drones s d')))).
  { intros d' o'. unfold upd. destruct (Nat.eqb d' d) eqn:E.
    - apply Nat.eqb_eq in E as ->. cbn. intros Hin.
      apply in_app_or in Hin as [Hin|[<-|[]]]; [right|left; auto].
      split; [|exact Hin]. intros ->. now apply (Hfresh d).
    - intros Hin. right. split; [|exact Hin]. intros ->. now apply (Hfresh d'). }
  unfold assignmentInvariant. cbn. repeat apply conj.
  - intros d'. unfold upd. destruct (Nat.eqb d' d); [|apply Hnd]. cbn.
    apply NoDup_app; [apply Hnd|repeat constructor; intros []|].
    intros a Ha [<-|[]]. now apply (Hfresh d).
  - intros d1 d2 o' H1 H2. apply Hlist in H1, H2.
    destruct H1 as [[-> ->]|[Hne1 H1]], H2 as [[E ->]|[Hne2 H2]];
      try congruence. eapply Huniq; eauto.
  - intros d' o' Hin. apply Hlist in Hin as [[-> ->]|[Hne Hin]].
    + rewrite !upd_same. cbn. auto.
    + rewrite upd_other by exact Hne. apply Hlisted in Hin as [Hs Hd].
      split; [exact Hs|]. rewrite Hd. f_equal. unfold upd.
      destruct (Nat.eqb d' d) eqn:E; [|reflexivity].
      apply Nat.eqb_eq in E as ->. reflexivity.
  - intros o'. unfold upd at 1. destruct (Nat.eqb o' o) eqn:E.
    + apply Nat.eqb_eq in E as ->. intros _. exists d. rewrite upd_same. cbn.
      apply in_or_app. right. now left.
    + intros Hs. apply Hassigned in Hs as [d' Hd']. exists d'. unfold upd.
      destruct (Nat.eqb d' d) eqn:E'; [|exact Hd'].
      apply Nat.eqb_eq in E' as ->. cbn. apply in_or_app. now left.
Qed.

Lemma assignmentInvariant_run s l s' :
  run s l s' ->
  NoDup l ->
  (forall o, In o l -> Order.status (Store.orders s o) = pending) ->
  assignmentInvariant s -> assignmentInvariant s'.
Proof.
  induction 1 as [|s d o s1 l s2 Hstep Hrun IH]; intros Hnd Hp HI; [exact HI|].
  inversion Hnd; subst. apply IH; auto.
  - intros o' Ho'. rewrite (step_orders_frame _ _ _ _ o' Hstep).
    + apply Hp. now right.
    + intros ->. contradiction.
  - eapply assignmentInvariant_step; eauto. apply Hp. now left.
Qed.

(** Orders and drones stay in agreement when the orders handed over are
    distinct and pending.  Starting from a store where orders and drones
    agree, with [Math.random] answering in [0, 1), [optimizeDeliveries]
    then returns a store where every assigned order is in exactly one
    drone's list, once, and names that drone; the same holds for each
    strategy applied to at least one drone.  One pass of [greedyAssignment]
    keeps this for any list of orders, repeated or not pending ones
    included, since it skips an order that is no longer pending. *)
Theorem no_double_assignment (now : R) (rnd : nat -> R) (s : Store.t)
    (orders : list oref) (drones : list dref) :
  (forall j, 0 <= rnd j < 1) ->
  assignmentInvariant s ->
  (NoDup orders ->
   (forall o, In o orders -> Order.status (Store.orders s o) = pending) ->
   (exists res s',
       OptimizationAlgorithm.optimizeDeliveries now rnd s orders drones
       = OK (res, s')
       /\ assignmentInvariant s' /\ assignedExactlyOnce s')
   /\ (forall strategy, drones <> [] ->
       exists res s',
         OptimizationAlgorithm.applyOptimizationStrategy
           now rnd s orders drones strategy = OK (res, s')
         /\ assignmentInvariant s' /\ assignedExactlyOnce s'))
  /\ (forall res s',
         OptimizationAlgorithm.greedyAssignment s orders drones = (res, s') ->
         assignmentInvariant s' /\ assignedExactlyOnce s').
Proof.
  intros Hr HI.
  assert (Hboth : forall s', assignmentInvariant s' ->
                             assignmentInvariant s' /\ assignedExactlyOnce s').
  { intros s' H. split; [exact H|now apply assignmentInvariant_exactlyOnce]. }
  split; [intros Hnd Hp; split|].
  - destruct (optimizeDeliveries_total now rnd s orders drones Hr)
      as (res & s' & H).
    exists res, s'. split; [exact H|]. apply Hboth.
    apply optimizeDeliveries_run in H as (l & Hrun & Hi & Hn & Hpl).
    eapply assignmentInvariant_run; eauto.
  - intros strategy Hd.
    destruct (applyOptimizationStrategy_total now rnd s orders drones strategy
                Hr Hd) as (res & s' & H).
    exists res, s'. split; [exact H|]. apply Hboth.
    apply applyOptimizationStrategy_run in H as (l & Hrun & Hi & Hn & Hpl).
    eapply assignmentInvariant_run; eauto.
  - intros res s' H. apply Hboth.
    apply greedyAssignment_run in H as (l & Hrun & Hi & Hn & Hpl).
    eapply assignmentInvariant_run; eauto.
Qed.

(** * Empty input *)

Lemma greedyLoop_no_drone orders s a c :
  OptimizationAlgorithm.greedyLoop [] orders s a c = (s, a, c).
Proof.
  induction orders as [|o rest IH]; cbn; [reflexivity|].
  destruct (negb _); exact IH.
Qed.

(** C8. With no order or no drone, [optimizeDeliveries] returns (it does
    not throw) a result whose [success] is false and which carries no
    assignment, and the store is as before; [greedyAssignment] on such
    input likewise returns [success] false, an empty list of assignments
    and the store as before. *)
Theorem empty_input (now : R) (rnd : nat -> R) (s : Store.t)
    (orders : list oref) (drones : list dref) :
  orders = [] \/ drones = [] ->
  (exists res,
      OptimizationAlgorithm.optimizeDeliveries now rnd s orders drones
      = OK (res, s)
      /\ Result.success res = false
      /\ Result.assignments res = None)
  /\ (exists res,
         OptimizationAlgorithm.greedyAssignment s orders drones = (res, s)
         /\ Result.success res = false
         /\ Result.assignments res = Some []).
Proof.
  intros Hempty. split.
  - destruct (optimizeDeliveries_cases now rnd s orders drones)
      as [[_ ->]|[[Ho Hd] _]].
    + eexists. split; [reflexivity|]. cbn. auto.
    + destruct Hempty; contradiction.
  - unfold OptimizationAlgorithm.greedyAssignment.
    destruct Hempty as [-> | ->]; cbn.
    + eexists. split; [reflexivity|]. cbn. auto.
    + rewrite greedyLoop_no_drone. eexists. split; [reflexivity|]. cbn. auto.
Qed.

(** * 2-opt *)

Lemma words_complete {A : Type} (alphabet l : list A) :
  incl l alphabet -> In l (words alphabet (List.length l)).
Proof.
  induction l as [|a l IH]; cbn; intros Hi; [now left|].
  apply in_flat_map. exists a. split; [apply Hi; now left|].
  apply in_map. apply IH. intros b Hb. apply Hi. now right.
Qed.

Lemma filter_length_lt {A : Type} (f g : A -> bool) (l : list A) (a : A) :
  (forall b, In b l -> f b = true -> g b = true) ->
  In a l -> g a = true -> f a = false ->
  (List.length (filter f l) < List.length (filter g l))%nat.
Proof.
  intros Hfg. revert a.
  assert (Hle : forall l', (forall b, In b l' -> f b = true -> g b = true) ->
            (List.length (filter f l') <= List.length (filter g l'))%nat).
  { induction l' as [|b l' IH]; intros H; cbn; [lia|].
    specialize (IH (fun c Hc => H c (or_intror Hc))).
    destruct (f b) eqn:Ef.
    - rewrite (H b (or_introl eq_refl) Ef). cbn. lia.
    - destruct (g b); cbn; lia. }
  induction l as [|b l IH]; intros a [] Hg Hf.
  - subst b. cbn. rewrite Hg, Hf. cbn.
    specialize (Hle l (fun c Hc => Hfg c (or_intror Hc))). lia.
  - specialize (IH (fun c Hc => Hfg c (or_intror Hc)) a H Hg Hf). cbn.
    destruct (f b) eqn:Ef.
    + rewrite (Hfg b (or_introl eq_refl) Ef). cbn. lia.
    + destruct (g b); cbn; lia.
Qed.

Lemma shorterRoutes_decreases (alphabet p : list Point.t) (d : R) :
  incl p alphabet ->
  OptimizationAlgorithm.calculateRouteDistance p < d ->
  (shorterRoutes alphabet (List.length p)
                 (OptimizationAlgorithm.calculateRouteDistance p)
   < shorterRoutes alphabet (List.length p) d)%nat.
Proof.
  intros Hi Hlt. unfold shorterRoutes.
  apply filter_length_lt with (a := p).
  - intros b _ Hb. apply Rltb_true_iff in Hb. apply Rltb_true_iff. lra.
  - now apply words_complete.
  - now apply Rltb_true_iff.
  - apply Rltb_false_iff. lra.
Qed.

Lemma set_nth_incl {A : Type} (i : nat) (v : A) (l : list A) :
  incl (set_nth i v l) (v :: l).
Proof.
  revert i. induction l as [|a l IH]; intros [|i]; cbn;
    try solve [intros ? []].
  - intros b [<-|Hb]; [now left|right; now right].
  - intros b [<-|Hb]; [right; now left|].
    apply IH in Hb as [<-|Hb]; [now left|right; now right].
Qed.

Lemma reverseLoop_shape fuel route start end_ :
  List.length (OptimizationAlgorithm.reverseLoop fuel route start end_)
  = List.length route
  /\ incl (OptimizationAlgorithm.reverseLoop fuel route start end_) route.
Proof.
  revert route start end_.
  induction fuel as [|fuel IH]; intros route start end_; cbn.
  - split; [reflexivity|apply incl_refl].
  - match goal with |- context [if ?c then _ else _] => destruct c end;
      [|split; [reflexivity|apply incl_refl]].
    destruct (nth_error route start) as [temp|] eqn:Es;
      [|split; [reflexivity|apply incl_refl]].
    destruct (nth_error route end_) as [other|] eqn:Ee;
      [|split; [reflexivity|apply incl_refl]].
    destruct (IH (set_nth end_ temp (set_nth start other route))
                 (S start) (Nat.pred end_)) as [Hl Hi].
    split.
    + now rewrite Hl, !set_nth_length.
    + eapply incl_tran; [exact Hi|].
      intros a Ha. apply set_nth_incl in Ha as [<-|Ha].
      * eapply nth_error_In; eauto.
      * apply set_nth_incl in Ha as [<-|Ha]; [|exact Ha].
        eapply nth_error_In; eauto.
Qed.

Lemma tryReversal_invariant route i j st0 st :
  scanInvariant route st0 st ->
  scanInvariant route st0 (OptimizationAlgorithm.tryReversal route i j st).
Proof.
  intros H. unfold OptimizationAlgorithm.tryReversal.
  destruct (Rlt_dec _ _) as [Hlt|_]; [|exact H].
  right. cbn.
  destruct (reverseLoop_shape (j - i) route i j) as [Hl Hi].
  repeat apply conj; auto.
  destruct H as [[_ ->]|(_ & _ & Hlt' & _)]; lra.
Qed.

Lemma fold_invariant {A B : Type} (P : A -> Prop) (f : A -> B -> A)
    (l : list B) (a : A) :
  (forall a b, P a -> P (f a b)) -> P a -> P (fold_left f l a).
Proof.
  intros Hf. revert a. induction l as [|b l IH]; intros a Ha; cbn; auto.
Qed.

Lemma scanPairs_invariant route st0 :
  snd st0 = false ->
  scanInvariant route st0 (OptimizationAlgorithm.scanPairs route st0).
Proof.
  intros H0. unfold OptimizationAlgorithm.scanPairs.
  apply fold_invariant.
  - intros st i Hst. apply fold_invariant; [|exact Hst].
    intros st' j Hst'. now apply tryReversal_invariant.
  - left. auto.
Qed.

(** The loop stops; it returns a route that is no longer than the one it
    started from and on which one more scan changes nothing. *)
Lemma whileImproved_total (alphabet : list Point.t) (n : nat) :
  forall (m : nat) (route : list Point.t),
    (shorterRoutes alphabet n
       (OptimizationAlgorithm.calculateRouteDistance route) < m)%nat ->
    List.length route = n -> incl route alphabet ->
    exists r,
      (forall fuel, (m <= fuel)%nat ->
         OptimizationAlgorithm.whileImproved
           fuel route route (OptimizationAlgorithm.calculateRouteDistance route)
         = Some r)
      /\ OptimizationAlgorithm.calculateRouteDistance r
         <= OptimizationAlgorithm.calculateRouteDistance route
      /\ List.length r = n
      /\ OptimizationAlgorithm.scanPairs
           r (r, OptimizationAlgorithm.calculateRouteDistance r, false)
         = (r, OptimizationAlgorithm.calculateRouteDistance r, false).
Proof.
  induction m as [|m IH]; intros route Hm Hlen Hincl; [lia|].
  pose proof (scanPairs_invariant route
    (route, OptimizationAlgorithm.calculateRouteDistance route, false)
    eq_refl) as Hscan.
  destruct (OptimizationAlgorithm.scanPairs route
    (route, OptimizationAlgorithm.calculateRouteDistance route, false))
    as [[b d] improved] eqn:Es.
  destruct Hscan as [[Himp Heq]|(Himp & Hd & Hlt & Hl & Hi)]; cbn in *.
  - inversion Heq; subst. exists route. repeat apply conj; auto; [|lra].
    intros [|fuel] Hf; [lia|]. cbn. now rewrite Es.
  - subst improved d.
    destruct (IH b) as (r & Hr & Hle & Hlr & Hfix).
    + rewrite <- Hlen in *. rewrite <- Hl in *.
      pose proof (shorterRoutes_decreases alphabet b _
                    (incl_tran Hi Hincl) Hlt). lia.
    + congruence.
    + eapply incl_tran; eauto.
    + exists r. repeat apply conj; auto; [|lra].
      intros [|fuel] Hf; [lia|]. cbn. rewrite Es. apply Hr. lia.
Qed.

(** C4. [optimizeRouteWith2Opt] returns for every path, the route it
    returns is not longer than the path, and running it on its own result
    gives that result back. *)
Theorem two_opt_non_worsening_idempotent (path : list Point.t) :
  exists (r : list Point.t) (fuel : nat),
    (forall fuel', (fuel <= fuel')%nat ->
       OptimizationAlgorithm.optimizeRouteWith2Opt fuel' path = Some r
       /\ OptimizationAlgorithm.optimizeRouteWith2Opt fuel' r = Some r)
    /\ OptimizationAlgorithm.calculateRouteDistance r
       <= OptimizationAlgorithm.calculateRouteDistance path.
Proof.
  unfold OptimizationAlgorithm.optimizeRouteWith2Opt.
  destruct (Nat.ltb (List.length path) 4) eqn:Hshort.
  - exists path, O. split; [|lra]. intros fuel' _. now rewrite Hshort.
  - destruct (whileImproved_total path (List.length path)
                (S (shorterRoutes path (List.length path)
                      (OptimizationAlgorithm.calculateRouteDistance path)))
                path) as (r & Hr & Hle & Hlr & Hfix);
      [lia|reflexivity|apply incl_refl|].
    exists r, (S (shorterRoutes path (List.length path)
                    (OptimizationAlgorithm.calculateRouteDistance path))).
    split; [|exact Hle].
    intros fuel' Hf. split; [now apply Hr|].
    rewrite Hlr, Hshort. destruct fuel' as [|fuel']; [lia|].
    cbn. now rewrite Hfix.
Qed.

(** * The loops modelled with fuel are given enough of it *)

Lemma reverseLoop_fuel_enough fuel route start end_ :
  (end_ - start <= fuel)%nat ->
  OptimizationAlgorithm.reverseLoop (S fuel) route start end_
  = OptimizationAlgorithm.reverseLoop fuel route start end_.
Proof.
  revert route start end_.
  induction fuel as [|fuel IH]; intros route start end_ Hf.
  - cbn [OptimizationAlgorithm.reverseLoop].
    destruct (Nat.ltb_spec start end_); [lia|reflexivity].
  - change (OptimizationAlgorithm.reverseLoop (S (S fuel)) route start end_)
      with (if Nat.ltb start end_
            then match nth_error route start, nth_error route end_ with
                 | Some temp, Some other =>
                     OptimizationAlgorithm.reverseLoop (S fuel)
                       (set_nth end_ temp (set_nth start other route))
                       (S start) (Nat.pred end_)
                 | _, _ => route
                 end
            else route).
    cbn [OptimizationAlgorithm.reverseLoop].
    destruct (Nat.ltb_spec start end_); [|reflexivity].
    destruct (nth_error route start); [|reflexivity].
    destruct (nth_error route end_); [|reflexivity].
    apply IH. lia.
Qed.

Lemma nearestLoop_bound orders currentPosition rest i n d :
  (n < i)%nat ->
  (Drone.nearestLoop orders currentPosition rest i n d
   < i + List.length rest)%nat.
Proof.
  revert i n d. induction rest as [|r rest IH]; intros i n d Hn; cbn; [lia|].
  destruct (Rlt_dec _ d).
  - specialize (IH (S i) i
      (Drone.calculateDistance currentPosition (Order.location (orders r)))).
    lia.
  - specialize (IH (S i) n d). lia.
Qed.

Lemma splice1_length {A : Type} (i : nat) (l : list A) :
  (i < List.length l)%nat ->
  List.length (splice1 i l) = Nat.pred (List.length l).
Proof.
  intros H. unfold splice1. rewrite length_app, length_firstn, length_skipn.
  lia.
Qed.

Lemma visitLoop_fuel_enough fuel orders currentPosition unvisited route :
  (List.length unvisited <= fuel)%nat ->
  Drone.visitLoop (S fuel) orders currentPosition unvisited route
  = Drone.visitLoop fuel orders currentPosition unvisited route.
Proof.
  revert currentPosition unvisited route.
  induction fuel as [|fuel IH]; intros currentPosition unvisited route Hf.
  - destruct unvisited; [reflexivity|cbn in Hf; lia].
  - destruct unvisited as [|u0 rest]; [reflexivity|].
    change (Drone.visitLoop (S (S fuel)) orders currentPosition (u0 :: rest) route)
      with (let nearestIndex :=
              Drone.nearestLoop orders currentPosition rest 1 0
                (Drone.calculateDistance currentPosition
                                         (Order.location (orders u0))) in
            let nearestOrder := nth nearestIndex (u0 :: rest) u0 in
            Drone.visitLoop (S fuel) orders
              (Order.location (orders nearestOrder))
              (splice1 nearestIndex (u0 :: rest))
              (route ++ [Drone.deliveryStop orders nearestOrder])).
    cbv zeta. rewrite IH; [reflexivity|].
    rewrite splice1_length.
    + cbn in *. lia.
    + pose proof (nearestLoop_bound orders currentPosition rest 1 0
        (Drone.calculateDistance currentPosition (Order.location (orders u0)))).
      cbn. lia.
Qed.

(** * Evaluating the engine on concrete stores

The model computes with real numbers, so a run on concrete data is
    followed by unfolding the program and settling each comparison. *)

Ltac unfold_model :=
  cbv -[Rplus Rmult Rminus Rdiv Rinv Ropp sqrt IZR INR Rle_dec Rlt_dec
        Req_dec_T Zfloor Rlt Rle Rge Rgt].

Ltac sqrt_is e v :=
  replace (sqrt e) with v by (symmetry; apply sqrt_lem_1; cbn -[IZR]; lra).

Ltac eval_sqrt :=
  repeat match goal with
  | |- context [sqrt ?e] =>
      first [sqrt_is e 0 | sqrt_is e 1 | sqrt_is e 2 | sqrt_is e 3
            | sqrt_is e 5 | sqrt_is e 8 | sqrt_is e 10 | sqrt_is e 20]
  end.

Ltac floor_is e z :=
  replace (Zfloor e) with z by (symmetry; apply Zfloor_eq; cbn -[IZR]; lra).

Ltac eval_floor :=
  repeat match goal with
  | |- context [Zfloor ?e] => first [floor_is e 0%Z | floor_is e 1%Z]
  end.

Ltac real_fact := eval_floor; eval_sqrt; cbn [INR]; lra.

Ltac decide_real :=
  match goal with
  | |- context [Rlt_dec ?a ?b] =>
      first [ let H := fresh in
              assert (H : a < b) by real_fact;
              destruct (Rlt_dec a b) as [_|?]; [clear H|contradiction]
            | let H := fresh in
              assert (H : ~ a < b) by real_fact;
              destruct (Rlt_dec a b) as [?|_]; [contradiction|clear H] ]
  | |- context [Rle_dec ?a ?b] =>
      first [ let H := fresh in
              assert (H : a <= b) by real_fact;
              destruct (Rle_dec a b) as [_|?]; [clear H|contradiction]
            | let H := fresh in
              assert (H : ~ a <= b) by real_fact;
              destruct (Rle_dec a b) as [?|_]; [contradiction|clear H] ]
  end.

Ltac run_model :=
  unfold_model; repeat (first [progress eval_floor | decide_real]; unfold_model).

Lemma sameSpot_one_cluster :
  OptimizationAlgorithm.clusterOrdersByDistance
    (fun _ => 0) sameSpot [0; 1; 2; 3; 4; 5]%nat 2
  = OK [[0; 1; 2; 3; 4; 5]%nat].
Proof. run_model. reflexivity. Qed.

Lemma westEast_west_first :
  OptimizationAlgorithm.clusterOrdersByDistance
    drawsWestFirst westEast [0; 1; 2]%nat 2
  = OK [[0]; [1; 2]]%nat.
Proof. run_model. reflexivity. Qed.

Lemma westEast_east_first :
  OptimizationAlgorithm.clusterOrdersByDistance
    drawsEastFirst westEast [0; 1; 2]%nat 2
  = OK [[1; 2]; [0]]%nat.
Proof. run_model. reflexivity. Qed.

(** * Clustering: what is and is not guaranteed *)

Lemma initCentroids_draws rnd1 rnd2 s orders i n centroids :
  (forall j, (i <= j < i + n)%nat ->
     Zfloor (rnd1 j * INR (List.length orders))
     = Zfloor (rnd2 j * INR (List.length orders))) ->
  OptimizationAlgorithm.initCentroids rnd1 s orders i n centroids
  = OptimizationAlgorithm.initCentroids rnd2 s orders i n centroids.
Proof.
  revert i centroids. induction n as [|n IH]; intros i centroids H; cbn;
    [reflexivity|].
  rewrite (H i) by lia.
  destruct (js_index orders _); [|reflexivity].
  apply IH. intros j Hj. apply H. lia.
Qed.

(** C6, as the code has it.  [clusterOrdersByDistance] takes no seed: the
    centroids come from [Math.random].  Its result is a function of its
    input and of the order indices [floor(random * orders.length)] that the
    [k] draws select: two calls whose draws select the same indices return
    the same clusters. *)
Theorem clustering_determined_by_draws (rnd1 rnd2 : nat -> R) (s : Store.t)
    (orders : list oref) (k : nat) :
  (forall i, (i < k)%nat ->
     Zfloor (rnd1 i * INR (List.length orders))
     = Zfloor (rnd2 i * INR (List.length orders))) ->
  OptimizationAlgorithm.clusterOrdersByDistance rnd1 s orders k
  = OptimizationAlgorithm.clusterOrdersByDistance rnd2 s orders k.
Proof.
  intros H. unfold OptimizationAlgorithm.clusterOrdersByDistance.
  destruct (Nat.leb (List.length orders) k); [reflexivity|].
  rewrite (initCentroids_draws rnd1 rnd2); [reflexivity|].
  intros j Hj. apply H. lia.
Qed.

Lemma clustering_determined_by_draws_witness :
  OptimizationAlgorithm.clusterOrdersByDistance
    (fun _ => 0) westEast [0; 1; 2]%nat 2
  = OptimizationAlgorithm.clusterOrdersByDistance
      (fun _ => 0.25) westEast [0; 1; 2]%nat 2.
Proof.
  apply (clustering_determined_by_draws (fun _ => 0) (fun _ => 0.25)).
  intros i _. cbn [List.length]. eval_floor. reflexivity.
Defined.

(** C6, as the spec has it, fails: the same orders and the same [k] give
    different clusters when [Math.random] answers differently, and nothing
    the caller passes fixes those answers. *)
Lemma clustering_not_deterministic :
  OptimizationAlgorithm.clusterOrdersByDistance
    drawsWestFirst westEast [0; 1; 2]%nat 2
  <> OptimizationAlgorithm.clusterOrdersByDistance
       drawsEastFirst westEast [0; 1; 2]%nat 2.
Proof.
  rewrite westEast_west_first, westEast_east_first. discriminate.
Qed.

(** C9, as the code has it.  For six orders and two drones, with
    [Math.random] answering in [0, 1), the clustering step of
    [distanceOptimization] returns one or two clusters, none of them empty,
    and every order is in exactly one cluster. *)
Theorem clustering_six_orders_two_drones (rnd : nat -> R) (s : Store.t)
    (orders : list oref) (drones : list dref) :
  List.length orders = 6%nat ->
  List.length drones = 2%nat ->
  (forall j, 0 <= rnd j < 1) ->
  exists clusters,
    OptimizationAlgorithm.clusterOrdersByDistance
      rnd s orders (List.length drones) = OK clusters
    /\ (1 <= List.length clusters <= 2)%nat
    /\ Forall (fun c => c <> []) clusters
    /\ Permutation (concat clusters) orders.
Proof.
  intros Ho Hd Hr. rewrite Hd.
  destruct (clusterOrdersByDistance_total rnd s orders 2 Hr) as [clusters H];
    [lia|].
  exists clusters. split; [exact H|].
  apply clusterOrdersByDistance_OK in H as (Hne & Hperm & Hlen).
  repeat apply conj; auto; [|lia].
  destruct clusters as [|c cl]; [|cbn; lia].
  apply Permutation_length in Hperm. cbn in Hperm. lia.
Qed.

Lemma clustering_six_orders_two_drones_witness :
  exists clusters,
    OptimizationAlgorithm.clusterOrdersByDistance
      (fun _ => 0) sameSpot [0; 1; 2; 3; 4; 5]%nat (List.length [0; 1]%nat)
    = OK clusters
    /\ (1 <= List.length clusters <= 2)%nat
    /\ Forall (fun c => c <> []) clusters
    /\ Permutation (concat clusters) [0; 1; 2; 3; 4; 5]%nat.
Proof.
  apply (clustering_six_orders_two_drones (fun _ => 0) sameSpot).
  - reflexivity.
  - reflexivity.
  - intros _. lra.
Defined.

(** C9, as the spec has it, fails: six orders for one address end up in a
    single cluster, the second cluster being empty and dropped. *)
Lemma clustering_single_cluster :
  ~ exists clusters,
      OptimizationAlgorithm.clusterOrdersByDistance
        (fun _ => 0) sameSpot [0; 1; 2; 3; 4; 5]%nat (List.length [0; 1]%nat)
      = OK clusters
      /\ List.length clusters = 2%nat.
Proof.
  intros (clusters & H & Hlen). cbn [List.length] in H.
  rewrite sameSpot_one_cluster in H. inversion H; subst. discriminate.
Qed.

(** * The range of a drone and its route *)

Lemma callAssignOrder_eq s d o :
  Drone.canCarryOrder (Store.drones s d) (Store.orders s o) = true ->
  callAssignOrder s d o = (true, assignStore s d o).
Proof.
  intros H. unfold callAssignOrder, Drone.assignOrder. now rewrite H.
Qed.

Lemma greedyLoop_assign availableDrones order rest s a c bestDrone :
  Order.status (Store.orders s order) = pending ->
  OptimizationAlgorithm.bestDroneLoop s order availableDrones None (-1)
  = Some bestDrone ->
  Drone.canCarryOrder (Store.drones s bestDrone) (Store.orders s order) = true ->
  OptimizationAlgorithm.greedyLoop availableDrones (order :: rest) s a c
  = let s' := assignStore s bestDrone order in
    let droneId := Drone.id (Store.drones s' bestDrone) in
    let orderId := Order.id (Store.orders s' order) in
    OptimizationAlgorithm.greedyLoop availableDrones rest s'
      (if Nat.eqb (List.length
                     (Drone.assignedOrders (Store.drones s' bestDrone))) 1
       then a ++ [Assignment.mk droneId [orderId] None None]
       else OptimizationAlgorithm.pushToExisting droneId orderId a)
      (S c).
Proof.
  intros Hp Hb Hc. cbn [OptimizationAlgorithm.greedyLoop].
  rewrite Hp, Hb, (callAssignOrder_eq _ _ _ Hc). reflexivity.
Qed.

Lemma eastWest_strategy :
  OptimizationAlgorithm.selectOptimizationStrategy
    (OptimizationAlgorithm.analyzeDeliveryScenario eastWest [0; 1]%nat [0]%nat)
  = "balanced_optimization"%string.
Proof. run_model. reflexivity. Qed.

Lemma eastWest_sorted :
  map fst
    (js_sort OptimizationAlgorithm.scoreDiff
       (map (fun order =>
               (order,
                OptimizationAlgorithm.calculateBalancedScore
                  0 eastWest order [0]%nat))
            [0; 1]%nat))
  = [0; 1]%nat.
Proof. run_model. reflexivity. Qed.

Lemma eastWest_first_fits :
  Drone.canCarryOrder (Store.drones eastWest 0%nat)
                      (Store.orders eastWest 0%nat) = true.
Proof. run_model. reflexivity. Qed.

Lemma eastWest_first_drone :
  OptimizationAlgorithm.bestDroneLoop eastWest 0%nat [0]%nat None (-1)
  = Some 0%nat.
Proof. run_model. reflexivity. Qed.

Lemma eastWest_second_fits :
  Drone.canCarryOrder (Store.drones (assignStore eastWest 0%nat 0%nat) 0%nat)
                      (Store.orders (assignStore eastWest 0%nat 0%nat) 1%nat) = true.
Proof. run_model. reflexivity. Qed.

Lemma eastWest_second_drone :
  OptimizationAlgorithm.bestDroneLoop
    (assignStore eastWest 0%nat 0%nat) 1%nat [0]%nat None (-1)
  = Some 0%nat.
Proof. run_model. reflexivity. Qed.

Lemma eastWest_optimized :
  exists res,
    OptimizationAlgorithm.optimizeDeliveries
      0 (fun _ => 0) eastWest [0; 1]%nat [0]%nat
    = OK (res, eastWestAssigned).
Proof.
  eexists.
  unfold OptimizationAlgorithm.optimizeDeliveries. cbn [List.length Nat.eqb orb].
  rewrite eastWest_strategy.
  unfold OptimizationAlgorithm.applyOptimizationStrategy.
  cbn [String.eqb Ascii.eqb Bool.eqb].
  unfold OptimizationAlgorithm.balancedOptimization. rewrite eastWest_sorted.
  unfold OptimizationAlgorithm.greedyAssignment.
  change (filter (OptimizationAlgorithm.is_idle eastWest) [0%nat])
    with [0%nat].
  rewrite (greedyLoop_assign [0%nat] 0%nat [1%nat] eastWest [] 0%nat 0%nat
             eq_refl eastWest_first_drone eastWest_first_fits).
  cbv zeta.
  rewrite (greedyLoop_assign [0%nat] 1%nat [] (assignStore eastWest 0%nat 0%nat)
             _ 1%nat 0%nat eq_refl eastWest_second_drone eastWest_second_fits).
  cbv zeta. cbn [OptimizationAlgorithm.greedyLoop]. reflexivity.
Qed.

(** C2 fails on the code.  Each order alone is a round trip of 10, which
    the range allows, so [optimizeDeliveries] gives both to the drone; the
    route base, east, west, base that [optimizeRoute] then builds is 20
    long, twice the range. *)
Theorem range_exceeded_by_route :
  exists res s' route s'',
    OptimizationAlgorithm.optimizeDeliveries
      0 (fun _ => 0) eastWest [0; 1]%nat [0]%nat = OK (res, s')
    /\ Drone.assignedOrders (Store.drones s' 0%nat) = [0; 1]%nat
    /\ callOptimizeRoute s' 0%nat = (route, s'')
    /\ map RouteStop.point route
       = [Point.mk 10 10; Point.mk 15 10; Point.mk 5 10; Point.mk 10 10]
    /\ Drone.calculateRouteDistance (Store.drones s'' 0%nat) = 20
    /\ Drone.range (Store.drones s'' 0%nat) = 10.
Proof.
  destruct eastWest_optimized as [res Hres].
  exists res, eastWestAssigned. eexists. eexists.
  split; [exact Hres|]. split; [reflexivity|]. split.
  - run_model. reflexivity.
  - unfold_model. repeat apply conj; try reflexivity. real_fact.
Qed.

(** * The visiting order of a route *)

Lemma highFarLowNear_first_fits :
  Drone.canCarryOrder (Store.drones highFarLowNear 0%nat)
                      (Store.orders highFarLowNear 0%nat) = true.
Proof. run_model. reflexivity. Qed.

Lemma highFarLowNear_second_fits :
  Drone.canCarryOrder
    (Store.drones (assignStore highFarLowNear 0%nat 0%nat) 0%nat)
    (Store.orders (assignStore highFarLowNear 0%nat 0%nat) 1%nat) = true.
Proof. run_model. reflexivity. Qed.

(** C5 fails on the code.  The drone is given the high-priority order and
    then the low-priority one.  From the base the weighted distances are
    10 * 0.7 = 7 and 8 * 1.0 = 8, so the spec's rule visits the
    high-priority order first; [optimizeRoute] compares the weighted 8 of
    the challenger with the unweighted 10 of the order it holds, and visits
    the low-priority order first. *)
Theorem route_not_weighted_nearest :
  exists s1 s2,
    callAssignOrder highFarLowNear 0%nat 0%nat = (true, s1)
    /\ callAssignOrder s1 0%nat 1%nat = (true, s2)
    /\ weightedDistance s2 (Drone.basePosition (Store.drones s2 0%nat)) 0%nat = 7
    /\ weightedDistance s2 (Drone.basePosition (Store.drones s2 0%nat)) 1%nat = 8
    /\ map RouteStop.order (fst (callOptimizeRoute s2 0%nat))
       = [None; Some 1%nat; Some 0%nat; None].
Proof.
  exists (assignStore highFarLowNear 0%nat 0%nat),
         (assignStore (assignStore highFarLowNear 0%nat 0%nat) 0%nat 1%nat).
  split; [exact (callAssignOrder_eq _ _ _ highFarLowNear_first_fits)|].
  split; [exact (callAssignOrder_eq _ _ _ highFarLowNear_second_fits)|].
  split; [unfold_model; real_fact|].
  split; [unfold_model; real_fact|].
  run_model. reflexivity.
Qed.

(** * The theorems at concrete inputs *)

Lemma eastWest_loadInvariant : loadInvariant eastWest.
Proof. intros d. cbn. split; lra. Qed.

Lemma eastWest_assignmentInvariant : assignmentInvariant eastWest.
Proof.
  unfold assignmentInvariant. cbn. repeat apply conj.
  - intros _. constructor.
  - intros _ _ _ [].
  - intros _ _ [].
  - intros [|o]; cbn; discriminate.
Qed.

Lemma capacity_invariant_witness :
  (exists res s',
      OptimizationAlgorithm.optimizeDeliveries
        0 (fun _ => 0) eastWest [0; 1]%nat [0]%nat = OK (res, s')
      /\ loadInvariant s')
  /\ (forall strategy, [0%nat] <> [] ->
      exists res s',
        OptimizationAlgorithm.applyOptimizationStrategy
          0 (fun _ => 0) eastWest [0; 1]%nat [0]%nat strategy = OK (res, s')
        /\ loadInvariant s').
Proof.
  apply (capacity_invariant 0 (fun _ => 0) eastWest [0; 1]%nat [0]%nat).
  - intros _. lra.
  - exact eastWest_loadInvariant.
Defined.

Lemma no_double_assignment_witness :
  exists res s',
    OptimizationAlgorithm.optimizeDeliveries
      0 (fun _ => 0) eastWest [0; 1]%nat [0]%nat = OK (res, s')
    /\ assignmentInvariant s' /\ assignedExactlyOnce s'.
Proof.
  destruct (no_double_assignment 0 (fun _ => 0) eastWest [0; 1]%nat [0]%nat)
    as [H _].
  - intros _. lra.
  - exact eastWest_assignmentInvariant.
  - destruct H as [H _].
    + repeat constructor; cbn; intuition discriminate.
    + intros [|o] _; reflexivity.
    + exact H.
Defined.

Lemma empty_input_witness :
  (exists res,
      OptimizationAlgorithm.optimizeDeliveries
        0 (fun _ => 0) eastWest [0; 1]%nat [] = OK (res, eastWest)
      /\ Result.success res = false
      /\ Result.assignments res = None)
  /\ (exists res,
         OptimizationAlgorithm.greedyAssignment eastWest [0; 1]%nat []
         = (res, eastWest)
         /\ Result.success res = false
         /\ Result.assignments res = Some []).
Proof.
  apply (empty_input 0 (fun _ => 0) eastWest [0; 1]%nat []).
  right. reflexivity.
Defined.

(** [reverseRouteSegment] reverses the stops between the two indices. *)
Lemma reverseRouteSegment_example (a b c d e : Point.t) :
  OptimizationAlgorithm.reverseRouteSegment [a; b; c; d; e] 1 3
  = [a; d; c; b; e].
Proof. reflexivity. Qed.

(** 2-opt at work: a route along a line that doubles back is straightened,
    from length 8 to length 6. *)
Lemma two_opt_example :
  OptimizationAlgorithm.optimizeRouteWith2Opt
    2 [Point.mk 0 0; Point.mk 2 0; Point.mk 1 0; Point.mk 3 0; Point.mk 0 0]
  = Some [Point.mk 0 0; Point.mk 1 0; Point.mk 2 0; Point.mk 3 0; Point.mk 0 0].
Proof. run_model. reflexivity. Qed.

(** * An order handed over twice *)









(** * Geometry *)

Lemma calculateDistance_nonneg (p q : Point.t) :
  0 <= Drone.calculateDistance p q.
Proof. unfold Drone.calculateDistance. cbv zeta. apply sqrt_pos. Qed.

Lemma calculateDistance_sym (p q : Point.t) :
  Drone.calculateDistance p q = Drone.calculateDistance q p.
Proof. unfold Drone.calculateDistance. cbv zeta. f_equal. ring. Qed.



(** ** The length of a route *)

Lemma sumLegs_acc (t : R) (route : list Point.t) :
  Drone.sumLegs t route = t + Drone.sumLegs 0 route.
Proof.
  revert t. induction route as [|a route IH]; intros t; cbn; [lra|].
  destruct route as [|b route]; [lra|].
  rewrite (IH (t + Drone.calculateDistance a b)).
  rewrite (IH (0 + Drone.calculateDistance a b)). lra.
Qed.

Lemma sumLegs_cons (a b : Point.t) (route : list Point.t) :
  Drone.sumLegs 0 (a :: b :: route)
  = Drone.calculateDistance a b + Drone.sumLegs 0 (b :: route).
Proof.
  change (Drone.sumLegs 0 (a :: b :: route))
    with (Drone.sumLegs (0 + Drone.calculateDistance a b) (b :: route)).
  rewrite sumLegs_acc. lra.
Qed.

Lemma sumLegs_nonneg (route : list Point.t) : 0 <= Drone.sumLegs 0 route.
Proof.
  induction route as [|a route IH]; [cbn; lra|].
  destruct route as [|b route]; [cbn; lra|].
  rewrite sumLegs_cons. pose proof (calculateDistance_nonneg a b). lra.
Qed.

Lemma last_default {A : Type} (l : list A) (a b : A) :
  l <> [] -> last l a = last l b.
Proof.
  induction l as [|c l IH]; intros H; [congruence|].
  destruct l as [|d l]; [reflexivity|].
  change (last (c :: d :: l) a) with (last (d :: l) a).
  change (last (c :: d :: l) b) with (last (d :: l) b).
  apply IH. discriminate.
Qed.

Lemma last_cons_default {A : Type} (l : list A) (a b : A) :
  last (b :: l) a = last l b.
Proof.
  destruct l as [|c l]; [reflexivity|].
  change (last (b :: c :: l) a) with (last (c :: l) a).
  apply last_default. discriminate.
Qed.

(** * Sorting *)

Section SortSorted.

Context {A : Type} (cmp : A -> A -> R).
Hypothesis cmp_total : forall a b, ~ cmp a b <= 0 -> cmp b a <= 0.
Hypothesis cmp_trans :
  forall a b c, cmp a b <= 0 -> cmp b c <= 0 -> cmp a c <= 0.

Lemma sort_insert_sorted (a : A) (l : list A) :
  StronglySorted (fun x y => cmp x y <= 0) l ->
  StronglySorted (fun x y => cmp x y <= 0) (sort_insert cmp a l).
Proof.
  induction l as [|b l IH]; intros Hs; cbn.
  - constructor; constructor.
  - inversion Hs as [|? ? Hs' Hall]; subst.
    destruct (Rle_dec (cmp a b) 0) as [Hab|Hab].
    + constructor; [exact Hs|]. constructor; [exact Hab|].
      eapply Forall_impl; [|exact Hall]. intros c Hbc. eauto.
    + constructor; [now apply IH|].
      eapply Permutation_Forall.
      * symmetry. apply sort_insert_perm.
      * constructor; [now apply cmp_total|exact Hall].
Qed.

Lemma js_sort_sorted (l : list A) :
  StronglySorted (fun x y => cmp x y <= 0) (js_sort cmp l).
Proof.
  induction l as [|a l IH]; cbn; [constructor|].
  now apply sort_insert_sorted.
Qed.

(** The sort is stable: a list already in order is returned as it is. *)
Lemma js_sort_in_order (l : list A) :
  StronglySorted (fun x y => cmp x y <= 0) l -> js_sort cmp l = l.
Proof.
  induction l as [|a l IH]; intros Hs; cbn; [reflexivity|].
  inversion Hs as [|? ? Hs' Hall]; subst.
  change (fold_right (sort_insert cmp) [] l) with (js_sort cmp l).
  rewrite IH by exact Hs'.
  destruct l as [|b l]; [reflexivity|]. cbn.
  inversion Hall; subst.
  destruct (Rle_dec (cmp a b) 0); [reflexivity|contradiction].
Qed.

End SortSorted.

Lemma StronglySorted_weaken {A : Type} (P Q : A -> A -> Prop) (l : list A) :
  (forall a b, P a b -> Q a b) -> StronglySorted P l -> StronglySorted Q l.
Proof.
  intros H. induction 1 as [|a l Hs IH Hall]; constructor; auto.
  eapply Forall_impl; [|exact Hall]. auto.
Qed.

Lemma sort_by_priority_sorted (orders : OrderHeap) (l : list oref) :
  StronglySorted (byPriority orders)
    (js_sort (fun a b => Drone.priorityOrder (Order.priority (orders b))
                         - Drone.priorityOrder (Order.priority (orders a))) l).
Proof.
  eapply StronglySorted_weaken; [|apply js_sort_sorted; intros; lra].
  intros a b H. unfold byPriority. cbv beta in H. lra.
Qed.

Lemma priority_first_comparator_sorted (now : R) (orders : OrderHeap)
    (l : list oref) :
  StronglySorted (byPriorityThenWaiting now orders)
    (js_sort
       (fun a b =>
          let priorityDiff :=
            OptimizationAlgorithm.priorityScores (Order.priority (orders b))
            - OptimizationAlgorithm.priorityScores (Order.priority (orders a)) in
          if Req_dec_T priorityDiff 0
          then Order.getWaitingTime now (orders b)
               - Order.getWaitingTime now (orders a)
          else priorityDiff) l).
Proof.
  eapply StronglySorted_weaken; [|apply js_sort_sorted].
  - intros a b H. unfold byPriorityThenWaiting. cbv beta zeta in H.
    destruct (Req_dec_T _ 0) in H; [right; split; lra|left; lra].
  - intros a b. cbv beta zeta.
    destruct (Req_dec_T _ 0), (Req_dec_T _ 0); lra.
  - intros a b c. cbv beta zeta.
    destruct (Req_dec_T _ 0), (Req_dec_T _ 0), (Req_dec_T _ 0); lra.
Qed.

(** X2. [priorityFirstOptimization] runs the greedy assignment over the
    same orders, put in order of priority (alta, media, baixa) and, within a
    priority, of waiting time, the longest wait first. *)
Theorem priority_first_order (now : R) (s : Store.t) (orders : list oref)
    (drones : list dref) :
  exists sorted,
    Permutation sorted orders
    /\ StronglySorted (byPriorityThenWaiting now (Store.orders s)) sorted
    /\ OptimizationAlgorithm.priorityFirstOptimization now s orders drones
       = OptimizationAlgorithm.greedyAssignment s sorted drones.
Proof.
  eexists. repeat apply conj; [| |reflexivity].
  - apply js_sort_perm.
  - apply priority_first_comparator_sorted.
Qed.

(** * The route of a drone *)

Lemma nth_splice1_perm {A : Type} (i : nat) (l : list A) (d : A) :
  (i < List.length l)%nat -> Permutation (nth i l d :: splice1 i l) l.
Proof.
  revert i. induction l as [|a l IH]; intros [|i] H; cbn in *; try lia.
  - reflexivity.
  - change (Permutation (nth i l d :: a :: splice1 i l) (a :: l)).
    rewrite perm_swap. constructor. apply IH. lia.
Qed.

Lemma visitLoop_shape fuel orders currentPosition unvisited route :
  (List.length unvisited <= fuel)%nat ->
  exists visited,
    Permutation visited unvisited
    /\ Drone.visitLoop fuel orders currentPosition unvisited route
       = route ++ map (Drone.deliveryStop orders) visited.
Proof.
  revert currentPosition unvisited route.
  induction fuel as [|fuel IH]; intros currentPosition unvisited route Hf.
  - destruct unvisited; [|cbn in Hf; lia].
    exists []. split; [constructor|]. cbn. now rewrite app_nil_r.
  - destruct unvisited as [|u0 rest].
    { exists []. split; [constructor|]. cbn. now rewrite app_nil_r. }
    cbn [Drone.visitLoop].
    set (i := Drone.nearestLoop orders currentPosition rest 1 0 _).
    assert (Hi : (i < List.length (u0 :: rest))%nat).
    { pose proof (nearestLoop_bound orders currentPosition rest 1 0
        (Drone.calculateDistance currentPosition
           (Order.location (orders u0)))). cbn. unfold i. lia. }
    destruct (IH (Order.location (orders (nth i (u0 :: rest) u0)))
                 (splice1 i (u0 :: rest))
                 (route ++ [Drone.deliveryStop orders (nth i (u0 :: rest) u0)]))
      as (visited & Hperm & Heq).
    { rewrite splice1_length by exact Hi. cbn in *. lia. }
    exists (nth i (u0 :: rest) u0 :: visited). split.
    + rewrite Hperm. now apply nth_splice1_perm.
    + rewrite Heq, <- app_assoc. reflexivity.
Qed.

Lemma optimizeRoute_shape (orders : OrderHeap) (this : Drone.t) :
  Drone.assignedOrders this <> [] ->
  exists visited this',
    Drone.optimizeRoute orders this
    = (Drone.baseStop this
         :: map (Drone.deliveryStop orders) visited ++ [Drone.baseStop this],
       this')
    /\ Permutation visited (Drone.assignedOrders this)
    /\ Drone.currentRoute this'
       = Drone.baseStop this
           :: map (Drone.deliveryStop orders) visited
           ++ [Drone.baseStop this]
    /\ Permutation (Drone.assignedOrders this') (Drone.assignedOrders this)
    /\ StronglySorted (byPriority orders) (Drone.assignedOrders this')
    /\ sameDroneBut this this'.
Proof.
  unfold Drone.optimizeRoute.
  intros Hne. destruct (Drone.assignedOrders this) as [|o l] eqn:E;
    [congruence|]. clear Hne.
  set (sorted := js_sort _ (o :: l)).
  destruct (visitLoop_shape (List.length sorted) orders
              (Drone.basePosition this) sorted [Drone.baseStop this]
              (Nat.le_refl _)) as (visited & Hperm & Heq).
  exists visited. eexists. split; [rewrite Heq; reflexivity|].
  repeat apply conj; try reflexivity.
  - rewrite Hperm. apply js_sort_perm.
  - apply js_sort_perm.
  - apply sort_by_priority_sorted.
Qed.

(** X3. On a drone without orders [optimizeRoute] returns the empty route
    and changes nothing.  Otherwise the route starts at the base, visits
    every assigned order exactly once and ends at the base; it is stored in
    [currentRoute]; [assignedOrders] holds the same orders, now in order of
    priority; nothing else in the drone changes. *)
Theorem optimizeRoute_visits_every_order (orders : OrderHeap) (this : Drone.t) :
  (Drone.assignedOrders this = [] ->
   Drone.optimizeRoute orders this = ([], this))
  /\ (Drone.assignedOrders this <> [] ->
      exists visited this',
        Drone.optimizeRoute orders this
        = (Drone.baseStop this
             :: map (Drone.deliveryStop orders) visited ++ [Drone.baseStop this],
           this')
        /\ Permutation visited (Drone.assignedOrders this)
        /\ Drone.currentRoute this'
           = Drone.baseStop this
               :: map (Drone.deliveryStop orders) visited
               ++ [Drone.baseStop this]
        /\ Permutation (Drone.assignedOrders this') (Drone.assignedOrders this)
        /\ StronglySorted (byPriority orders) (Drone.assignedOrders this')
        /\ sameDroneBut this this').
Proof.
  split.
  - unfold Drone.optimizeRoute. intros ->. reflexivity.
  - apply optimizeRoute_shape.
Qed.

Lemma point_eta (p : Point.t) : Point.mk (Point.x p) (Point.y p) = p.
Proof. now destruct p. Qed.

Lemma route_points (orders : OrderHeap) (this : Drone.t) (visited : list oref) :
  map RouteStop.point
      (Drone.baseStop this
         :: map (Drone.deliveryStop orders) visited ++ [Drone.baseStop this])
  = Drone.basePosition this
      :: map (fun o => Order.location (orders o)) visited
      ++ [Drone.basePosition this].
Proof.
  cbn [map]. rewrite map_app, map_map. cbn [map].
  unfold RouteStop.point, Drone.baseStop, Drone.deliveryStop. cbn.
  rewrite point_eta. f_equal. f_equal.
  apply map_ext. intros o. apply point_eta.
Qed.

(** X4. A drone that rests at its base without orders and accepts one
    order plans a route within its range: the route base, order, base is
    exactly as long as the round trip that [canCarryOrder] compared with
    the range.  (With two orders it need not be.) *)
Theorem single_order_route_within_range (s : Store.t) (d : dref) (o : oref)
    (s1 : Store.t) :
  Drone.assignedOrders (Store.drones s d) = [] ->
  Drone.position (Store.drones s d) = Drone.basePosition (Store.drones s d) ->
  callAssignOrder s d o = (true, s1) ->
  Drone.calculateRouteDistance (Store.drones (snd (callOptimizeRoute s1 d)) d)
  = Drone.calculateDistance (Drone.basePosition (Store.drones s d))
                            (Order.location (Store.orders s o))
    + Drone.calculateDistance (Order.location (Store.orders s o))
                              (Drone.basePosition (Store.drones s d))
  /\ Drone.calculateRouteDistance
       (Store.drones (snd (callOptimizeRoute s1 d)) d)
     <= Drone.range (Store.drones s d).
Proof.
  intros Hempty Hpos Hstep.
  apply callAssignOrder_true in Hstep as [Hcan ->].
  assert (Hreach :
    Drone.calculateDistance (Drone.basePosition (Store.drones s d))
                            (Order.location (Store.orders s o))
    + Drone.calculateDistance (Order.location (Store.orders s o))
                              (Drone.basePosition (Store.drones s d))
    <= Drone.range (Store.drones s d)).
  { unfold Drone.canCarryOrder in Hcan. cbv zeta in Hcan.
    rewrite !andb_true_iff, !Rleb_true_iff, Hpos in Hcan. tauto. }
  set (orders1 := upd (Store.orders s) o
                      (Order.set_assigned (Store.orders s o)
                                          (Drone.id (Store.drones s d)))).
  set (this1 := Drone.push_order (Store.drones s d) o
                                 (Order.weight (Store.orders s o))).
  assert (Hlist : Drone.assignedOrders this1 = [o])
    by (unfold this1; cbn; now rewrite Hempty).
  destruct (optimizeRoute_shape orders1 this1)
    as (visited & this' & Heq & Hvis & Hroute & _).
  { rewrite Hlist. discriminate. }
  rewrite Hlist in Hvis. symmetry in Hvis.
  apply Permutation_length_1_inv in Hvis. subst visited.
  assert (Hlen : Drone.calculateRouteDistance this'
                 = Drone.calculateDistance
                     (Drone.basePosition (Store.drones s d))
                     (Order.location (Store.orders s o))
                   + Drone.calculateDistance
                       (Order.location (Store.orders s o))
                       (Drone.basePosition (Store.drones s d))).
  { unfold Drone.calculateRouteDistance. rewrite Hroute, route_points.
    cbn. unfold orders1. rewrite upd_same. cbn. lra. }
  unfold callOptimizeRoute. cbn [Store.orders Store.drones].
  rewrite upd_same. fold orders1 this1. rewrite Heq. cbn [snd Store.drones].
  rewrite upd_same, Hlen. split; [reflexivity|exact Hreach].
Qed.

Lemma callOptimizeRoute_store s d :
  exists this',
    snd (callOptimizeRoute s d)
    = Store.mk (Store.orders s) (upd (Store.drones s) d this')
    /\ Permutation (Drone.assignedOrders this')
                   (Drone.assignedOrders (Store.drones s d))
    /\ sameDroneBut (Store.drones s d) this'.
Proof.
  unfold callOptimizeRoute.
  destruct (Drone.assignedOrders (Store.drones s d)) as [|o l] eqn:E.
  - unfold Drone.optimizeRoute. rewrite E. cbn.
    exists (Store.drones s d). rewrite E.
    repeat apply conj; try reflexivity.
  - destruct (optimizeRoute_shape (Store.orders s) (Store.drones s d))
      as (visited & this' & Heq & _ & _ & Hperm & _ & Hsame);
      [rewrite E; discriminate|].
    rewrite Heq. cbn. exists this'. rewrite <- E. auto.
Qed.

(** X5. Planning a route changes no order and, in the drones, neither a
    load nor a capacity nor which orders a drone holds; every assigned
    order is still listed by exactly the drone it names. *)
Theorem optimizeRoute_keeps_assignments (s : Store.t) (d : dref) :
  Store.orders (snd (callOptimizeRoute s d)) = Store.orders s
  /\ (forall d',
        Drone.currentLoad (Store.drones (snd (callOptimizeRoute s d)) d')
        = Drone.currentLoad (Store.drones s d')
        /\ Drone.capacity (Store.drones (snd (callOptimizeRoute s d)) d')
           = Drone.capacity (Store.drones s d')
        /\ Permutation
             (Drone.assignedOrders
                (Store.drones (snd (callOptimizeRoute s d)) d'))
             (Drone.assignedOrders (Store.drones s d')))
  /\ (assignmentInvariant s ->
      assignmentInvariant (snd (callOptimizeRoute s d))).
Proof.
  destruct (callOptimizeRoute_store s d) as (this' & -> & Hperm & Hsame).
  unfold sameDroneBut in Hsame.
  destruct Hsame as (Hid & Hcap & _ & Hload & _).
  assert (Hlist : forall d' o,
    In o (Drone.assignedOrders (upd (Store.drones s) d this' d'))
    <-> In o (Drone.assignedOrders (Store.drones s d'))).
  { intros d' o. unfold upd. destruct (Nat.eqb d' d) eqn:E; [|tauto].
    apply Nat.eqb_eq in E as ->. split; intros H.
    - eapply Permutation_in; eauto.
    - eapply Permutation_in; [symmetry|]; eauto. }
  split; [reflexivity|]. split.
  - intros d'. cbn. unfold upd. destruct (Nat.eqb d' d) eqn:E.
    + apply Nat.eqb_eq in E as ->. auto.
    + auto.
  - intros (Hnd & Huniq & Hlisted & Hassigned).
    unfold assignmentInvariant. cbn. repeat apply conj.
    + intros d'. unfold upd. destruct (Nat.eqb d' d) eqn:E; [|apply Hnd].
      apply Nat.eqb_eq in E as ->.
      eapply Permutation_NoDup; [symmetry; exact Hperm|apply Hnd].
    + intros d1 d2 o H1 H2. apply Hlist in H1, H2. eauto.
    + intros d' o Hin. apply Hlist in Hin. apply Hlisted in Hin as [Hs Hd].
      split; [exact Hs|]. rewrite Hd. f_equal. unfold upd.
      destruct (Nat.eqb d' d) eqn:E; [|reflexivity].
      apply Nat.eqb_eq in E as ->. now rewrite Hid.
    + intros o Ho. destruct (Hassigned o Ho) as [d' Hd'].
      exists d'. now apply Hlist.
Qed.

(** * 2-opt: what the returned route is *)

Lemma set_nth_app_r {A : Type} (l1 l2 : list A) (i : nat) (v : A) :
  set_nth (List.length l1 + i) v (l1 ++ l2) = l1 ++ set_nth i v l2.
Proof. induction l1 as [|a l1 IH]; cbn; [reflexivity|]. now rewrite IH. Qed.

Lemma nth_error_app_r {A : Type} (l1 l2 : list A) (i : nat) :
  nth_error (l1 ++ l2) (List.length l1 + i) = nth_error l2 i.
Proof. induction l1 as [|a l1 IH]; cbn; auto. Qed.

Lemma reverseLoop_rev (fuel : nat) :
  forall (seg l1 l3 : list Point.t),
    (List.length seg - 1 <= fuel)%nat ->
    OptimizationAlgorithm.reverseLoop
      fuel (l1 ++ seg ++ l3) (List.length l1)
      (List.length l1 + List.length seg - 1)
    = l1 ++ rev seg ++ l3.
Proof.
  induction fuel as [|fuel IH]; intros seg l1 l3 Hf.
  - cbn [OptimizationAlgorithm.reverseLoop].
    destruct seg as [|a [|b seg]]; cbn in Hf; try lia; reflexivity.
  - cbn [OptimizationAlgorithm.reverseLoop].
    destruct seg as [|a seg].
    { cbn [List.length]. destruct (Nat.ltb_spec (List.length l1)
                                     (List.length l1 + 0 - 1)); [lia|].
      reflexivity. }
    destruct (exists_last (l := a :: seg)) as (mid' & b & Hseg);
      [discriminate|].
    destruct mid' as [|a' mid].
    { cbn in Hseg. inversion Hseg; subst. cbn [List.length].
      destruct (Nat.ltb_spec (List.length l1) (List.length l1 + 1 - 1));
        [lia|]. reflexivity. }
    cbn in Hseg. inversion Hseg as [[Ha Hs]]. subst a' seg. clear Hseg.
    cbn [List.length]. rewrite length_app. cbn [List.length].
    destruct (Nat.ltb_spec (List.length l1)
                (List.length l1 + S (List.length mid + 1) - 1)) as [_|Hge];
      [|lia].
    replace (List.length l1 + S (List.length mid + 1) - 1)%nat
      with (List.length l1 + S (List.length mid))%nat by lia.
    assert (E1 : nth_error (l1 ++ (a :: mid ++ [b]) ++ l3) (List.length l1)
                 = Some a).
    { rewrite <- (Nat.add_0_r (List.length l1)). now rewrite nth_error_app_r. }
    assert (E2 : nth_error (l1 ++ (a :: mid ++ [b]) ++ l3)
                           (List.length l1 + S (List.length mid)) = Some b).
    { rewrite nth_error_app_r. cbn [nth_error app]. rewrite <- app_assoc.
      rewrite <- (Nat.add_0_r (List.length mid)). now rewrite nth_error_app_r. }
    assert (E3 : set_nth (List.length l1 + S (List.length mid)) a
                   (set_nth (List.length l1) b
                            (l1 ++ (a :: mid ++ [b]) ++ l3))
                 = (l1 ++ [b]) ++ mid ++ (a :: l3)).
    { rewrite <- (Nat.add_0_r (List.length l1)) at 2.
      rewrite set_nth_app_r. cbn [set_nth app].
      rewrite set_nth_app_r. cbn [set_nth]. rewrite <- !app_assoc.
      cbn [app]. f_equal. f_equal.
      rewrite <- (Nat.add_0_r (List.length mid)) at 1.
      now rewrite set_nth_app_r. }
    rewrite E1, E2, E3.
    replace (S (List.length l1)) with (List.length (l1 ++ [b]))
      by (rewrite length_app; cbn; lia).
    replace (Nat.pred (List.length l1 + S (List.length mid)))
      with (List.length (l1 ++ [b]) + List.length mid - 1)%nat
      by (rewrite length_app; cbn; lia).
    rewrite IH.
    + cbn [rev]. rewrite rev_app_distr. cbn [rev app].
      rewrite <- !app_assoc. reflexivity.
    + cbn in Hf. rewrite length_app in Hf. cbn in Hf. lia.
Qed.

Lemma segment_split {A : Type} (l : list A) (i j : nat) :
  (i <= j < List.length l)%nat ->
  l = firstn i l ++ firstn (S j - i) (skipn i l) ++ skipn (S j) l
  /\ List.length (firstn i l) = i
  /\ List.length (firstn (S j - i) (skipn i l)) = (S j - i)%nat.
Proof.
  intros H. repeat apply conj.
  - rewrite <- (firstn_skipn i l) at 1. f_equal.
    rewrite <- (firstn_skipn (S j - i) (skipn i l)) at 1. f_equal.
    rewrite skipn_skipn. f_equal. lia.
  - rewrite length_firstn. lia.
  - rewrite length_firstn, length_skipn. lia.
Qed.

Lemma reverseRouteSegment_rev (route : list Point.t) (i j : nat) :
  (i <= j < List.length route)%nat ->
  OptimizationAlgorithm.reverseRouteSegment route i j
  = firstn i route ++ rev (firstn (S j - i) (skipn i route))
    ++ skipn (S j) route.
Proof.
  intros H. destruct (segment_split route i j H) as (Hsplit & Hl1 & Hseg).
  unfold OptimizationAlgorithm.reverseRouteSegment.
  pose proof (reverseLoop_rev (j - i) (firstn (S j - i) (skipn i route))
                (firstn i route) (skipn (S j) route)) as Hrev.
  rewrite Hl1, Hseg in Hrev.
  replace (i + (S j - i) - 1)%nat with j in Hrev by lia.
  rewrite <- Hsplit in Hrev. apply Hrev. lia.
Qed.

(** X6. [reverseRouteSegment(route, start, end)], for indices inside the
    route, reverses the stops from [start] to [end] and leaves the stops
    before and after where they are. *)
Theorem reverseRouteSegment_reverses (route : list Point.t) (start end_ : nat) :
  (start <= end_ < List.length route)%nat ->
  OptimizationAlgorithm.reverseRouteSegment route start end_
  = firstn start route ++ rev (firstn (S end_ - start) (skipn start route))
    ++ skipn (S end_) route.
Proof.
  intros H.
  destruct (segment_split route start end_ H) as (Hsplit & Hbefore & Hseg).
  unfold OptimizationAlgorithm.reverseRouteSegment.
  pose proof (reverseLoop_rev (end_ - start)
                (firstn (S end_ - start) (skipn start route))
                (firstn start route) (skipn (S end_) route)) as Hrev.
  rewrite Hbefore, Hseg in Hrev.
  replace (start + (S end_ - start) - 1)%nat with end_ in Hrev by lia.
  rewrite <- Hsplit in Hrev. apply Hrev. lia.
Qed.

Lemma hd_error_app {A : Type} (l l' : list A) :
  l <> [] -> hd_error (l ++ l') = hd_error l.
Proof. destruct l; [congruence|reflexivity]. Qed.

Lemma sameStops_refl (a : list Point.t) : sameStops a a.
Proof. repeat split; reflexivity. Qed.

Lemma sameStops_trans (a b c : list Point.t) :
  sameStops a b -> sameStops b c -> sameStops a c.
Proof.
  intros (H1 & H2 & H3) (H4 & H5 & H6). repeat split; try congruence.
  now rewrite H1.
Qed.

Lemma reverseRouteSegment_sameStops (route : list Point.t) (i j : nat) :
  (1 <= i)%nat -> (i <= j)%nat -> (S j < List.length route)%nat ->
  sameStops (OptimizationAlgorithm.reverseRouteSegment route i j) route.
Proof.
  intros Hi Hij Hj.
  rewrite reverseRouteSegment_rev by lia.
  destruct (segment_split route i j) as (Hsplit & Hl1 & Hseg); [lia|].
  set (l1 := firstn i route) in *.
  set (seg := firstn (S j - i) (skipn i route)) in *.
  set (l3 := skipn (S j) route) in *.
  assert (Hl1ne : l1 <> []) by (intros E; rewrite E in Hl1; cbn in Hl1; lia).
  assert (Hl3ne : rev l3 <> []).
  { intros E. apply (f_equal (@List.length _)) in E.
    rewrite length_rev in E. unfold l3 in E. rewrite length_skipn in E.
    cbn in E. lia. }
  clearbody l1 seg l3. subst route. repeat split.
  - apply Permutation_app_head, Permutation_app_tail.
    symmetry. apply Permutation_rev.
  - now rewrite !hd_error_app.
  - rewrite !rev_app_distr, <- !app_assoc. now rewrite !hd_error_app.
Qed.

Lemma fold_invariant_in {A B : Type} (P : A -> Prop) (f : A -> B -> A)
    (l : list B) (a : A) :
  (forall a b, In b l -> P a -> P (f a b)) -> P a -> P (fold_left f l a).
Proof.
  revert a. induction l as [|b l IH]; intros a Hf Ha; cbn; [exact Ha|].
  apply IH.
  - intros a' b' Hb'. apply Hf. now right.
  - apply Hf; [now left|exact Ha].
Qed.

Lemma scanPairs_sameStops route st :
  sameStops (fst (fst st)) route ->
  sameStops (fst (fst (OptimizationAlgorithm.scanPairs route st))) route.
Proof.
  intros H. unfold OptimizationAlgorithm.scanPairs.
  apply fold_invariant_in; [|exact H].
  intros st1 i Hi Hst1. apply in_seq in Hi.
  apply fold_invariant_in; [|exact Hst1].
  intros st2 j Hj Hst2. apply in_seq in Hj.
  unfold OptimizationAlgorithm.tryReversal.
  destruct (Rlt_dec _ _); [|exact Hst2]. cbn [fst].
  apply reverseRouteSegment_sameStops; lia.
Qed.

Lemma whileImproved_sameStops fuel route d r :
  OptimizationAlgorithm.whileImproved fuel route route d = Some r ->
  sameStops r route.
Proof.
  revert route d. induction fuel as [|fuel IH]; intros route d; cbn;
    [discriminate|].
  pose proof (scanPairs_sameStops route (route, d, false)
                (sameStops_refl route)) as Hscan.
  destruct (OptimizationAlgorithm.scanPairs route (route, d, false))
    as [[b d'] improved]. cbn in Hscan.
  destruct improved.
  - intros H. apply IH in H. eapply sameStops_trans; eauto.
  - intros H. inversion H; subst. exact Hscan.
Qed.

(** X7. Whatever [optimizeRouteWith2Opt] returns holds the stops of the
    path it was given, each as often as before, with the first and the last
    stop (the two visits of the base) where they were. *)
Theorem two_opt_keeps_stops (fuel : nat) (path r : list Point.t) :
  OptimizationAlgorithm.optimizeRouteWith2Opt fuel path = Some r ->
  Permutation r path
  /\ hd_error r = hd_error path
  /\ last r (Point.mk 0 0) = last path (Point.mk 0 0).
Proof.
  unfold OptimizationAlgorithm.optimizeRouteWith2Opt.
  intros H.
  assert (Hs : sameStops r path).
  { destruct (Nat.ltb (List.length path) 4).
    - inversion H; subst. apply sameStops_refl.
    - eapply whileImproved_sameStops; eauto. }
  destruct Hs as (Hp & Hh & Hl). repeat split; auto.
  assert (Hlast : forall l : list Point.t,
            last l (Point.mk 0 0)
            = match hd_error (rev l) with Some p => p | None => Point.mk 0 0 end).
  { intros l. destruct l as [|a l] using rev_ind; [reflexivity|].
    rewrite last_last, rev_app_distr. reflexivity. }
  now rewrite !Hlast, Hl.
Qed.

(** ** 2-opt returns a local optimum *)

Lemma fold_unchanged {A B : Type} (bad : A -> Prop) (f : A -> B -> A)
    (l : list B) (a : A) :
  (forall a b, bad a -> bad (f a b)) ->
  (forall a b, In b l -> f a b = a \/ bad (f a b)) ->
  ~ bad (fold_left f l a) ->
  fold_left f l a = a /\ forall b, In b l -> f a b = a.
Proof.
  intros Hsticky. revert a. induction l as [|b l IH]; intros a Hstep Hfinal.
  - cbn. split; [reflexivity|intros ? []].
  - cbn in *. destruct (Hstep a b (or_introl eq_refl)) as [E|Hbad].
    + rewrite E in *. destruct (IH a) as [Hf Hall]; auto.
      split; [exact Hf|]. intros b' [<-|Hb']; auto.
    + exfalso. apply Hfinal. clear -Hsticky Hbad.
      revert Hbad. generalize (f a b). induction l as [|c l IH]; intros a' H;
        cbn; auto.
Qed.

Lemma tryReversal_cases route i j st :
  OptimizationAlgorithm.tryReversal route i j st = st
  \/ snd (OptimizationAlgorithm.tryReversal route i j st) = true.
Proof.
  unfold OptimizationAlgorithm.tryReversal.
  destruct (Rlt_dec _ _); [right; reflexivity|left; reflexivity].
Qed.

Lemma tryReversal_sticky route i j st :
  snd st = true -> snd (OptimizationAlgorithm.tryReversal route i j st) = true.
Proof.
  intros H. destruct (tryReversal_cases route i j st) as [->|E]; auto.
Qed.

Lemma scanPairs_no_improvement route d st' :
  OptimizationAlgorithm.scanPairs route (route, d, false) = st' ->
  snd st' = false ->
  forall i j,
    (1 <= i)%nat -> (i < j)%nat -> (S j < List.length route)%nat ->
    ~ OptimizationAlgorithm.calculateRouteDistance
        (OptimizationAlgorithm.reverseRouteSegment route i j) < d.
Proof.
  intros Hscan Hfalse i j Hi Hij Hj.
  unfold OptimizationAlgorithm.scanPairs in Hscan.
  set (inner := fun (st : list Point.t * R * bool) (i : nat) =>
         fold_left (fun st j => OptimizationAlgorithm.tryReversal route i j st)
                   (seq (i + 1) (List.length route - 1 - (i + 1))) st) in *.
  assert (Hinner_sticky : forall st i, snd st = true -> snd (inner st i) = true).
  { intros st i0 H. unfold inner. apply fold_invariant; [|exact H].
    intros. now apply tryReversal_sticky. }
  assert (Hinner_cases : forall st i,
            inner st i = st \/ snd (inner st i) = true).
  { intros st i0. destruct (snd (inner st i0)) eqn:E; [now right|left].
    unfold inner in *.
    apply (fold_unchanged (fun st => snd st = true)
             (fun st j => OptimizationAlgorithm.tryReversal route i0 j st)).
    - intros. now apply tryReversal_sticky.
    - intros. apply tryReversal_cases.
    - congruence. }
  destruct (fold_unchanged (fun st => snd st = true) inner
              (seq 1 (List.length route - 2 - 1)) (route, d, false))
    as [_ Hall]; auto.
  { rewrite Hscan. congruence. }
  assert (Hi_in : In i (seq 1 (List.length route - 2 - 1)))
    by (apply in_seq; lia).
  specialize (Hall i Hi_in). unfold inner in Hall.
  destruct (fold_unchanged (fun st => snd st = true)
              (fun st j => OptimizationAlgorithm.tryReversal route i j st)
              (seq (i + 1) (List.length route - 1 - (i + 1)))
              (route, d, false)) as [_ Hj_all].
  - intros. now apply tryReversal_sticky.
  - intros. apply tryReversal_cases.
  - rewrite Hall. cbn. congruence.
  - assert (Hj_in : In j (seq (i + 1) (List.length route - 1 - (i + 1))))
      by (apply in_seq; lia).
    specialize (Hj_all j Hj_in).
    unfold OptimizationAlgorithm.tryReversal in Hj_all. cbn [fst snd] in Hj_all.
    destruct (Rlt_dec _ d); [discriminate|assumption].
Qed.

Lemma whileImproved_fixpoint fuel route r :
  OptimizationAlgorithm.whileImproved
    fuel route route (OptimizationAlgorithm.calculateRouteDistance route)
  = Some r ->
  snd (OptimizationAlgorithm.scanPairs
         r (r, OptimizationAlgorithm.calculateRouteDistance r, false)) = false.
Proof.
  revert route. induction fuel as [|fuel IH]; intros route; cbn;
    [discriminate|].
  pose proof (scanPairs_invariant route
    (route, OptimizationAlgorithm.calculateRouteDistance route, false)
    eq_refl) as Hscan.
  destruct (OptimizationAlgorithm.scanPairs route
    (route, OptimizationAlgorithm.calculateRouteDistance route, false))
    as [[b d] improved] eqn:Es.
  destruct Hscan as [[Himp Heq]|(Himp & Hd & _)]; cbn in *; subst improved.
  - intros H. inversion H; subst. inversion Heq; subst. now rewrite Es.
  - subst d. apply IH.
Qed.

(** X8. The route that [optimizeRouteWith2Opt] returns for a path of four
    stops or more is a local optimum: reversing any stretch of inner stops
    does not make it shorter. *)
Theorem two_opt_local_optimum (fuel : nat) (path r : list Point.t) (i j : nat) :
  OptimizationAlgorithm.optimizeRouteWith2Opt fuel path = Some r ->
  (4 <= List.length path)%nat ->
  (1 <= i)%nat -> (i < j)%nat -> (S j < List.length r)%nat ->
  OptimizationAlgorithm.calculateRouteDistance r
  <= OptimizationAlgorithm.calculateRouteDistance
       (OptimizationAlgorithm.reverseRouteSegment r i j).
Proof.
  unfold OptimizationAlgorithm.optimizeRouteWith2Opt.
  intros H Hlen Hi Hij Hj.
  destruct (Nat.ltb_spec (List.length path) 4); [lia|].
  apply whileImproved_fixpoint in H.
  apply Rnot_lt_le.
  eapply scanPairs_no_improvement; eauto.
Qed.

(** * Clustering for any number of clusters *)

(** X9. For any orders and any [k >= 1], with [Math.random] answering in
    [0, 1), [clusterOrdersByDistance] returns clusters of which none is
    empty, which hold every order exactly once, and of which there are at
    most [k] and at most as many as there are orders. *)
Theorem clustering_partitions (rnd : nat -> R) (s : Store.t)
    (orders : list oref) (k : nat) :
  (1 <= k)%nat ->
  (forall j, 0 <= rnd j < 1) ->
  exists clusters,
    OptimizationAlgorithm.clusterOrdersByDistance rnd s orders k = OK clusters
    /\ Forall (fun c => c <> []) clusters
    /\ Permutation (concat clusters) orders
    /\ (List.length clusters <= Nat.min k (List.length orders))%nat.
Proof.
  intros Hk Hr.
  destruct (clusterOrdersByDistance_total rnd s orders k Hr Hk)
    as [clusters H].
  exists clusters. split; [exact H|].
  pose proof H as H'.
  apply clusterOrdersByDistance_OK in H as (Hne & Hperm & Hlen).
  repeat apply conj; auto.
  assert (Hn : (List.length clusters <= List.length orders)%nat).
  { rewrite <- (Permutation_length Hperm). clear -Hne.
    induction Hne as [|c cl Hc _ IH]; cbn; [lia|].
    rewrite length_app. destruct c; [congruence|cbn; lia]. }
  destruct (Nat.le_gt_cases (List.length orders) k); [lia|].
  specialize (Hlen ltac:(lia)). lia.
Qed.

(** X10. Asked for no cluster while there are orders,
    [clusterOrdersByDistance] throws: it reads [centroids[0].x] in an empty
    array.  So does [distanceOptimization], and the strategy
    "distance_optimization", when handed orders and no drone. *)
Theorem clustering_without_drone_throws (now : R) (rnd : nat -> R)
    (s : Store.t) (orders : list oref) :
  orders <> [] ->
  OptimizationAlgorithm.clusterOrdersByDistance rnd s orders 0 = TypeError
  /\ OptimizationAlgorithm.distanceOptimization rnd s orders [] = TypeError
  /\ OptimizationAlgorithm.applyOptimizationStrategy
       now rnd s orders [] "distance_optimization" = TypeError.
Proof.
  intros Hne.
  assert (H : OptimizationAlgorithm.clusterOrdersByDistance rnd s orders 0
              = TypeError).
  { destruct orders as [|o rest]; [congruence|]. reflexivity. }
  repeat apply conj.
  - exact H.
  - unfold OptimizationAlgorithm.distanceOptimization. cbn [List.length].
    now rewrite H.
  - unfold OptimizationAlgorithm.applyOptimizationStrategy.
    cbn [String.eqb Ascii.eqb Bool.eqb].
    unfold OptimizationAlgorithm.distanceOptimization. cbn [List.length].
    now rewrite H.
Qed.

(** * What the engine leaves alone *)

Lemma dronesOutside_refl D s : dronesOutside D s s.
Proof. intros d _. reflexivity. Qed.

Lemma dronesOutside_trans D s1 s2 s3 :
  dronesOutside D s1 s2 -> dronesOutside D s2 s3 -> dronesOutside D s1 s3.
Proof. intros H1 H2 d Hd. rewrite H2, H1; auto. Qed.

Lemma dronesOutside_incl D D' s s' :
  incl D D' -> dronesOutside D s s' -> dronesOutside D' s s'.
Proof. intros Hi H d Hd. apply H. intros Hin. apply Hd. now apply Hi. Qed.

Lemma callAssignOrder_dronesOutside s d o ok s' :
  callAssignOrder s d o = (ok, s') -> dronesOutside [d] s s'.
Proof.
  destruct ok; intros H.
  - apply callAssignOrder_true in H as [_ ->]. intros d' Hd'. cbn.
    apply upd_other. intros ->. apply Hd'. now left.
  - apply callAssignOrder_false in H as ->. apply dronesOutside_refl.
Qed.

Lemma bestDroneLoop_Some_stays s order l best score :
  best <> None ->
  OptimizationAlgorithm.bestDroneLoop s order l best score <> None.
Proof.
  revert best score. induction l as [|d l IH]; intros best score Hb; cbn;
    [exact Hb|].
  destruct (Drone.canCarryOrder _ _); [|now apply IH].
  destruct (Rlt_dec score _); apply IH; [discriminate|exact Hb].
Qed.

(** The drone that the inner loop of [greedyAssignment] picks is one of the
    available drones and can carry the order. *)
Lemma bestDroneLoop_picks s order l score d :
  OptimizationAlgorithm.bestDroneLoop s order l None score = Some d ->
  In d l
  /\ Drone.canCarryOrder (Store.drones s d) (Store.orders s order) = true.
Proof.
  assert (H : forall l best score d,
    OptimizationAlgorithm.bestDroneLoop s order l best score = Some d ->
    (best = Some d
     \/ (In d l
         /\ Drone.canCarryOrder (Store.drones s d) (Store.orders s order)
            = true))).
  { clear. induction l as [|d0 l IH]; intros best score d; cbn.
    - intros ->. now left.
    - destruct (Drone.canCarryOrder _ _) eqn:Hc.
      + destruct (Rlt_dec score _); intros H; apply IH in H.
        * destruct H as [E|[Hin Hcan]]; right.
          -- inversion E; subst. auto.
          -- auto.
        * destruct H as [E|[Hin Hcan]]; auto.
      + intros H. apply IH in H. destruct H as [E|[Hin Hcan]]; auto. }
  intros Hb. apply H in Hb as [E|Hb]; [discriminate|exact Hb].
Qed.

Lemma greedyLoop_dronesOutside availableDrones orders s a c s' a' c' :
  OptimizationAlgorithm.greedyLoop availableDrones orders s a c = (s', a', c') ->
  dronesOutside availableDrones s s'.
Proof.
  revert s a c. induction orders as [|order rest IH]; intros s a c; cbn.
  - intros H; inversion H; subst. apply dronesOutside_refl.
  - destruct (negb _); [apply IH|].
    destruct (OptimizationAlgorithm.bestDroneLoop s order availableDrones
                None (-1)) as [bestDrone|] eqn:Hb; [|apply IH].
    apply bestDroneLoop_picks in Hb as [Hin _].
    destruct (callAssignOrder s bestDrone order) as [ok s1] eqn:Hcall.
    apply callAssignOrder_dronesOutside in Hcall.
    assert (H1 : dronesOutside availableDrones s s1).
    { eapply dronesOutside_incl; [|exact Hcall].
      intros d [<-|[]]. exact Hin. }
    destruct ok; intros H; apply IH in H;
      eapply dronesOutside_trans; eauto.
Qed.

Lemma is_idle_iff s d :
  OptimizationAlgorithm.is_idle s d = true
  <-> Drone.status (Store.drones s d) = idle.
Proof.
  unfold OptimizationAlgorithm.is_idle.
  destruct (Drone.status (Store.drones s d)); cbn; split; congruence.
Qed.

(** X11. One pass of [greedyAssignment] changes no drone that is outside
    the list it is given or that is not idle, and no order that is outside
    the list or that is not pending. *)
Theorem greedyAssignment_touches_only_idle_and_pending (s : Store.t)
    (orders : list oref) (drones : list dref) (res : Result.t) (s' : Store.t) :
  OptimizationAlgorithm.greedyAssignment s orders drones = (res, s') ->
  (forall d,
      ~ In d drones \/ Drone.status (Store.drones s d) <> idle ->
      Store.drones s' d = Store.drones s d)
  /\ (forall o,
         ~ In o orders \/ Order.status (Store.orders s o) <> pending ->
         Store.orders s' o = Store.orders s o).
Proof.
  intros H. split.
  - unfold OptimizationAlgorithm.greedyAssignment in H.
    destruct (OptimizationAlgorithm.greedyLoop _ orders s [] 0)
      as [[s1 a1] c1] eqn:Hloop.
    inversion H; subst. apply greedyLoop_dronesOutside in Hloop.
    intros d Hd. apply Hloop. intros Hin. apply filter_In in Hin as [Hin Hidle].
    apply is_idle_iff in Hidle. tauto.
  - apply greedyAssignment_run in H as (l & Hrun & Hincl & _ & Hpend).
    intros o Ho. eapply run_orders_frame; [exact Hrun|].
    intros Hin. destruct Ho as [Ho|Ho]; [apply Ho; now apply Hincl|].
    apply Ho. now apply Hpend.
Qed.

(** ** Every strategy *)

Lemma assignCombination_dronesOutside drone comb s pend s' pend' :
  OptimizationAlgorithm.assignCombination drone comb s pend = (s', pend') ->
  dronesOutside [drone] s s'.
Proof.
  revert s pend. induction comb as [|order rest IH]; intros s pend; cbn.
  - intros H; inversion H; subst. apply dronesOutside_refl.
  - destruct (callAssignOrder s drone order) as [ok s1] eqn:Hcall.
    apply callAssignOrder_dronesOutside in Hcall.
    destruct ok; intros H; apply IH in H; eapply dronesOutside_trans; eauto.
Qed.

Lemma capacityLoop_dronesOutside now availableDrones s pend a s' a' :
  OptimizationAlgorithm.capacityLoop now availableDrones s pend a = (s', a') ->
  dronesOutside availableDrones s s'.
Proof.
  revert s pend a. induction availableDrones as [|drone rest IH];
    intros s pend a; cbn.
  - intros H; inversion H; subst. apply dronesOutside_refl.
  - match goal with |- context [if ?c then _ else _] => destruct c end.
    + destruct (OptimizationAlgorithm.assignCombination _ _ s pend)
        as [s1 pend1] eqn:Hcomb.
      apply assignCombination_dronesOutside in Hcomb.
      intros H. apply IH in H. eapply dronesOutside_trans.
      * eapply dronesOutside_incl; [|exact Hcomb]. intros d [<-|[]]. now left.
      * eapply dronesOutside_incl; [|exact H]. now apply incl_tl.
    + intros H. apply IH in H.
      eapply dronesOutside_incl; [|exact H]. now apply incl_tl.
Qed.

Lemma assignCluster_dronesOutside drone cluster s acc s' acc' :
  OptimizationAlgorithm.assignCluster drone cluster s acc = (s', acc') ->
  dronesOutside [drone] s s'.
Proof.
  revert s acc. induction cluster as [|order rest IH]; intros s acc; cbn.
  - intros H; inversion H; subst. apply dronesOutside_refl.
  - destruct (Drone.canCarryOrder _ _); [|apply IH].
    destruct (callAssignOrder s drone order) as [ok s1] eqn:Hcall.
    apply callAssignOrder_dronesOutside in Hcall.
    destruct ok; intros H; apply IH in H; eapply dronesOutside_trans; eauto.
Qed.

Lemma distanceLoop_dronesOutside clusters drones s a s' a' :
  OptimizationAlgorithm.distanceLoop clusters drones s a = (s', a') ->
  dronesOutside drones s s'.
Proof.
  revert drones s a. induction clusters as [|cluster clusters IH];
    intros drones s a; cbn.
  - intros H; inversion H; subst. apply dronesOutside_refl.
  - destruct drones as [|drone drones].
    { intros H; inversion H; subst. apply dronesOutside_refl. }
    destruct (OptimizationAlgorithm.assignCluster drone _ s [])
      as [s1 assignedOrders] eqn:Hc.
    apply assignCluster_dronesOutside in Hc.
    assert (Hrest : forall a0,
      OptimizationAlgorithm.distanceLoop clusters drones s1 a0 = (s', a') ->
      dronesOutside (drone :: drones) s s').
    { intros a0 H. apply IH in H. eapply dronesOutside_trans.
      - eapply dronesOutside_incl; [|exact Hc]. intros d [<-|[]]. now left.
      - eapply dronesOutside_incl; [|exact H]. now apply incl_tl. }
    match goal with |- context [if ?c then _ else _] => destruct c end;
      apply Hrest.
Qed.

Lemma applyOptimizationStrategy_dronesOutside
    now rnd s orders drones strategy res s' :
  OptimizationAlgorithm.applyOptimizationStrategy now rnd s orders drones strategy
  = OK (res, s') ->
  dronesOutside drones s s'.
Proof.
  unfold OptimizationAlgorithm.applyOptimizationStrategy.
  assert (Hgreedy : forall l res s',
    OptimizationAlgorithm.greedyAssignment s l drones = (res, s') ->
    dronesOutside drones s s').
  { intros l res0 s0 H. unfold OptimizationAlgorithm.greedyAssignment in H.
    destruct (OptimizationAlgorithm.greedyLoop _ l s [] 0)
      as [[s1 a1] c1] eqn:Hloop.
    inversion H; subst. apply greedyLoop_dronesOutside in Hloop.
    eapply dronesOutside_incl; [|exact Hloop]. apply incl_filter. }
  destruct (String.eqb strategy "priority_first").
  { intros H; inversion H as [H1]. eapply Hgreedy; eauto. }
  destruct (String.eqb strategy "capacity_optimization").
  { intros H; inversion H as [H1].
    unfold OptimizationAlgorithm.capacityOptimization in H1.
    destruct (OptimizationAlgorithm.capacityLoop _ _ s _ []) as [s1 a1] eqn:Hl.
    inversion H1; subst. apply capacityLoop_dronesOutside in Hl.
    eapply dronesOutside_incl; [|exact Hl]. apply incl_filter. }
  destruct (String.eqb strategy "distance_optimization").
  { unfold OptimizationAlgorithm.distanceOptimization.
    destruct (OptimizationAlgorithm.clusterOrdersByDistance _ _ _ _)
      as [clusters|]; cbn [bindExc]; [|discriminate].
    destruct (OptimizationAlgorithm.distanceLoop clusters drones s [])
      as [s1 a1] eqn:Hl.
    intros H; inversion H; subst. eapply distanceLoop_dronesOutside; eauto. }
  intros H; inversion H as [H1]. eapply Hgreedy; eauto.
Qed.

Lemma step_drone_static s d o s' d' :
  callAssignOrder s d o = (true, s') ->
  sameDroneFrame (Store.drones s d') (Store.drones s' d').
Proof.
  intros H. apply callAssignOrder_true in H as [_ ->]. cbn.
  unfold upd. destruct (Nat.eqb d' d) eqn:E.
  - apply Nat.eqb_eq in E as ->. unfold sameDroneFrame. cbn. intuition.
  - unfold sameDroneFrame. intuition.
Qed.

Lemma run_drone_static s l s' d :
  run s l s' -> sameDroneFrame (Store.drones s d) (Store.drones s' d).
Proof.
  induction 1.
  - unfold sameDroneFrame; intuition.
  - pose proof (step_drone_static _ _ _ _ d H) as H1.
    unfold sameDroneFrame in *. intuition congruence.
Qed.

(** X12. Whatever strategy it selects, [optimizeDeliveries] changes nothing
    but [assignedOrders] and [currentLoad] of drones and [status] and
    [assignedDrone] of orders: ids, capacities, ranges, batteries, positions
    and statuses of the drones stay as they were (a drone that is given
    orders stays idle), as do the ids, locations, weights and priorities of
    the orders.  Drones and orders outside the two lists are not changed at
    all. *)
Theorem optimizeDeliveries_frame (now : R) (rnd : nat -> R) (s : Store.t)
    (orders : list oref) (drones : list dref) (res : Result.t) (s' : Store.t) :
  OptimizationAlgorithm.optimizeDeliveries now rnd s orders drones
  = OK (res, s') ->
  (forall d, sameDroneFrame (Store.drones s d) (Store.drones s' d))
  /\ (forall o, sameOrderFrame (Store.orders s o) (Store.orders s' o))
  /\ (forall d, ~ In d drones -> Store.drones s' d = Store.drones s d)
  /\ (forall o, ~ In o orders -> Store.orders s' o = Store.orders s o).
Proof.
  intros H.
  pose proof (optimizeDeliveries_run _ _ _ _ _ _ _ H) as (l & Hrun & Hincl & _).
  repeat apply conj.
  - intros d. eapply run_drone_static; eauto.
  - intros o. eapply run_order_static; eauto.
  - destruct (optimizeDeliveries_cases now rnd s orders drones)
      as [[_ E]|[_ E]]; rewrite E in H.
    + inversion H; subst. auto.
    + apply applyOptimizationStrategy_dronesOutside in H. exact H.
  - intros o Ho. eapply run_orders_frame; eauto.
Qed.

(** * What the greedy pass reports and what it leaves pending *)

Lemma step_keeps_assigned s d o s' o' :
  callAssignOrder s d o = (true, s') ->
  Order.status (Store.orders s o') = assigned ->
  Order.status (Store.orders s' o') = assigned.
Proof.
  intros H Ho'. destruct (Nat.eq_dec o' o) as [->|Hne].
  - eapply step_status; eauto.
  - now rewrite (step_orders_frame _ _ _ _ o' H Hne).
Qed.

Lemma run_keeps_assigned s l s' o :
  run s l s' ->
  Order.status (Store.orders s o) = assigned ->
  Order.status (Store.orders s' o) = assigned.
Proof. induction 1; eauto using step_keeps_assigned. Qed.

Lemma run_assigned s l s' o :
  run s l s' -> In o l -> Order.status (Store.orders s' o) = assigned.
Proof.
  induction 1 as [|s d o0 s1 l s2 Hstep Hrun IH]; intros Hin; [contradiction|].
  destruct Hin as [<-|Hin]; [|now apply IH].
  eapply run_keeps_assigned; [exact Hrun|]. eapply step_status; eauto.
Qed.

Lemma greedyLoop_trace availableDrones orders s a c s' a' c' :
  OptimizationAlgorithm.greedyLoop availableDrones orders s a c = (s', a', c') ->
  exists l, run s l s' /\ incl l orders /\ c' = (c + List.length l)%nat
            /\ (forall o, In o l -> Order.status (Store.orders s o) = pending).
Proof.
  revert s a c. induction orders as [|order rest IH]; intros s a c; cbn.
  - intros H. inversion H; subst. exists []. repeat apply conj; auto.
    + apply incl_refl.
    + intros o [].
  - assert (Hskip : forall a0,
      OptimizationAlgorithm.greedyLoop availableDrones rest s a0 c
      = (s', a', c') ->
      exists l, run s l s' /\ incl l (order :: rest)
                /\ c' = (c + List.length l)%nat
                /\ (forall o, In o l ->
                              Order.status (Store.orders s o) = pending)).
    { intros a0 H. apply IH in H as (l & Hr & Hi & Hc & Hp).
      exists l. repeat apply conj; auto. now apply incl_tl. }
    destruct (negb (OrderStatus_eqb (Order.status (Store.orders s order)) pending))
      eqn:Hst; [apply Hskip|].
    assert (Hpend : Order.status (Store.orders s order) = pending).
    { apply negb_false_iff in Hst. now apply is_pending_iff. }
    destruct (OptimizationAlgorithm.bestDroneLoop s order availableDrones None (-1))
      as [bestDrone|]; [|apply Hskip].
    destruct (callAssignOrder s bestDrone order) as [ok s1] eqn:Hcall.
    destruct ok.
    + intros H. apply IH in H as (l & Hr & Hi & Hc & Hp).
      exists (order :: l). repeat apply conj.
      * eauto.
      * intros o [<-|Hin]; [now left | right; now apply Hi].
      * cbn. lia.
      * intros o [<-|Hin]; [exact Hpend|].
        destruct (Nat.eq_dec o order) as [->|Hne]; [exact Hpend|].
        rewrite <- (step_orders_frame _ _ _ _ o Hcall Hne). now apply Hp.
    + apply callAssignOrder_false in Hcall as ->. apply Hskip.
Qed.

(** X13. [greedyAssignment] reports [success] exactly when it assigned
    something: when one of the orders it was given was pending before and
    is assigned afterwards. *)
Theorem greedyAssignment_success_iff (s : Store.t) (orders : list oref)
    (drones : list dref) (res : Result.t) (s' : Store.t) :
  OptimizationAlgorithm.greedyAssignment s orders drones = (res, s') ->
  (Result.success res = true <->
   exists o, In o orders
             /\ Order.status (Store.orders s o) = pending
             /\ Order.status (Store.orders s' o) = assigned).
Proof.
  unfold OptimizationAlgorithm.greedyAssignment.
  destruct (OptimizationAlgorithm.greedyLoop _ orders s [] 0)
    as [[s1 a1] c1] eqn:Hloop.
  intros H; inversion H; subst. cbn [Result.success].
  apply greedyLoop_trace in Hloop as (l & Hrun & Hincl & -> & Hpend).
  cbn [Nat.add]. split.
  - intros Hpos. destruct l as [|o l]; [discriminate|].
    exists o. repeat apply conj.
    + apply Hincl. now left.
    + apply Hpend. now left.
    + eapply run_assigned; eauto. now left.
  - intros (o & Hin & Hp & Ha).
    destruct l as [|o0 l]; [|reflexivity].
    inversion Hrun; subst. congruence.
Qed.

(** ** Nothing that fits is left pending *)

Lemma bestDroneLoop_None s order l score :
  OptimizationAlgorithm.bestDroneLoop s order l None score = None ->
  forall d, In d l ->
    Drone.canCarryOrder (Store.drones s d) (Store.orders s order) = true ->
    OptimizationAlgorithm.calculateAssignmentScore
      (Store.orders s order) (Store.drones s d) <= score.
Proof.
  revert score. induction l as [|d0 l IH]; intros score H d Hin Hcan;
    [contradiction|]. cbn in H.
  destruct (Drone.canCarryOrder (Store.drones s d0) (Store.orders s order))
    eqn:Hc0.
  - destruct (Rlt_dec score _) as [Hlt|Hge].
    + exfalso. revert H. apply bestDroneLoop_Some_stays. discriminate.
    + destruct Hin as [<-|Hin]; [lra|]. eapply IH; eauto.
  - destruct Hin as [<-|Hin]; [congruence|]. eapply IH; eauto.
Qed.

Lemma calculateAssignmentScore_nonneg (order : Order.t) (drone : Drone.t) :
  0 <= Drone.currentLoad drone + Order.weight order ->
  0 < Drone.capacity drone ->
  0 <= Drone.battery drone ->
  0 <= OptimizationAlgorithm.calculateAssignmentScore order drone.
Proof.
  intros Hl Hc Hb. unfold OptimizationAlgorithm.calculateAssignmentScore.
  cbv zeta.
  pose proof (calculateDistance_nonneg (Drone.position drone)
                (Order.location order)) as Hd.
  apply Rmult_le_pos.
  - apply Rmult_le_pos.
    + apply Rmult_le_pos; [exact Hl|]. apply Rlt_le, Rinv_0_lt_compat, Hc.
    + apply Rmult_le_pos; [exact Hb|]. apply Rlt_le, Rinv_0_lt_compat. lra.
  - apply Rlt_le, Rinv_0_lt_compat. lra.
Qed.

(** A drone that can carry an order could carry it with a lighter load. *)
Lemma canCarryOrder_lighter (a b : Drone.t) (order : Order.t) :
  sameDroneFrame a b ->
  Drone.currentLoad a <= Drone.currentLoad b ->
  Drone.canCarryOrder b order = true ->
  Drone.canCarryOrder a order = true.
Proof.
  unfold sameDroneFrame.
  intros (_ & Hcap & Hrange & Hbat & Hpos & _ & _ & _ & _ & Hbase & _) Hload.
  unfold Drone.canCarryOrder. rewrite Hcap, Hrange, Hbat, Hpos, Hbase.
  rewrite !andb_true_iff, !Rleb_true_iff. intros [[H1 H2] H3].
  repeat split; auto. lra.
Qed.

Lemma step_load_grows s d o s' d' :
  callAssignOrder s d o = (true, s') ->
  0 <= Order.weight (Store.orders s o) ->
  Drone.currentLoad (Store.drones s d')
  <= Drone.currentLoad (Store.drones s' d').
Proof.
  intros H Hw. apply callAssignOrder_true in H as [_ ->]. cbn.
  unfold upd. destruct (Nat.eqb d' d) eqn:E; [|lra].
  apply Nat.eqb_eq in E as ->. cbn. lra.
Qed.

Lemma run_load_grows s l s' d :
  run s l s' ->
  (forall o, In o l -> 0 <= Order.weight (Store.orders s o)) ->
  Drone.currentLoad (Store.drones s d)
  <= Drone.currentLoad (Store.drones s' d).
Proof.
  induction 1 as [|s d0 o s1 l s2 Hstep Hrun IH]; intros Hw; [lra|].
  pose proof (step_load_grows _ _ _ _ d Hstep (Hw o (or_introl eq_refl))).
  assert (Drone.currentLoad (Store.drones s1 d)
          <= Drone.currentLoad (Store.drones s2 d)); [|lra].
  apply IH. intros o' Ho'.
  destruct (step_order_static _ _ _ _ o' Hstep) as (_ & _ & -> & _).
  apply Hw. now right.
Qed.

Lemma run_not_pending s l s' o :
  run s l s' ->
  Order.status (Store.orders s' o) = pending ->
  Order.status (Store.orders s o) = pending /\ ~ In o l.
Proof.
  intros Hrun Hp.
  assert (Hnot : ~ In o l).
  { intros Hin. rewrite (run_assigned _ _ _ _ Hrun Hin) in Hp. discriminate. }
  split; [|exact Hnot]. now rewrite <- (run_orders_frame _ _ _ _ Hrun Hnot).
Qed.

Lemma greedyLoop_exhausts availableDrones orders s a c s' a' c' :
  (forall o, In o orders -> 0 <= Order.weight (Store.orders s o)) ->
  (forall d, In d availableDrones ->
             0 < Drone.capacity (Store.drones s d)
             /\ 0 <= Drone.battery (Store.drones s d)
             /\ 0 <= Drone.currentLoad (Store.drones s d)) ->
  OptimizationAlgorithm.greedyLoop availableDrones orders s a c = (s', a', c') ->
  forall o d,
    In o orders -> In d availableDrones ->
    Order.status (Store.orders s' o) = pending ->
    Drone.canCarryOrder (Store.drones s' d) (Store.orders s' o) = false.
Proof.
  revert s a c. induction orders as [|order rest IH]; intros s a c Hw Hd Hloop;
    [intros o d []|].
  assert (Hw' : forall o, In o rest -> 0 <= Order.weight (Store.orders s o))
    by (intros o Ho; apply Hw; now right).
  (* what happens when the order at hand is left as it is *)
  assert (Hskip : forall a0,
    OptimizationAlgorithm.greedyLoop availableDrones rest s a0 c = (s', a', c') ->
    (Order.status (Store.orders s order) = pending ->
     forall d, In d availableDrones ->
       Drone.canCarryOrder (Store.drones s d) (Store.orders s order) = false) ->
    forall o d,
      In o (order :: rest) -> In d availableDrones ->
      Order.status (Store.orders s' o) = pending ->
      Drone.canCarryOrder (Store.drones s' d) (Store.orders s' o) = false).
  { intros a0 Hrest Hnow o d [<-|Hin] Hdin Hp; [|eapply IH; eauto].
    pose proof (greedyLoop_trace _ _ _ _ _ _ _ _ Hrest)
      as (l & Hrun & Hincl & _ & _).
    destruct (run_not_pending _ _ _ _ Hrun Hp) as [Hp0 Hnot].
    rewrite (run_orders_frame _ _ _ _ Hrun Hnot).
    destruct (Drone.canCarryOrder (Store.drones s' d) (Store.orders s order))
      eqn:Hc; [|reflexivity].
    rewrite <- (Hnow Hp0 d Hdin). symmetry.
    eapply canCarryOrder_lighter; [| |exact Hc].
    - eapply run_drone_static; eauto.
    - eapply run_load_grows; eauto. }
  cbn in Hloop.
  destruct (negb (OrderStatus_eqb (Order.status (Store.orders s order)) pending))
    eqn:Hst.
  { eapply Hskip; eauto. intros Hp. apply negb_true_iff in Hst.
    unfold OptimizationAlgorithm.is_pending in *.
    rewrite Hp in Hst. discriminate. }
  destruct (OptimizationAlgorithm.bestDroneLoop s order availableDrones None (-1))
    as [bestDrone|] eqn:Hbest.
  - apply bestDroneLoop_picks in Hbest as [Hbin Hcan].
    rewrite (callAssignOrder_eq _ _ _ Hcan) in Hloop.
    pose proof (callAssignOrder_eq _ _ _ Hcan) as Hstep.
    intros o d [<-|Hin] Hdin Hp.
    + exfalso.
      pose proof (greedyLoop_trace _ _ _ _ _ _ _ _ Hloop)
        as (l & Hrun & _).
      pose proof (run_keeps_assigned _ _ _ order Hrun
                    (step_status _ _ _ _ Hstep)). congruence.
    + eapply IH; [| |exact Hloop|exact Hin|exact Hdin|exact Hp].
      * intros o' Ho'.
        destruct (step_order_static _ _ _ _ o' Hstep) as (_ & _ & -> & _).
        now apply Hw'.
      * intros d' Hd'. destruct (Hd d' Hd') as (Hc & Hb & Hl).
        destruct (step_drone_static _ _ _ _ d' Hstep)
          as (_ & -> & _ & -> & _).
        repeat split; auto.
        pose proof (step_load_grows _ _ _ _ d' Hstep
                      (Hw order (or_introl eq_refl))). lra.
  - eapply Hskip; eauto. intros Hp d Hdin.
    destruct (Drone.canCarryOrder (Store.drones s d) (Store.orders s order))
      eqn:Hc; [|reflexivity].
    exfalso.
    pose proof (bestDroneLoop_None _ _ _ _ Hbest d Hdin Hc) as Hscore.
    destruct (Hd d Hdin) as (Hcap & Hbat & Hload).
    pose proof (calculateAssignmentScore_nonneg
                  (Store.orders s order) (Store.drones s d)) as Hnn.
    pose proof (Hw order (or_introl eq_refl)). lra.
Qed.

(** X14. After one pass of [greedyAssignment] no order of the list that is
    still pending can be carried by any idle drone of the list: whatever
    fits has been assigned.  The weights are taken not to be negative and
    the idle drones to have a positive capacity and a battery and a load
    that are not negative. *)
Theorem greedyAssignment_leaves_nothing_that_fits (s : Store.t)
    (orders : list oref) (drones : list dref) (res : Result.t) (s' : Store.t) :
  (forall o, In o orders -> 0 <= Order.weight (Store.orders s o)) ->
  (forall d, In d drones -> Drone.status (Store.drones s d) = idle ->
             0 < Drone.capacity (Store.drones s d)
             /\ 0 <= Drone.battery (Store.drones s d)
             /\ 0 <= Drone.currentLoad (Store.drones s d)) ->
  OptimizationAlgorithm.greedyAssignment s orders drones = (res, s') ->
  forall o d,
    In o orders -> In d drones ->
    Drone.status (Store.drones s d) = idle ->
    Order.status (Store.orders s' o) = pending ->
    Drone.canCarryOrder (Store.drones s' d) (Store.orders s' o) = false.
Proof.
  intros Hw Hd H o d Ho Hdin Hidle Hp.
  unfold OptimizationAlgorithm.greedyAssignment in H.
  destruct (OptimizationAlgorithm.greedyLoop _ orders s [] 0)
    as [[s1 a1] c1] eqn:Hloop.
  inversion H; subst.
  eapply greedyLoop_exhausts; [exact Hw| |exact Hloop|exact Ho| |exact Hp].
  - intros d' Hd'. apply filter_In in Hd' as [Hin Hi].
    apply Hd; [exact Hin|now apply is_idle_iff].
  - apply filter_In. split; [exact Hdin|now apply is_idle_iff].
Qed.

(** * The life of a drone *)

(** X15. A drone fresh from [reset] can carry an order exactly when the
    order weighs no more than its capacity and lies no farther from the
    base than half its range; its full battery is never the obstacle. *)
Theorem reset_drone_carries (this : Drone.t) (order : Order.t) :
  Drone.canCarryOrder (Drone.reset this) order = true
  <-> (Order.weight order <= Drone.capacity this
       /\ 2 * Drone.calculateDistance (Drone.basePosition this)
                                      (Order.location order)
          <= Drone.range this).
Proof.
  unfold Drone.canCarryOrder, Drone.reset, Drone.calculateBatteryNeeded. cbn.
  rewrite (calculateDistance_sym (Order.location order) (Drone.basePosition this)).
  rewrite !andb_true_iff, !Rleb_true_iff.
  pose proof (Rmin_l 100 ((Drone.calculateDistance (Drone.basePosition this)
                             (Order.location order)
                           + Drone.calculateDistance (Drone.basePosition this)
                               (Order.location order)) * 5)).
  split.
  - intros [[H1 H2] _]. split; lra.
  - intros [H1 H2]. repeat split; lra.
Qed.

Lemma isValid_iff (o : Order.t) :
  Order.isValid o = true
  <-> (0 < Order.weight o <= 20
       /\ 0 <= Point.x (Order.location o) <= 20
       /\ 0 <= Point.y (Order.location o) <= 20).
Proof.
  unfold Order.isValid, Order.validate.
  destruct (Rleb (Order.weight o) 0) eqn:E1;
    destruct (Rltb 20 (Order.weight o)) eqn:E2;
    destruct (Rltb (Point.x (Order.location o)) 0) eqn:E3;
    destruct (Rltb 20 (Point.x (Order.location o))) eqn:E4;
    destruct (Rltb (Point.y (Order.location o)) 0) eqn:E5;
    destruct (Rltb 20 (Point.y (Order.location o))) eqn:E6;
    cbn;
    repeat match goal with
    | H : Rleb _ _ = true |- _ => apply Rleb_true_iff in H
    | H : Rleb _ _ = false |- _ => apply Rleb_false_iff in H
    | H : Rltb _ _ = true |- _ => apply Rltb_true_iff in H
    | H : Rltb _ _ = false |- _ => apply Rltb_false_iff in H
    end;
    split; intros H; try discriminate; try reflexivity; try lra.
Qed.

Lemma sqrt_200 : sqrt 200 = 10 * sqrt 2.
Proof.
  replace 200 with (10 * 10 * 2) by lra.
  rewrite sqrt_mult by lra. now rewrite sqrt_square by lra.
Qed.

Lemma valid_order_fits (o : Order.t) (id : string) (capacity range : R) :
  Order.isValid o = true ->
  Order.weight o <= capacity ->
  20 * sqrt 2 <= range ->
  Drone.canCarryOrder (Drone.new id capacity range) o = true.
Proof.
  intros Hv Hw Hr. apply isValid_iff in Hv as (Hwt & Hx & Hy).
  assert (Hd : Drone.calculateDistance (Point.mk 10 10) (Order.location o)
               <= 10 * sqrt 2).
  { rewrite <- sqrt_200. unfold Drone.calculateDistance. cbv zeta. cbn.
    set (x := Point.x (Order.location o)) in *.
    set (y := Point.y (Order.location o)) in *.
    assert (Hx2 : 0 <= x * (20 - x)) by (apply Rmult_le_pos; lra).
    assert (Hy2 : 0 <= y * (20 - y)) by (apply Rmult_le_pos; lra).
    pose proof (Rle_0_sqr (x - 10)) as Hx3.
    pose proof (Rle_0_sqr (y - 10)) as Hy3. unfold Rsqr in Hx3, Hy3.
    apply sqrt_le_1; lra. }
  unfold Drone.canCarryOrder, Drone.new, Drone.calculateBatteryNeeded. cbn.
  rewrite (calculateDistance_sym (Order.location o) (Point.mk 10 10)).
  rewrite !andb_true_iff, !Rleb_true_iff.
  match goal with |- context [Rmin 100 ?x] => pose proof (Rmin_l 100 x) end.
  repeat split; lra.
Qed.

Lemma validateNumbers_reals (x y weight : R) (now : R) (id : string)
    (priority : Priority) :
  Order.validateNumbers (Order.Num x) (Order.Num y) (Order.Num weight)
  = Order.validate (Order.new now id (Point.mk x y) weight priority).
Proof.
  unfold Order.validateNumbers, Order.validate. cbn.
  destruct (Req_dec_T weight 0) as [->|Hne]; [|reflexivity].
  replace (Rleb 0 0) with true; [reflexivity|].
  symmetry. apply Rleb_true_iff. lra.
Qed.

(** X16. [validate] passes an order exactly when its weight is a number
    above 0 and at most 20 and each coordinate is either within 0 and 20 or
    [NaN]: a [NaN] coordinate, which [addOrder] gets from [parseFloat] on a
    text that is no number, fails none of the comparisons.  An order that
    passes with both coordinates real lies within [10 * sqrt 2] of the base
    (10, 10), so a new drone carries it as soon as its capacity covers the
    weight and its range is at least [20 * sqrt 2]. *)
Theorem validate_passes_NaN_and_city_orders (x y weight : Order.Number)
    (id : string) (capacity range : R) :
  (Order.validateNumbers x y weight = [] <->
   (exists w, weight = Order.Num w /\ 0 < w <= 20)
   /\ (x = Order.NaN \/ exists r, x = Order.Num r /\ 0 <= r <= 20)
   /\ (y = Order.NaN \/ exists r, y = Order.Num r /\ 0 <= r <= 20))
  /\ Order.validateNumbers Order.NaN Order.NaN (Order.Num 1) = []
  /\ (forall rx ry rw now oid priority,
        x = Order.Num rx -> y = Order.Num ry -> weight = Order.Num rw ->
        Order.validateNumbers x y weight = [] ->
        rw <= capacity ->
        20 * sqrt 2 <= range ->
        Drone.canCarryOrder
          (Drone.new id capacity range)
          (Order.new now oid (Point.mk rx ry) rw priority) = true).
Proof.
  split; [|split].
  - unfold Order.validateNumbers.
    assert (Hw : (Order.falsy weight || Order.Number_leb weight (Order.Num 0)
                  || Order.Number_ltb (Order.Num 20) weight) = false
                 <-> exists w, weight = Order.Num w /\ 0 < w <= 20).
    { destruct weight as [|w]; cbn.
      - split; [discriminate|]. intros (w & E & _). discriminate.
      - destruct (Req_dec_T w 0) as [->|Hne]; cbn.
        + split; [discriminate|]. intros (w & E & Hw). inversion E. lra.
        + rewrite orb_false_iff, Rleb_false_iff, Rltb_false_iff. split.
          * intros [H1 H2]. exists w. split; [reflexivity|lra].
          * intros (w' & E & Hw). inversion E; subst. lra. }
    assert (Hc : forall c,
      (Order.Number_ltb c (Order.Num 0) || Order.Number_ltb (Order.Num 20) c)
      = false
      <-> (c = Order.NaN \/ exists r, c = Order.Num r /\ 0 <= r <= 20)).
    { intros [|r]; cbn.
      - split; [now left|reflexivity].
      - rewrite orb_false_iff, !Rltb_false_iff. split.
        + intros [H1 H2]. right. exists r. split; [reflexivity|lra].
        + intros [E|(r' & E & Hr)]; [discriminate|]. inversion E; subst. lra. }
    rewrite <- Hw, <- (Hc x), <- (Hc y).
    destruct (Order.falsy weight || Order.Number_leb weight (Order.Num 0)
              || Order.Number_ltb (Order.Num 20) weight);
      destruct (Order.Number_ltb x (Order.Num 0));
      destruct (Order.Number_ltb (Order.Num 20) x);
      destruct (Order.Number_ltb y (Order.Num 0));
      destruct (Order.Number_ltb (Order.Num 20) y);
      cbn; split; intros H; try discriminate; try tauto;
      try (destruct H as (H1 & H2 & H3); discriminate).
  - unfold Order.validateNumbers. cbn.
    destruct (Req_dec_T 1 0) as [E|_]; [lra|]. cbn.
    replace (Rleb 1 0) with false by (symmetry; apply Rleb_false_iff; lra).
    replace (Rltb 20 1) with false by (symmetry; apply Rltb_false_iff; lra).
    reflexivity.
  - intros rx ry rw now oid priority -> -> -> Hv Hcap Hrange.
    apply valid_order_fits; auto.
    unfold Order.isValid.
    now rewrite <- (validateNumbers_reals rx ry rw now oid priority), Hv.
Qed.

(** X17. [canGroupWith] does not depend on which of the two orders is
    asked. *)
Theorem canGroupWith_sym (a b : Order.t) (maxDistance : R) :
  Order.canGroupWith a b maxDistance = Order.canGroupWith b a maxDistance.
Proof.
  unfold Order.canGroupWith.
  rewrite (orb_comm (negb (OrderStatus_eqb (Order.status a) pending))).
  destruct (_ || _); [reflexivity|].
  f_equal. unfold Order.getDistanceTo. cbv zeta. f_equal. ring.
Qed.

(** ** Delivering an order *)

Lemma filter_by_id s (l : list oref) (o : oref) :
  (forall o', In o' l ->
     Order.id (Store.orders s o') = Order.id (Store.orders s o) -> o' = o) ->
  filter (fun o' => negb (String.eqb (Order.id (Store.orders s o'))
                                     (Order.id (Store.orders s o)))) l
  = filter (fun o' => negb (Nat.eqb o' o)) l.
Proof.
  intros Hid. apply filter_ext_in. intros o' Ho'. f_equal.
  destruct (String.eqb_spec (Order.id (Store.orders s o'))
                            (Order.id (Store.orders s o))) as [E|E].
  - rewrite (Hid o' Ho' E). now rewrite Nat.eqb_refl.
  - destruct (Nat.eqb_spec o' o) as [->|_]; [congruence|reflexivity].
Qed.

(** X18. Delivering an order that the drone holds, provided the orders the
    drone holds have distinct ids (the filter that drops the delivered
    order goes by id) and the weight is not negative: afterwards the order
    is delivered and off the drone's list, every assigned order is still
    listed by exactly the drone it names, and a drone whose load was within
    its capacity still has it within its capacity. *)
Theorem deliverOrder_keeps_assignments (now : R) (s : Store.t) (d : dref)
    (o : oref) :
  assignmentInvariant s ->
  In o (Drone.assignedOrders (Store.drones s d)) ->
  (forall o', In o' (Drone.assignedOrders (Store.drones s d)) ->
     Order.id (Store.orders s o') = Order.id (Store.orders s o) -> o' = o) ->
  0 <= Order.weight (Store.orders s o) ->
  let s' := callDeliverOrder now s d o in
  Order.status (Store.orders s' o) = delivered
  /\ ~ In o (Drone.assignedOrders (Store.drones s' d))
  /\ assignmentInvariant s'
  /\ (forall d',
        Drone.currentLoad (Store.drones s d')
        <= Drone.capacity (Store.drones s d') ->
        Drone.currentLoad (Store.drones s' d')
        <= Drone.capacity (Store.drones s' d')).
Proof.
  intros (Hnd & Huniq & Hlisted & Hassigned) Hin Hid Hw. cbv zeta.
  unfold callDeliverOrder, Drone.deliverOrder.
  rewrite (filter_by_id s _ o Hid).
  match goal with |- context [Order.status (Store.orders ?st o)] =>
    set (s' := st) end.
  assert (Hlist : forall d' o',
    In o' (Drone.assignedOrders (Store.drones s' d'))
    <-> (In o' (Drone.assignedOrders (Store.drones s d')) /\ o' <> o)).
  { intros d' o'. unfold s'. cbn. unfold upd. destruct (Nat.eqb d' d) eqn:E.
    - apply Nat.eqb_eq in E as ->. cbn. rewrite filter_In.
      destruct (Nat.eqb_spec o' o); cbn; intuition congruence.
    - apply Nat.eqb_neq in E. split; [|tauto]. intros H. split; [exact H|].
      intros ->. apply E. eapply Huniq; eauto. }
  split; [|split; [|split]].
  - unfold s'. cbn. now rewrite upd_same.
  - intros H. apply Hlist in H. tauto.
  - unfold assignmentInvariant. repeat apply conj.
    + intros d'. unfold s'. cbn. unfold upd.
      destruct (Nat.eqb d' d); [|apply Hnd].
      cbn. apply NoDup_filter, Hnd.
    + intros d1 d2 o' H1 H2. apply Hlist in H1 as [H1 _], H2 as [H2 _]. eauto.
    + intros d' o' H. apply Hlist in H as [H Hne].
      apply Hlisted in H as [Hs Hd].
      assert (Ho' : Store.orders s' o' = Store.orders s o').
      { unfold s'. cbn. now apply upd_other. }
      rewrite Ho'. split; [exact Hs|]. rewrite Hd. f_equal.
      unfold s'. cbn. unfold upd. destruct (Nat.eqb d' d) eqn:E; [|reflexivity].
      apply Nat.eqb_eq in E as ->. reflexivity.
    + intros o' Ho'.
      assert (Hne : o' <> o).
      { intros ->. unfold s' in Ho'. cbn in Ho'. rewrite upd_same in Ho'.
        cbn in Ho'. discriminate. }
      assert (Hsame : Store.orders s' o' = Store.orders s o').
      { unfold s'. cbn. now apply upd_other. }
      rewrite Hsame in Ho'. destruct (Hassigned o' Ho') as [d' Hd'].
      exists d'. apply Hlist. tauto.
  - intros d'. unfold s'. cbn. unfold upd.
    destruct (Nat.eqb d' d) eqn:E; [|auto].
    apply Nat.eqb_eq in E as ->. cbn. lra.
Qed.

(** * DroneController *)

Lemma DroneController_bestDroneLoop_picks s order l score d :
  DroneController.bestDroneLoop s order l None score = Some d ->
  In d l
  /\ Drone.canCarryOrder (Store.drones s d) (Store.orders s order) = true.
Proof.
  assert (H : forall l best score d,
    DroneController.bestDroneLoop s order l best score = Some d ->
    (best = Some d
     \/ (In d l
         /\ Drone.canCarryOrder (Store.drones s d) (Store.orders s order)
            = true))).
  { clear. induction l as [|d0 l IH]; intros best score d; cbn.
    - intros ->. now left.
    - destruct (Drone.canCarryOrder _ _) eqn:Hc; cbn.
      + destruct (Rlt_dec score _); intros H; apply IH in H.
        * destruct H as [E|[Hin Hcan]]; right.
          -- inversion E; subst. auto.
          -- auto.
        * destruct H as [E|[Hin Hcan]]; auto.
      + intros H. apply IH in H. destruct H as [E|[Hin Hcan]]; auto. }
  intros Hb. apply H in Hb as [E|Hb]; [discriminate|exact Hb].
Qed.

Lemma getAvailableDrones_static s s' drones :
  (forall d, sameDroneFrame (Store.drones s d) (Store.drones s' d)) ->
  DroneController.getAvailableDrones s' drones
  = DroneController.getAvailableDrones s drones.
Proof.
  intros H. unfold DroneController.getAvailableDrones.
  apply filter_ext. intros d.
  destruct (H d) as (_ & _ & _ & Hbat & _ & Hst & _).
  unfold OptimizationAlgorithm.is_idle, Drone.needsToReturn.
  now rewrite Hbat, Hst.
Qed.

Lemma assignOrderToDrone_step s drones order ok s' :
  DroneController.assignOrderToDrone s drones order = (ok, s') ->
  (ok = false /\ s' = s)
  \/ (ok = true
      /\ exists d, In d (DroneController.getAvailableDrones s drones)
                   /\ callAssignOrder s d order = (true, s')).
Proof.
  unfold DroneController.assignOrderToDrone,
    DroneController.findBestDroneForOrder.
  destruct (Nat.eqb _ 0).
  { intros H; inversion H; subst. now left. }
  destruct (DroneController.bestDroneLoop s order _ None (-1)) as [d|] eqn:Hb.
  - apply DroneController_bestDroneLoop_picks in Hb as [Hin Hcan].
    rewrite (callAssignOrder_eq _ _ _ Hcan). intros H; inversion H; subst.
    right. split; [reflexivity|]. exists d. split; [exact Hin|].
    now apply callAssignOrder_eq.
  - intros H; inversion H; subst. now left.
Qed.

Lemma sameDroneFrame_trans a b c :
  sameDroneFrame a b -> sameDroneFrame b c -> sameDroneFrame a c.
Proof. unfold sameDroneFrame. intuition congruence. Qed.

Lemma distributionLoop_trace drones orders s0 s c s' c' :
  (forall d, sameDroneFrame (Store.drones s0 d) (Store.drones s d)) ->
  DroneController.distributionLoop drones orders s c = (s', c') ->
  exists l, run s l s' /\ incl l orders /\ NoDup l
            /\ (forall o, In o l -> Order.status (Store.orders s o) = pending)
            /\ c' = (c + List.length l)%nat
            /\ dronesOutside (DroneController.getAvailableDrones s0 drones) s s'.
Proof.
  revert s c. induction orders as [|order rest IH]; intros s c Hs0; cbn.
  - intros H. inversion H; subst. exists []. repeat apply conj; auto.
    + apply incl_refl.
    + constructor.
    + intros o [].
    + apply dronesOutside_refl.
  - assert (Hskip :
      DroneController.distributionLoop drones rest s c = (s', c') ->
      exists l, run s l s' /\ incl l (order :: rest) /\ NoDup l
        /\ (forall o, In o l -> Order.status (Store.orders s o) = pending)
        /\ c' = (c + List.length l)%nat
        /\ dronesOutside (DroneController.getAvailableDrones s0 drones) s s').
    { intros H. apply IH in H as (l & Hr & Hi & Hn & Hp & Hc & Hd); auto.
      exists l. repeat apply conj; auto. now apply incl_tl. }
    destruct (OptimizationAlgorithm.is_pending s order) eqn:Hpend;
      [|exact Hskip].
    apply is_pending_iff in Hpend.
    destruct (DroneController.assignOrderToDrone s drones order)
      as [ok s1] eqn:Hassign.
    apply assignOrderToDrone_step in Hassign
      as [[-> ->]|(-> & d & Hd & Hcall)]; [exact Hskip|].
    intros H. apply IH in H as (l & Hr & Hi & Hn & Hp & Hc & Hout).
    2:{ intros d'. eapply sameDroneFrame_trans; [apply Hs0|].
        eapply step_drone_static; eauto. }
    destruct (run_cons_pending _ _ _ _ _ _ Hpend Hcall Hr Hn Hp) as [Hn' Hp'].
    exists (order :: l). repeat apply conj; eauto.
    + intros o [<-|Hin]; [now left | right; now apply Hi].
    + cbn. lia.
    + eapply dronesOutside_trans; [|exact Hout].
      eapply dronesOutside_incl;
        [|eapply callAssignOrder_dronesOutside; exact Hcall].
      intros d' [<-|[]].
      now rewrite <- (getAvailableDrones_static s0 s drones Hs0).
Qed.

Lemma optimizeOrderDistribution_trace now s drones orders res s' :
  DroneController.optimizeOrderDistribution now s drones orders = (res, s') ->
  exists l, run s l s' /\ incl l orders /\ NoDup l
            /\ (forall o, In o l -> Order.status (Store.orders s o) = pending)
            /\ DroneController.Distribution.success res
               = Nat.ltb 0 (List.length l)
            /\ dronesOutside (DroneController.getAvailableDrones s drones) s s'.
Proof.
  unfold DroneController.optimizeOrderDistribution.
  destruct (_ || _).
  { intros H; inversion H; subst. exists []. repeat apply conj; auto.
    - intros ? [].
    - constructor.
    - intros ? [].
    - apply dronesOutside_refl. }
  match goal with |- context [DroneController.distributionLoop drones ?l s 0] =>
    destruct (DroneController.distributionLoop drones l s 0) as [s1 c1] eqn:Hl
  end.
  intros H; inversion H; subst. cbn [DroneController.Distribution.success].
  apply (distributionLoop_trace drones _ s) in Hl
    as (l & Hr & Hi & Hn & Hp & -> & Hout).
  2:{ intros d. unfold sameDroneFrame. intuition. }
  exists l. repeat apply conj; auto.
  eapply incl_tran; [exact Hi|apply js_sort_incl].
Qed.

(** X19. [DroneController.optimizeOrderDistribution] keeps the books for
    any list of orders: if every drone's [currentLoad] is the sum of the
    weights of its orders and within its capacity before the call, so it is
    afterwards; and if every assigned order is listed by exactly the drone
    it names before, so it is afterwards. *)
Theorem optimizeOrderDistribution_keeps_invariants (now : R) (s : Store.t)
    (drones : list dref) (orders : list oref)
    (res : DroneController.Distribution.t) (s' : Store.t) :
  DroneController.optimizeOrderDistribution now s drones orders = (res, s') ->
  (loadInvariant s -> loadInvariant s')
  /\ (assignmentInvariant s -> assignmentInvariant s' /\ assignedExactlyOnce s').
Proof.
  intros H.
  apply optimizeOrderDistribution_trace in H as (l & Hr & Hi & Hn & Hp & _).
  split.
  - intros HI. eapply run_stepClosed; eauto using loadInvariant_stepClosed.
  - intros HI.
    assert (HI' : assignmentInvariant s')
      by (eapply assignmentInvariant_run; eauto).
    split; [exact HI'|now apply assignmentInvariant_exactlyOnce].
Qed.

(** X20. [DroneController.optimizeOrderDistribution] gives orders only to
    drones of its list that are idle and whose battery is at least 20: every
    other drone is left as it is.  It changes no order that is outside the
    list it is given or not pending, and reports [success] exactly when one
    of those orders was pending before and is assigned afterwards. *)
Theorem optimizeOrderDistribution_touches (now : R) (s : Store.t)
    (drones : list dref) (orders : list oref)
    (res : DroneController.Distribution.t) (s' : Store.t) :
  DroneController.optimizeOrderDistribution now s drones orders = (res, s') ->
  (forall d,
      ~ In d drones \/ Drone.status (Store.drones s d) <> idle
      \/ Drone.battery (Store.drones s d) < 20 ->
      Store.drones s' d = Store.drones s d)
  /\ (forall o,
         ~ In o orders \/ Order.status (Store.orders s o) <> pending ->
         Store.orders s' o = Store.orders s o)
  /\ (DroneController.Distribution.success res = true <->
      exists o, In o orders
                /\ Order.status (Store.orders s o) = pending
                /\ Order.status (Store.orders s' o) = assigned).
Proof.
  intros H.
  apply optimizeOrderDistribution_trace in H
    as (l & Hr & Hi & Hn & Hp & Hsucc & Hout).
  split; [|split].
  - intros d Hd. apply Hout. intros Hin.
    apply filter_In in Hin as [Hin Hok].
    apply andb_true_iff in Hok as [Hidle Hbat].
    apply is_idle_iff in Hidle. apply negb_true_iff in Hbat.
    unfold Drone.needsToReturn in Hbat. apply Rltb_false_iff in Hbat.
    destruct Hd as [Hd|[Hd|Hd]]; [tauto|tauto|lra].
  - intros o Ho. eapply run_orders_frame; [exact Hr|].
    intros Hin. destruct Ho as [Ho|Ho]; [apply Ho; now apply Hi|].
    apply Ho. now apply Hp.
  - rewrite Hsucc. split.
    + intros Hpos. destruct l as [|o l]; [discriminate|].
      exists o. repeat apply conj.
      * apply Hi. now left.
      * apply Hp. now left.
      * eapply run_assigned; eauto. now left.
    + intros (o & Hin & Hpo & Ha).
      destruct l as [|o0 l]; [|reflexivity].
      inversion Hr; subst. congruence.
Qed.

(** * Overdue orders and the start of a flight *)

Lemma floor_above (m : Z) (x : R) :
  IZR m < IZR (Zfloor x) <-> IZR m + 1 <= x.
Proof.
  pose proof (Zfloor_bound x) as [Hlo Hhi]. split.
  - intros H. apply lt_IZR in H.
    assert (Hz : (m + 1 <= Zfloor x)%Z) by lia.
    apply IZR_le in Hz. rewrite plus_IZR in Hz. lra.
  - intros H. apply IZR_lt.
    assert (Hz : (m + 1 <= Zfloor x)%Z)
      by (apply Zfloor_lub; rewrite plus_IZR; lra).
    lia.
Qed.

(** X21. An order is overdue exactly from one full minute past the limit
    of its priority on: the waiting time is counted in whole minutes and
    compared strictly, so an order of priority alta is overdue from minute
    16, media from minute 31 and baixa from minute 61. *)
Theorem isOverdue_iff (now : R) (this : Order.t) :
  Order.isOverdue now this = true
  <-> (Order.maxWaitTimes (Order.priority this) + 1) * 60000
      <= now - Order.createdAt this.
Proof.
  unfold Order.isOverdue, Order.getWaitingTime. rewrite Rltb_true_iff.
  set (x := (now - Order.createdAt this) / (1000 * 60)).
  assert (Hx : now - Order.createdAt this = x * 60000)
    by (unfold x; field).
  rewrite Hx.
  assert (Hm : exists m, Order.maxWaitTimes (Order.priority this) = IZR m).
  { unfold Order.maxWaitTimes.
    destruct (Order.priority this); eexists; reflexivity. }
  destruct Hm as [m ->]. rewrite floor_above. split; intros H; nra.
Qed.

Lemma calculateRouteDistance_nonneg (this : Drone.t) :
  0 <= Drone.calculateRouteDistance this.
Proof.
  unfold Drone.calculateRouteDistance.
  destruct (Nat.ltb _ 2); [lra|apply sumLegs_nonneg].
Qed.

(** X22. [startDelivery] refuses, changing nothing, exactly when the drone
    has no order.  Otherwise it plans the route and puts the drone in
    [loading]; the drone keeps its orders, load and battery, and its
    odometer [totalDistance] is raised by the length of the planned route
    and so never goes back. *)
Theorem startDelivery_plans_route (orders : OrderHeap) (this : Drone.t) :
  (Drone.assignedOrders this = [] ->
   Drone.startDelivery orders this = (false, this))
  /\ (Drone.assignedOrders this <> [] ->
      exists this',
        Drone.startDelivery orders this = (true, this')
        /\ Drone.status this' = loading
        /\ Permutation (Drone.assignedOrders this') (Drone.assignedOrders this)
        /\ Drone.currentLoad this' = Drone.currentLoad this
        /\ Drone.battery this' = Drone.battery this
        /\ Drone.totalDistance this'
           = Drone.totalDistance this + Drone.calculateRouteDistance this'
        /\ Drone.totalDistance this <= Drone.totalDistance this').
Proof.
  split.
  - unfold Drone.startDelivery. intros ->. reflexivity.
  - intros Hne. unfold Drone.startDelivery.
    destruct (Drone.assignedOrders this) as [|o0 l] eqn:E; [congruence|].
    destruct (optimizeRoute_shape orders (Drone.set_status this loading))
      as (visited & this2 & Heq & Hvis & Hroute & Hperm & _ & Hsame).
    { cbn. rewrite E. discriminate. }
    rewrite Heq. cbn [snd]. eexists. split; [reflexivity|].
    unfold sameDroneBut in Hsame. cbn in Hsame, Hperm, Hvis.
    destruct Hsame as (Hid & Hcap & Hrange & Hload & Hbat & Hpos & Hst & Htot
                       & Hcnt & Hbase & Hidx & Hspeed).
    assert (Hdist : Drone.calculateRouteDistance
                      (Drone.add_totalDistance this2
                         (Drone.calculateRouteDistance this2))
                    = Drone.calculateRouteDistance this2) by reflexivity.
    cbn [Drone.add_totalDistance Drone.status Drone.assignedOrders
         Drone.currentLoad Drone.battery Drone.totalDistance].
    rewrite Hdist, <- E.
    repeat apply conj; try congruence.
    pose proof (calculateRouteDistance_nonneg this2). lra.
Qed.

(** * OrderController: groups of nearby orders *)

Lemma has_iff (processed : list string) (id : string) :
  OrderController.has processed id = true <-> In id processed.
Proof.
  unfold OrderController.has. rewrite existsb_exists. split.
  - intros (x & Hin & E). apply String.eqb_eq in E. now subst.
  - intros Hin. exists id. split; [exact Hin|apply String.eqb_refl].
Qed.

Lemma canGroupWith_true (a b : Order.t) (maxDistance : R) :
  Order.canGroupWith a b maxDistance = true ->
  Order.status a = pending /\ Order.status b = pending
  /\ Order.getDistanceTo a (Order.location b) <= maxDistance.
Proof.
  unfold Order.canGroupWith.
  destruct (Order.status a), (Order.status b); cbn; try discriminate.
  intros H. apply Rleb_true_iff in H. auto.
Qed.

Lemma NoDup_map_inj {A B : Type} (f : A -> B) (l : list A) (a b : A) :
  NoDup (map f l) -> In a l -> In b l -> f a = f b -> a = b.
Proof.
  induction l as [|x l IH]; [contradiction|].
  cbn. intros Hnd Ha Hb E. inversion Hnd as [|? ? Hna Hl]; subst.
  destruct Ha as [->|Ha], Hb as [->|Hb]; auto.
  - exfalso. apply Hna. rewrite E. now apply in_map.
  - exfalso. apply Hna. rewrite <- E. now apply in_map.
Qed.

Lemma nearbyLoop_spec s maxDistance order others group processed group'
    processed' :
  OrderController.nearbyLoop s maxDistance order others group processed
  = (group', processed') ->
  exists added,
    group' = group ++ added
    /\ processed'
       = rev (map (fun o => Order.id (Store.orders s o)) added) ++ processed
    /\ incl added others
    /\ (forall a, In a added ->
          Order.canGroupWith (Store.orders s order) (Store.orders s a)
                             maxDistance = true)
    /\ NoDup (map (fun o => Order.id (Store.orders s o)) added)
    /\ (forall a, In a added -> ~ In (Order.id (Store.orders s a)) processed).
Proof.
  revert group processed.
  induction others as [|other rest IH]; intros group processed; cbn.
  - intros H. inversion H; subst. exists []. cbn. rewrite app_nil_r.
    repeat apply conj; auto; try apply incl_refl; try constructor;
      try solve [intros a []].
  - destruct (OrderController.has processed _) eqn:Hhas.
    { intros H. apply IH in H as (added & ? & ? & ? & ? & ? & ?).
      exists added. repeat apply conj; auto. now apply incl_tl. }
    destruct (Order.canGroupWith _ _ _) eqn:Hcan.
    2:{ intros H. apply IH in H as (added & ? & ? & ? & ? & ? & ?).
        exists added. repeat apply conj; auto. now apply incl_tl. }
    intros H. apply IH in H as (added & -> & -> & Hincl & Hall & Hnd & Hnew).
    assert (Hfresh : ~ In (Order.id (Store.orders s other)) processed).
    { intros Hin. apply has_iff in Hin. congruence. }
    exists (other :: added). repeat apply conj.
    + now rewrite <- app_assoc.
    + cbn. now rewrite <- app_assoc.
    + intros a [<-|Hin]; [now left|right; now apply Hincl].
    + intros a [<-|Hin]; auto.
    + cbn. constructor; [|exact Hnd].
      intros Hin. apply in_map_iff in Hin as (a & E & Ha).
      apply (Hnew a Ha). left. now rewrite E.
    + intros a [<-|Hin]; [exact Hfresh|].
      intros Hp. apply (Hnew a Hin). now right.
Qed.

Lemma groupLoop_spec s maxDistance pendingOrders todo groups processed :
  let id := fun o => Order.id (Store.orders s o) in
  let shaped := fun g : list oref =>
    exists first rest,
      g = first :: rest
      /\ forall o, In o rest ->
           Order.canGroupWith (Store.orders s first) (Store.orders s o)
                              maxDistance = true in
  map id (concat groups) = rev processed ->
  NoDup processed ->
  incl (concat groups) pendingOrders ->
  Forall shaped groups ->
  incl todo pendingOrders ->
  exists processed',
    let groups' :=
      OrderController.groupLoop s maxDistance pendingOrders todo groups
                                processed in
    map id (concat groups') = rev processed'
    /\ NoDup processed'
    /\ incl (concat groups') pendingOrders
    /\ Forall shaped groups'
    /\ incl processed processed'
    /\ forall o, In o todo -> In (id o) processed'.
Proof.
  intros id shaped. revert groups processed.
  induction todo as [|order rest IH]; intros groups processed Hmap Hnd Hin
    Hshape Htodo; cbn.
  - exists processed. repeat apply conj; auto.
    + apply incl_refl.
    + intros o [].
  - assert (Hrest : incl rest pendingOrders)
      by (intros o Ho; apply Htodo; now right).
    destruct (OrderController.has processed _) eqn:Hhas.
    { destruct (IH groups processed) as (p' & ? & ? & ? & ? & Hmono & Hall);
        auto.
      exists p'. repeat apply conj; auto.
      intros o [<-|Ho]; [|now apply Hall].
      apply Hmono. now apply has_iff. }
    destruct (OrderController.nearbyLoop _ _ _ _ _ _) as [group p1] eqn:Hloop.
    apply nearbyLoop_spec in Hloop
      as (added & -> & -> & Hincl & Hcan & Hndadd & Hnew).
    assert (Hfresh : ~ In (id order) processed).
    { intros Hp. apply has_iff in Hp. unfold id in Hp. congruence. }
    destruct (IH (groups ++ [[order] ++ added])
                 (rev (map id added) ++ id order :: processed))
      as (p' & ? & ? & ? & ? & Hmono & Hall); auto.
    + rewrite concat_app, map_app, Hmap. cbn. rewrite app_nil_r.
      rewrite rev_app_distr, rev_involutive. cbn.
      now rewrite <- app_assoc.
    + apply NoDup_app; repeat apply conj.
      * apply NoDup_rev. exact Hndadd.
      * constructor; assumption.
      * intros x Hx [<-|Hp].
        -- apply in_rev, in_map_iff in Hx as (a & E & Ha).
           apply (Hnew a Ha). left. symmetry. exact E.
        -- apply in_rev, in_map_iff in Hx as (a & E & Ha).
           apply (Hnew a Ha). right. change (In (id a) processed).
           now rewrite E.
    + rewrite concat_app. cbn. rewrite app_nil_r.
      apply incl_app; [exact Hin|].
      intros o [<-|Ho]; [apply Htodo; now left|now apply Hincl].
    + apply Forall_app. split; [exact Hshape|].
      constructor; [|constructor]. exists order, added. split; auto.
    + exists p'. repeat apply conj; auto.
      * intros x Hx. apply Hmono. apply in_or_app. right. now right.
      * intros o [<-|Ho]; [|now apply Hall].
        apply Hmono. apply in_or_app. right. now left.
Qed.

(** X23. [groupNearbyOrders] splits the pending orders, when their ids are
    distinct, into groups: every pending order is in exactly one group, no
    group is empty, and every order of a group is pending and lies within
    [maxDistance] of the first order of its group. *)
Theorem groupNearbyOrders_partition (s : Store.t) (orders : list oref)
    (maxDistance : R) :
  NoDup (map (fun o => Order.id (Store.orders s o))
             (OrderController.getPendingOrders s orders)) ->
  Permutation (concat (OrderController.groupNearbyOrders s orders maxDistance))
              (OrderController.getPendingOrders s orders)
  /\ forall g,
       In g (OrderController.groupNearbyOrders s orders maxDistance) ->
       exists first rest,
         g = first :: rest
         /\ forall o, In o rest ->
              Order.status (Store.orders s o) = pending
              /\ Order.getDistanceTo (Store.orders s first)
                                     (Order.location (Store.orders s o))
                 <= maxDistance.
Proof.
  intros Hids. unfold OrderController.groupNearbyOrders. cbv zeta.
  set (pend := OrderController.getPendingOrders s orders) in *.
  destruct (groupLoop_spec s maxDistance pend pend [] [])
    as (p' & Hmap & Hnd & Hin & Hshape & _ & Hall); cbn; auto.
  - constructor.
  - intros o [].
  - apply incl_refl.
  - cbv zeta in Hmap, Hin, Hshape.
    set (groups := OrderController.groupLoop s maxDistance pend pend [] [])
      in *.
    split.
    + apply NoDup_Permutation.
      * apply (NoDup_map_inv (fun o => Order.id (Store.orders s o))).
        rewrite Hmap. now apply NoDup_rev.
      * apply (NoDup_map_inv _ _ Hids).
      * intros o. split; [apply Hin|].
        intros Ho. specialize (Hall o Ho).
        apply in_rev in Hall. rewrite <- Hmap in Hall.
        apply in_map_iff in Hall as (o' & E & Ho').
        assert (o' = o); [|now subst].
        apply (NoDup_map_inj _ _ _ _ Hids); auto.
    + intros g Hg. rewrite Forall_forall in Hshape.
      destruct (Hshape g Hg) as (first & rest & -> & Hcan).
      exists first, rest. split; [reflexivity|].
      intros o Ho. apply Hcan, canGroupWith_true in Ho. tauto.
Qed.

(** * DeliveryController: groups of orders *)

Lemma group_nearestLoop_bound orders currentPosition rest i n d :
  (n < i)%nat ->
  (DeliveryController.nearestLoop orders currentPosition rest i n d
   < i + List.length rest)%nat.
Proof.
  revert i n d. induction rest as [|r rest IH]; intros i n d Hn; cbn; [lia|].
  destruct (Rlt_dec _ d).
  - specialize (IH (S i) i
      (DeliveryController.calculateDistance currentPosition
         (Order.location (orders r)))). lia.
  - specialize (IH (S i) n d). lia.
Qed.


Lemma exceeds_false (x : R) (m : option R) :
  exceeds x m = false -> exists v, m = Some v /\ x <= v.
Proof.
  destruct m as [v|]; cbn; [|discriminate].
  intros H. apply Rltb_false_iff in H. exists v. split; [reflexivity|lra].
Qed.

Lemma totalWeight_snoc orders group o :
  DeliveryController.totalWeight orders (group ++ [o])
  = DeliveryController.totalWeight orders group + Order.weight (orders o).
Proof.
  unfold DeliveryController.totalWeight. now rewrite fold_left_app.
Qed.

(** A group within the limits [maxCapacity] and [maxRange]. *)
Lemma candidateLoop_spec orders maxCapacity maxRange basePosition n unassigned
    group :
  (n <= List.length unassigned)%nat ->
  exists group' unassigned',
    DeliveryController.candidateLoop orders maxCapacity maxRange basePosition
      n unassigned group (DeliveryController.totalWeight orders group)
    = OK (group', unassigned')
    /\ Permutation (group' ++ unassigned') (group ++ unassigned)
    /\ (exists added, group' = group ++ added)
    /\ (group' = group
        \/ exists c r,
             maxCapacity = Some c /\ maxRange = Some r
             /\ DeliveryController.totalWeight orders group' <= c
             /\ DeliveryController.calculateGroupDistance orders group'
                  basePosition <= r).
Proof.
  revert unassigned group.
  induction n as [|i IH]; intros unassigned group Hn.
  - exists group, unassigned. cbn. repeat apply conj; auto.
    exists []. now rewrite app_nil_r.
  - cbn [DeliveryController.candidateLoop].
    destruct (nth_error unassigned i) as [cand|] eqn:Hnth.
    2:{ apply nth_error_None in Hnth. lia. }
    assert (Hskip : exists group' unassigned',
      DeliveryController.candidateLoop orders maxCapacity maxRange
        basePosition i unassigned group
        (DeliveryController.totalWeight orders group)
      = OK (group', unassigned')
      /\ Permutation (group' ++ unassigned') (group ++ unassigned)
      /\ (exists added, group' = group ++ added)
      /\ (group' = group
          \/ exists c r,
               maxCapacity = Some c /\ maxRange = Some r
               /\ DeliveryController.totalWeight orders group' <= c
               /\ DeliveryController.calculateGroupDistance orders group'
                    basePosition <= r))
      by (apply IH; lia).
    destruct (exceeds _ maxCapacity) eqn:Hcap; [exact Hskip|].
    destruct (exceeds _ maxRange) eqn:Hrange; [exact Hskip|].
    clear Hskip. rewrite <- totalWeight_snoc.
    destruct (IH (splice1 i unassigned) (group ++ [cand]))
      as (group' & unassigned' & Heq & Hperm & [added Hadded] & Hlim).
    { rewrite splice1_length by lia. lia. }
    exists group', unassigned'. repeat apply conj.
    + exact Heq.
    + rewrite Hperm, <- app_assoc. apply Permutation_app_head. cbn.
      rewrite <- (nth_error_nth _ _ cand Hnth) at 1.
      apply nth_splice1_perm. lia.
    + exists (cand :: added). rewrite Hadded, <- app_assoc. reflexivity.
    + right. destruct Hlim as [->|Hlim]; [|exact Hlim].
      apply exceeds_false in Hcap as (c & -> & Hc).
      apply exceeds_false in Hrange as (r & -> & Hr).
      exists c, r. rewrite totalWeight_snoc. auto.
Qed.

Lemma groupsLoop_spec (P : list oref -> Prop) fuel orders maxCapacity maxRange
    unassigned groups :
  (forall first added,
      (added = []
       \/ exists c r,
            maxCapacity = Some c /\ maxRange = Some r
            /\ DeliveryController.totalWeight orders (first :: added) <= c
            /\ DeliveryController.calculateGroupDistance orders
                 (first :: added) (Point.mk 10 10) <= r) ->
      P (first :: added)) ->
  (List.length unassigned <= fuel)%nat ->
  Forall P groups ->
  exists groups',
    DeliveryController.groupsLoop fuel orders maxCapacity maxRange unassigned
                                  groups
    = OK groups'
    /\ Permutation (concat groups') (concat groups ++ unassigned)
    /\ Forall P groups'.
Proof.
  intros HP. revert unassigned groups.
  induction fuel as [|fuel IH]; intros unassigned groups Hlen Hall.
  - destruct unassigned; [|cbn in Hlen; lia].
    exists groups. cbn. rewrite app_nil_r. auto.
  - destruct unassigned as [|firstOrder rest].
    { exists groups. cbn. rewrite app_nil_r. auto. }
    cbn [DeliveryController.groupsLoop].
    destruct (candidateLoop_spec orders maxCapacity maxRange (Point.mk 10 10)
                (List.length rest) rest [firstOrder] (Nat.le_refl _))
      as (group & unassigned' & Heq & Hperm & [added ->] & Hlim).
    change (DeliveryController.totalWeight orders [firstOrder])
      with (0 + Order.weight (orders firstOrder)) in Heq.
    rewrite Heq. cbn [bindExc fst snd].
    destruct (IH unassigned' (groups ++ [[firstOrder] ++ added]))
      as (groups' & Hloop & Hparts & Hall').
    + apply Permutation_length in Hperm.
      rewrite !length_app in Hperm. cbn in Hperm, Hlen |- *. lia.
    + apply Forall_app. split; [exact Hall|].
      constructor; [|constructor]. apply HP.
      destruct Hlim as [Hsame|Hlim]; [left|right; exact Hlim].
      apply (f_equal (@List.length _)) in Hsame.
      rewrite length_app in Hsame. cbn in Hsame.
      destruct added; [reflexivity|cbn in Hsame; lia].
    + exists groups'. repeat apply conj; auto.
      rewrite Hparts, concat_app. cbn [concat]. rewrite app_nil_r.
      rewrite <- app_assoc. apply Permutation_app_head.
      exact Hperm.
Qed.

Lemma createOptimalGroups_groups (s : Store.t) (orders : list oref)
    (drones : list dref) :
  exists groups,
    DeliveryController.createOptimalGroups s orders drones = OK groups
    /\ Permutation (concat groups) orders
    /\ forall g, In g groups -> g <> [].
Proof.
  unfold DeliveryController.createOptimalGroups. cbv zeta.
  destruct (groupsLoop_spec (fun g => g <> []) (List.length orders)
              (Store.orders s)
              (math_max (map (fun d => Drone.capacity (Store.drones s d))
                             drones))
              (math_max (map (fun d => Drone.range (Store.drones s d))
                             drones))
              orders [])
    as (groups & Heq & Hperm & Hall).
  - intros first added _. discriminate.
  - apply Nat.le_refl.
  - constructor.
  - exists groups. repeat apply conj; auto. now apply Forall_forall.
Qed.


(** * DeliveryController: groups given to drones *)

Lemma group_bestDroneLoop_picks s group drones d :
  DeliveryController.findBestDroneForGroup s group drones = Some d ->
  In d drones
  /\ Drone.status (Store.drones s d) = idle
  /\ Drone.currentLoad (Store.drones s d)
     + DeliveryController.totalWeight (Store.orders s) group
     <= Drone.capacity (Store.drones s d)
  /\ DeliveryController.calculateGroupDistance (Store.orders s) group
       (Point.mk 10 10)
     <= Drone.range (Store.drones s d).
Proof.
  unfold DeliveryController.findBestDroneForGroup.
  set (ok := fun d =>
    In d drones
    /\ Drone.status (Store.drones s d) = idle
    /\ Drone.currentLoad (Store.drones s d)
       + DeliveryController.totalWeight (Store.orders s) group
       <= Drone.capacity (Store.drones s d)
    /\ DeliveryController.calculateGroupDistance (Store.orders s) group
         (Point.mk 10 10)
       <= Drone.range (Store.drones s d)).
  assert (H : forall l best score d,
    incl l drones ->
    DeliveryController.bestDroneLoop s group l best score = Some d ->
    best = Some d \/ ok d).
  { induction l as [|d0 l IH]; intros best score d' Hincl; cbn.
    - intros ->. now left.
    - assert (Hl : incl l drones) by (intros x Hx; apply Hincl; now right).
      destruct (OptimizationAlgorithm.is_idle s d0) eqn:Hidle; cbn;
        [|now apply IH].
      destruct (Rltb (Drone.capacity _) _) eqn:Hcap; [now apply IH|].
      destruct (Rltb (Drone.range _) _) eqn:Hrange; [now apply IH|].
      destruct (Rlt_dec score _); [|now apply IH].
      intros Hb. apply IH in Hb as [E|Hb]; auto.
      inversion E; subst. right. unfold ok. repeat apply conj.
      + apply Hincl. now left.
      + now apply is_idle_iff.
      + apply Rltb_false_iff in Hcap. lra.
      + apply Rltb_false_iff in Hrange. lra. }
  intros Hb. apply H in Hb as [E|Hb]; [discriminate|exact Hb|apply incl_refl].
Qed.

Lemma assignGroupLoop_run s d group ok s' :
  DeliveryController.assignGroupLoop s d group = (ok, s') ->
  exists p q,
    group = p ++ q /\ run s p s' /\ (ok = true -> q = [])
    /\ dronesOutside [d] s s'.
Proof.
  revert s. induction group as [|o group IH]; intros s; cbn.
  - intros H. inversion H; subst. exists [], []. repeat apply conj; auto.
    apply dronesOutside_refl.
  - destruct (callAssignOrder s d o) as [[|] s1] eqn:Hstep.
    + intros H. apply IH in H as (p & q & -> & Hrun & Hok & Hout).
      exists (o :: p), q. repeat apply conj; eauto.
      eapply dronesOutside_trans; [|exact Hout].
      eapply callAssignOrder_dronesOutside; eauto.
    + intros H. inversion H; subst.
      apply callAssignOrder_false in Hstep as ->.
      exists [], (o :: group). repeat apply conj; auto.
      * discriminate.
      * apply dronesOutside_refl.
Qed.

Lemma NoDup_app_inv {A : Type} (l1 l2 : list A) :
  NoDup (l1 ++ l2) ->
  NoDup l1 /\ NoDup l2 /\ forall a, In a l1 -> ~ In a l2.
Proof.
  intros H. split; [now apply NoDup_app_remove_r in H|].
  split; [now apply NoDup_app_remove_l in H|].
  induction l1 as [|x l1 IH]; [intros a []|].
  cbn in H. inversion H as [|? ? Hx Hl]; subst.
  intros a [<-|Ha].
  - intros Hin. apply Hx. apply in_or_app. now right.
  - now apply IH.
Qed.

Lemma Permutation_concat {A : Type} (l l' : list (list A)) :
  Permutation l l' -> Permutation (concat l) (concat l').
Proof.
  induction 1; cbn.
  - reflexivity.
  - now apply Permutation_app_head.
  - rewrite !app_assoc. apply Permutation_app_tail, Permutation_app_comm.
  - etransitivity; eauto.
Qed.

Lemma groupsAssignLoop_trace s0 s drones groups c s' c' :
  (forall d, sameDroneFrame (Store.drones s0 d) (Store.drones s d)) ->
  Forall (fun g : list oref => g <> []) groups ->
  DeliveryController.groupsAssignLoop s drones groups c = (s', c') ->
  exists l k m,
    run s l s' /\ incl l (concat groups)
    /\ (NoDup (concat groups) -> NoDup l)
    /\ DeliveryController.assignedGroups c'
       = (DeliveryController.assignedGroups c + k)%nat
    /\ DeliveryController.totalTrips c'
       = (DeliveryController.totalTrips c + k)%nat
    /\ DeliveryController.assignedOrders c'
       = (DeliveryController.assignedOrders c + m)%nat
    /\ (k <= m)%nat /\ (m <= List.length l)%nat
    /\ (m <= List.length (concat groups))%nat
    /\ dronesOutside (filter (OptimizationAlgorithm.is_idle s0) drones) s s'.
Proof.
  intros Hs0 Hne. revert s c Hs0.
  induction Hne as [|g groups Hg Hne IH]; intros s c Hs0; cbn.
  - intros H. inversion H; subst. exists [], 0%nat, 0%nat.
    repeat apply conj; auto; try lia.
    + intros x [].
    + apply dronesOutside_refl.
  - assert (Hskip :
      DeliveryController.groupsAssignLoop s drones groups c = (s', c') ->
      exists l k m,
        run s l s' /\ incl l (g ++ concat groups)
        /\ (NoDup (g ++ concat groups) -> NoDup l)
        /\ DeliveryController.assignedGroups c'
           = (DeliveryController.assignedGroups c + k)%nat
        /\ DeliveryController.totalTrips c'
           = (DeliveryController.totalTrips c + k)%nat
        /\ DeliveryController.assignedOrders c'
           = (DeliveryController.assignedOrders c + m)%nat
        /\ (k <= m)%nat /\ (m <= List.length l)%nat
        /\ (m <= List.length (g ++ concat groups))%nat
        /\ dronesOutside (filter (OptimizationAlgorithm.is_idle s0) drones)
                         s s').
    { intros H. apply IH in H
        as (l & k & m & Hr & Hi & Hn & ? & ? & ? & ? & ? & ? & ?); auto.
      exists l, k, m. repeat apply conj; auto.
      - intros x Hx. apply in_or_app. right. now apply Hi.
      - intros Hnd. apply Hn. now apply NoDup_app_remove_l in Hnd.
      - rewrite length_app. lia. }
    destruct (DeliveryController.findBestDroneForGroup s g drones)
      as [d|] eqn:Hbest; [|exact Hskip]. clear Hskip.
    apply group_bestDroneLoop_picks in Hbest as (Hd & Hidle & _).
    destruct (DeliveryController.assignGroupLoop s d g) as [ok s1] eqn:Hloop.
    apply assignGroupLoop_run in Hloop as (p & q & -> & Hrun & Hok & Hout).
    assert (Hs1 : forall d', sameDroneFrame (Store.drones s0 d')
                                            (Store.drones s1 d')).
    { intros d'. eapply sameDroneFrame_trans; [apply Hs0|].
      now apply (run_drone_static s p s1). }
    assert (Hout' : dronesOutside
                      (filter (OptimizationAlgorithm.is_idle s0) drones) s s1).
    { eapply dronesOutside_incl; [|exact Hout].
      intros d' [<-|[]]. apply filter_In. split; [exact Hd|].
      apply is_idle_iff. destruct (Hs0 d) as (_ & _ & _ & _ & _ & Hst & _).
      congruence. }
    assert (Hcombine : forall c1 k0 m0,
      DeliveryController.assignedGroups c1
      = (DeliveryController.assignedGroups c + k0)%nat ->
      DeliveryController.totalTrips c1
      = (DeliveryController.totalTrips c + k0)%nat ->
      DeliveryController.assignedOrders c1
      = (DeliveryController.assignedOrders c + m0)%nat ->
      (k0 <= m0)%nat -> (m0 <= List.length p)%nat ->
      DeliveryController.groupsAssignLoop s1 drones groups c1 = (s', c') ->
      exists l k m,
        run s l s' /\ incl l ((p ++ q) ++ concat groups)
        /\ (NoDup ((p ++ q) ++ concat groups) -> NoDup l)
        /\ DeliveryController.assignedGroups c'
           = (DeliveryController.assignedGroups c + k)%nat
        /\ DeliveryController.totalTrips c'
           = (DeliveryController.totalTrips c + k)%nat
        /\ DeliveryController.assignedOrders c'
           = (DeliveryController.assignedOrders c + m)%nat
        /\ (k <= m)%nat /\ (m <= List.length l)%nat
        /\ (m <= List.length ((p ++ q) ++ concat groups))%nat
        /\ dronesOutside (filter (OptimizationAlgorithm.is_idle s0) drones)
                         s s').
    { intros c1 k0 m0 Hk Ht Hm Hkm Hmp H. apply IH in H
        as (l & k & m & Hr & Hi & Hn & Hk' & Ht' & Hm' & ? & ? & ? & ?); auto.
      exists (p ++ l), (k0 + k)%nat, (m0 + m)%nat. repeat apply conj.
      - eapply run_app; eauto.
      - intros x Hx. apply in_app_or in Hx as [Hx|Hx].
        + apply in_or_app. left. apply in_or_app. now left.
        + apply in_or_app. right. now apply Hi.
      - intros Hnd. rewrite <- app_assoc in Hnd.
        apply NoDup_app_inv in Hnd as (Hp & Hrest & Hdisj).
        apply NoDup_app; auto.
        + apply Hn. now apply NoDup_app_remove_l in Hrest.
        + intros x Hx Hl. apply (Hdisj x Hx).
          apply in_or_app. right. now apply Hi.
      - lia.
      - lia.
      - lia.
      - lia.
      - rewrite length_app. lia.
      - rewrite !length_app in *. lia.
      - eapply dronesOutside_trans; eauto. }
    destruct ok.
    + rewrite (Hok eq_refl) in *. rewrite app_nil_r in *.
      apply (Hcombine _ 1%nat (List.length p)); cbn; try lia.
      destruct p; [congruence|cbn; lia].
    + apply (Hcombine c 0%nat 0%nat); lia.
Qed.

Lemma totalOrders_length {A : Type} (groups : list (list A)) (n : nat) :
  fold_left (fun totalOrders group => (totalOrders + List.length group)%nat)
            groups n
  = (n + List.length (concat groups))%nat.
Proof.
  revert n. induction groups as [|g groups IH]; intros n; cbn; [lia|].
  rewrite IH, length_app. lia.
Qed.

Lemma performAdvancedOptimization_trace now s orders drones totalTrips :
  exists report s' totalTrips' l,
    DeliveryController.performAdvancedOptimization now s orders drones
                                                   totalTrips
    = OK (report, s', totalTrips')
    /\ run s l s' /\ incl l orders /\ (NoDup orders -> NoDup l)
    /\ DeliveryController.Report.totalOrders report = List.length orders
    /\ totalTrips'
       = (totalTrips + DeliveryController.Report.totalTrips report)%nat
    /\ (DeliveryController.Report.totalTrips report
        <= DeliveryController.Report.assignedOrders report)%nat
    /\ (DeliveryController.Report.assignedOrders report
        <= List.length l)%nat
    /\ (DeliveryController.Report.assignedOrders report
        <= DeliveryController.Report.totalOrders report)%nat
    /\ DeliveryController.Report.success report
       = Nat.ltb 0 (DeliveryController.Report.assignedOrders report)
    /\ dronesOutside (filter (OptimizationAlgorithm.is_idle s) drones) s s'.
Proof.
  unfold DeliveryController.performAdvancedOptimization. cbv zeta.
  destruct (createOptimalGroups_groups s
              (DeliveryController.prioritizeOrders now s orders) drones)
    as (groups & -> & Hperm & Hne).
  cbn [bindExc]. unfold DeliveryController.assignGroupsToDrones. cbv zeta.
  set (sorted := js_sort _ groups).
  assert (Hsorted : Permutation (concat sorted) orders).
  { unfold sorted. rewrite (Permutation_concat _ _ (js_sort_perm _ groups)).
    rewrite Hperm. apply js_sort_perm. }
  destruct (DeliveryController.groupsAssignLoop s drones sorted _)
    as [s' c'] eqn:Hloop.
  apply (groupsAssignLoop_trace s) in Hloop
    as (l & k & m & Hr & Hi & Hn & Hk & Ht & Hm & Hkm & Hml & Hmc & Hout).
  2:{ intros d. unfold sameDroneFrame. intuition. }
  2:{ apply Forall_forall. intros g Hg. apply Hne.
      eapply Permutation_in; [apply js_sort_perm|exact Hg]. }
  cbn in Hk, Ht, Hm.
  exists (DeliveryController.Report.mk
            (Nat.ltb 0 (DeliveryController.assignedOrders c'))
            (nat_to_string (DeliveryController.assignedOrders c') ++ " de "
             ++ nat_to_string
                  (fold_left (fun totalOrders group =>
                                (totalOrders + List.length group)%nat)
                             groups 0%nat)
             ++ " pedidos atribuídos em "
             ++ nat_to_string (DeliveryController.assignedGroups c')
             ++ " viagens")%string
            (DeliveryController.assignedOrders c')
            (fold_left (fun totalOrders group =>
                          (totalOrders + List.length group)%nat)
                       groups 0%nat)
            (DeliveryController.assignedGroups c')
            (if Nat.ltb 0 (fold_left (fun totalOrders group =>
                                        (totalOrders + List.length group)%nat)
                                     groups 0%nat)
             then js_round
                    (INR (DeliveryController.assignedOrders c')
                     / INR (fold_left
                              (fun totalOrders group =>
                                 (totalOrders + List.length group)%nat)
                              groups 0%nat) * 100)
             else 0)), s', (DeliveryController.totalTrips c'), l.
  cbn [DeliveryController.Report.totalOrders
       DeliveryController.Report.totalTrips
       DeliveryController.Report.assignedOrders
       DeliveryController.Report.success].
  rewrite totalOrders_length.
  assert (Hlen : List.length (concat groups) = List.length orders).
  { rewrite (Permutation_length Hperm).
    apply Permutation_length, js_sort_perm. }
  assert (Hlen' : List.length (concat sorted) = List.length orders)
    by apply (Permutation_length Hsorted).
  repeat apply conj; auto; try lia.
  - intros x Hx. eapply Permutation_in; [exact Hsorted|]. now apply Hi.
  - intros Hnd. apply Hn.
    eapply Permutation_NoDup; [symmetry; exact Hsorted|exact Hnd].
Qed.

(** X25. [performAdvancedOptimization] never throws and keeps the books for
    any orders and drones: a store in which every drone's [currentLoad] is
    the sum of the weights of its orders and within its capacity stays so;
    and when the orders given are distinct and pending, a store in which
    every assigned order is listed by exactly the drone it names stays
    so. *)
Theorem performAdvancedOptimization_keeps_invariants (now : R) (s : Store.t)
    (orders : list oref) (drones : list dref) (totalTrips : nat) :
  exists report s' totalTrips',
    DeliveryController.performAdvancedOptimization now s orders drones
                                                   totalTrips
    = OK (report, s', totalTrips')
    /\ (loadInvariant s -> loadInvariant s')
    /\ (NoDup orders ->
        (forall o, In o orders -> Order.status (Store.orders s o) = pending) ->
        assignmentInvariant s ->
        assignmentInvariant s' /\ assignedExactlyOnce s').
Proof.
  destruct (performAdvancedOptimization_trace now s orders drones totalTrips)
    as (report & s' & totalTrips' & l & Heq & Hr & Hi & Hn & _).
  exists report, s', totalTrips'. repeat apply conj; [exact Heq| |].
  - intros HI. eapply run_stepClosed; eauto using loadInvariant_stepClosed.
  - intros Hnd Hp HI.
    assert (HI' : assignmentInvariant s').
    { eapply assignmentInvariant_run; eauto. }
    split; [exact HI'|now apply assignmentInvariant_exactlyOnce].
Qed.

(** X26. The report of [performAdvancedOptimization] does not overstate:
    [totalOrders] is the number of orders given, [totalTrips] and
    [assignedOrders] obey [totalTrips <= assignedOrders <= totalOrders],
    [this.totalTrips] grows by the trips reported, and when the orders given
    are distinct at least [assignedOrders] of them are assigned afterwards
    (only the groups that were assigned in full are counted).  No drone
    outside the list or not idle is changed, and no order outside the
    list. *)
Theorem performAdvancedOptimization_report (now : R) (s : Store.t)
    (orders : list oref) (drones : list dref) (totalTrips : nat) :
  exists report s' totalTrips',
    DeliveryController.performAdvancedOptimization now s orders drones
                                                   totalTrips
    = OK (report, s', totalTrips')
    /\ DeliveryController.Report.totalOrders report = List.length orders
    /\ (DeliveryController.Report.totalTrips report
        <= DeliveryController.Report.assignedOrders report
        <= DeliveryController.Report.totalOrders report)%nat
    /\ totalTrips'
       = (totalTrips + DeliveryController.Report.totalTrips report)%nat
    /\ (NoDup orders ->
        (DeliveryController.Report.assignedOrders report
         <= List.length
              (filter (fun o => OrderStatus_eqb
                                  (Order.status (Store.orders s' o)) assigned)
                      orders))%nat)
    /\ (DeliveryController.Report.success report = true ->
        exists o, In o orders
                  /\ Order.status (Store.orders s' o) = assigned)
    /\ (forall d,
           ~ In d drones \/ Drone.status (Store.drones s d) <> idle ->
           Store.drones s' d = Store.drones s d)
    /\ (forall o, ~ In o orders -> Store.orders s' o = Store.orders s o).
Proof.
  destruct (performAdvancedOptimization_trace now s orders drones totalTrips)
    as (report & s' & totalTrips' & l & Heq & Hr & Hi & Hn & Htot & Htrips
        & Hta & Hal & Hat & Hsucc & Hout).
  exists report, s', totalTrips'.
  split; [exact Heq|]. split; [exact Htot|]. split; [lia|].
  split; [exact Htrips|]. split; [|split; [|split]].
  - intros Hnd. etransitivity; [exact Hal|].
    apply NoDup_incl_length; [now apply Hn|].
    intros o Ho. apply filter_In. split; [now apply Hi|].
    rewrite (run_assigned _ _ _ _ Hr Ho). reflexivity.
  - rewrite Hsucc. intros Hpos. apply Nat.ltb_lt in Hpos.
    destruct l as [|o l]; [cbn in Hal; lia|].
    exists o. split; [apply Hi; now left|].
    eapply run_assigned; eauto. now left.
  - intros d Hd. apply Hout. intros Hin.
    apply filter_In in Hin as [Hin Hidle]. apply is_idle_iff in Hidle.
    tauto.
  - intros o Ho. eapply run_orders_frame; [exact Hr|].
    intros Hin. apply Ho. now apply Hi.
Qed.

Lemma addWeights_ge (orders : OrderHeap) (group : list oref) (a : R) :
  (forall o, In o group -> 0 <= Order.weight (orders o)) ->
  a <= fold_left (fun sum order => sum + Order.weight (orders order)) group a.
Proof.
  revert a. induction group as [|o group IH]; intros a Hw; cbn; [lra|].
  specialize (IH (a + Order.weight (orders o))
                 (fun o' Ho' => Hw o' (or_intror Ho'))).
  specialize (Hw o (or_introl eq_refl)). lra.
Qed.

Lemma addWeights_ext (orders orders' : OrderHeap) (group : list oref) (a : R) :
  (forall o, Order.weight (orders' o) = Order.weight (orders o)) ->
  fold_left (fun sum order => sum + Order.weight (orders' order)) group a
  = fold_left (fun sum order => sum + Order.weight (orders order)) group a.
Proof.
  intros H. revert a. induction group as [|o group IH]; intros a; cbn;
    [reflexivity|]. now rewrite H, IH.
Qed.

Lemma sumWeights_nonneg s l :
  (forall o, In o l -> 0 <= Order.weight (Store.orders s o)) ->
  0 <= sumWeights s l.
Proof.
  induction l as [|o l IH]; intros H; cbn; [lra|].
  assert (0 <= Order.weight (Store.orders s o)) by (apply H; now left).
  assert (0 <= sumWeights s l) by (apply IH; intros; apply H; now right).
  lra.
Qed.

Lemma step_keeps_listed s d o s' d' o' :
  callAssignOrder s d o = (true, s') ->
  In o' (Drone.assignedOrders (Store.drones s d')) ->
  In o' (Drone.assignedOrders (Store.drones s' d')).
Proof.
  intros H Hin. apply callAssignOrder_true in H as [_ ->]. cbn.
  unfold upd. destruct (Nat.eqb d' d) eqn:E; [|exact Hin].
  apply Nat.eqb_eq in E as ->. cbn. apply in_or_app. now left.
Qed.

Lemma run_keeps_listed s l s' d' o' :
  run s l s' ->
  In o' (Drone.assignedOrders (Store.drones s d')) ->
  In o' (Drone.assignedOrders (Store.drones s' d')).
Proof. induction 1; eauto using step_keeps_listed. Qed.

Lemma calculateBatteryNeeded_mono (x y : R) :
  x <= y -> Drone.calculateBatteryNeeded x <= Drone.calculateBatteryNeeded y.
Proof.
  intros H. unfold Drone.calculateBatteryNeeded.
  apply Rle_min_compat_l. lra.
Qed.

Lemma assignGroupLoop_all d group s :
  (forall o, In o group -> 0 <= Order.weight (Store.orders s o)) ->
  fold_left (fun sum order => sum + Order.weight (Store.orders s order)) group
            (Drone.currentLoad (Store.drones s d))
  <= Drone.capacity (Store.drones s d) ->
  (forall o, In o group ->
     let totalDistance :=
       Drone.calculateDistance (Drone.position (Store.drones s d))
                               (Order.location (Store.orders s o))
       + Drone.calculateDistance (Order.location (Store.orders s o))
                                 (Drone.basePosition (Store.drones s d)) in
     totalDistance <= Drone.range (Store.drones s d)
     /\ Drone.calculateBatteryNeeded totalDistance
        <= Drone.battery (Store.drones s d)) ->
  exists s',
    DeliveryController.assignGroupLoop s d group = (true, s')
    /\ run s group s'
    /\ forall o, In o group ->
         In o (Drone.assignedOrders (Store.drones s' d)).
Proof.
  revert s. induction group as [|o group IH]; intros s Hw Hload Hreach.
  - exists s. cbn. repeat apply conj; auto. intros o [].
  - cbn [fold_left] in Hload.
    assert (Hfirst : Drone.currentLoad (Store.drones s d)
                     + Order.weight (Store.orders s o)
                     <= Drone.capacity (Store.drones s d)).
    { eapply Rle_trans; [|exact Hload].
      apply addWeights_ge. intros o' Ho'. apply Hw. now right. }
    assert (Hcan : Drone.canCarryOrder (Store.drones s d) (Store.orders s o)
                   = true).
    { unfold Drone.canCarryOrder. cbv zeta.
      destruct (Hreach o (or_introl eq_refl)) as [Hr Hb]. cbv zeta in Hr, Hb.
      rewrite !andb_true_iff, !Rleb_true_iff.
      repeat apply conj; [exact Hfirst|exact Hr|exact Hb]. }
    destruct (callAssignOrder_can s d o Hcan) as [s1 Hstep].
    cbn [DeliveryController.assignGroupLoop]. rewrite Hstep.
    assert (Hord : forall o', sameOrderFrame (Store.orders s o')
                                             (Store.orders s1 o'))
      by (intros o'; eapply step_order_static; eauto).
    pose proof (step_drone_static _ _ _ _ d Hstep) as Hdr.
    unfold sameDroneFrame in Hdr.
    destruct Hdr as (_ & Hcap & Hrange & Hbat & Hpos & _ & _ & _ & _ & Hbase
                     & _).
    assert (Hload1 : Drone.currentLoad (Store.drones s1 d)
                     = Drone.currentLoad (Store.drones s d)
                       + Order.weight (Store.orders s o)).
    { pose proof Hstep as Hs. apply callAssignOrder_true in Hs as [_ ->].
      cbn. now rewrite upd_same. }
    assert (Hweights : forall o', Order.weight (Store.orders s1 o')
                                  = Order.weight (Store.orders s o')).
    { intros o'. now destruct (Hord o') as (_ & _ & ? & _). }
    destruct (IH s1) as (s' & Heq & Hrun & Hlisted).
    + intros o' Ho'. rewrite Hweights. apply Hw. now right.
    + rewrite Hload1, Hcap.
      now rewrite (addWeights_ext (Store.orders s) (Store.orders s1)).
    + intros o' Ho'. cbv zeta. rewrite Hpos, Hbase, Hrange, Hbat.
      destruct (Hord o') as (_ & -> & _).
      apply (Hreach o'). now right.
    + exists s'. repeat apply conj; eauto.
      intros o' [<-|Ho']; [|now apply Hlisted].
      eapply run_keeps_listed; [exact Hrun|].
      pose proof Hstep as Hs. apply callAssignOrder_true in Hs as [_ ->].
      cbn. rewrite upd_same. cbn. apply in_or_app. right. now left.
Qed.

(** X27. A group that [findBestDroneForGroup] accepts for a drone without
    load is then assigned to it in full, provided no order of the group has
    a negative weight and the drone could carry each order of the group
    alone: the weight that was checked for the whole group covers the
    weight that [assignOrder] checks order by order.  Every order of the
    group is assigned afterwards and on the drone's list. *)
Theorem accepted_group_assigned_in_full (s : Store.t) (group : list oref)
    (drones : list dref) (d : dref) :
  DeliveryController.findBestDroneForGroup s group drones = Some d ->
  Drone.currentLoad (Store.drones s d) = 0 ->
  (forall o, In o group -> 0 <= Order.weight (Store.orders s o)) ->
  (forall o, In o group ->
     Drone.canCarryOrder (Store.drones s d) (Store.orders s o) = true) ->
  exists s',
    DeliveryController.assignGroupLoop s d group = (true, s')
    /\ forall o, In o group ->
         Order.status (Store.orders s' o) = assigned
         /\ In o (Drone.assignedOrders (Store.drones s' d)).
Proof.
  intros Hbest Hzero Hw Halone.
  apply group_bestDroneLoop_picks in Hbest as (_ & _ & Hload & _).
  rewrite Hzero, Rplus_0_l in Hload.
  unfold DeliveryController.totalWeight in Hload.
  destruct (assignGroupLoop_all d group s Hw) as (s' & Heq & Hrun & Hl).
  - now rewrite Hzero.
  - intros o Ho. cbv zeta. specialize (Halone o Ho).
    unfold Drone.canCarryOrder in Halone. cbv zeta in Halone.
    rewrite !andb_true_iff, !Rleb_true_iff in Halone. tauto.
  - exists s'. split; [exact Heq|]. intros o Ho. split; [|now apply Hl].
    eapply run_assigned; eauto.
Qed.

Lemma nearTwo_group_distance :
  DeliveryController.calculateGroupDistance (Store.orders nearTwo) [0; 1]%nat
    (Point.mk 10 10) = 6.
Proof. run_model. real_fact. Qed.

Lemma nearTwo_first_alone :
  Drone.canCarryOrder (Store.drones nearTwo 0%nat)
                      (Store.orders nearTwo 0%nat) = true.
Proof. run_model. reflexivity. Qed.

Lemma nearTwo_second_alone :
  Drone.canCarryOrder (Store.drones nearTwo 0%nat)
                      (Store.orders nearTwo 1%nat) = true.
Proof. run_model. reflexivity. Qed.

Lemma nearTwo_best_drone :
  DeliveryController.findBestDroneForGroup nearTwo [0; 1]%nat [0]%nat
  = Some 0%nat.
Proof.
  unfold DeliveryController.findBestDroneForGroup.
  cbn [DeliveryController.bestDroneLoop].
  rewrite nearTwo_group_distance.
  run_model. reflexivity.
Qed.

(** * The properties at work on the examples *)

Ltac decide_equal :=
  match goal with
  | |- context [Req_dec_T ?a ?b] =>
      first [ let H := fresh in
              assert (H : a = b) by real_fact;
              destruct (Req_dec_T a b) as [_|?]; [clear H|contradiction]
            | let H := fresh in
              assert (H : a <> b) by real_fact;
              destruct (Req_dec_T a b) as [?|_]; [contradiction|clear H] ]
  end.

Ltac run_model_eq :=
  unfold_model;
  repeat (first [progress eval_floor | decide_real | decide_equal];
          unfold_model).

Lemma greedyLoop_skip availableDrones order rest s a c :
  Order.status (Store.orders s order) = pending ->
  OptimizationAlgorithm.bestDroneLoop s order availableDrones None (-1)
  = None ->
  OptimizationAlgorithm.greedyLoop availableDrones (order :: rest) s a c
  = OptimizationAlgorithm.greedyLoop availableDrones rest s a c.
Proof.
  intros Hp Hb. cbn [OptimizationAlgorithm.greedyLoop].
  now rewrite Hp, Hb.
Qed.

Lemma tooHeavy_first_refused :
  Drone.canCarryOrder (Store.drones tooHeavy 0%nat)
                      (Store.orders tooHeavy 0%nat) = false.
Proof. run_model. reflexivity. Qed.

Lemma tooHeavy_second_fits :
  Drone.canCarryOrder (Store.drones tooHeavy 0%nat)
                      (Store.orders tooHeavy 1%nat) = true.
Proof. run_model. reflexivity. Qed.

Lemma tooHeavy_first_drone :
  OptimizationAlgorithm.bestDroneLoop tooHeavy 0%nat [0]%nat None (-1) = None.
Proof.
  cbn [OptimizationAlgorithm.bestDroneLoop].
  now rewrite tooHeavy_first_refused.
Qed.

Lemma tooHeavy_second_drone :
  OptimizationAlgorithm.bestDroneLoop tooHeavy 1%nat [0]%nat None (-1)
  = Some 0%nat.
Proof. run_model. reflexivity. Qed.

Lemma tooHeavy_greedy :
  exists res,
    OptimizationAlgorithm.greedyAssignment tooHeavy [0; 1]%nat [0]%nat
    = (res, assignStore tooHeavy 0%nat 1%nat).
Proof.
  eexists. unfold OptimizationAlgorithm.greedyAssignment.
  change (filter (OptimizationAlgorithm.is_idle tooHeavy) [0%nat])
    with [0%nat].
  rewrite (greedyLoop_skip [0%nat] 0%nat [1%nat] tooHeavy [] 0%nat
             eq_refl tooHeavy_first_drone).
  rewrite (greedyLoop_assign [0%nat] 1%nat [] tooHeavy [] 0%nat 0%nat
             eq_refl tooHeavy_second_drone tooHeavy_second_fits).
  cbv zeta. cbn [OptimizationAlgorithm.greedyLoop]. reflexivity.
Qed.

Lemma tooHeavy_available :
  DroneController.getAvailableDrones tooHeavy [0%nat] = [0%nat].
Proof. run_model. reflexivity. Qed.

Lemma tooHeavy_controller_first :
  DroneController.bestDroneLoop tooHeavy 0%nat [0]%nat None (-1) = None.
Proof.
  cbn [DroneController.bestDroneLoop].
  now rewrite tooHeavy_first_refused.
Qed.

Lemma tooHeavy_controller_second :
  DroneController.bestDroneLoop tooHeavy 1%nat [0]%nat None (-1) = Some 0%nat.
Proof.
  cbn [DroneController.bestDroneLoop].
  rewrite tooHeavy_second_fits. cbn [negb].
  run_model_eq. reflexivity.
Qed.

Lemma tooHeavy_distribution :
  exists res,
    DroneController.optimizeOrderDistribution 0 tooHeavy [0%nat] [0; 1]%nat
    = (res, assignStore tooHeavy 0%nat 1%nat).
Proof.
  eexists. unfold DroneController.optimizeOrderDistribution.
  rewrite tooHeavy_available. cbn [List.length Nat.eqb orb].
  match goal with
  | |- context [js_sort ?c [0%nat; 1%nat]] =>
      assert (E : js_sort c [0%nat; 1%nat] = [0%nat; 1%nat])
        by (run_model_eq; reflexivity);
      rewrite E
  end.
  cbn [DroneController.distributionLoop].
  change (OptimizationAlgorithm.is_pending tooHeavy 0%nat) with true.
  unfold DroneController.assignOrderToDrone,
    DroneController.findBestDroneForOrder.
  rewrite tooHeavy_available. cbn [List.length Nat.eqb].
  rewrite tooHeavy_controller_first.
  change (OptimizationAlgorithm.is_pending tooHeavy 1%nat) with true.
  rewrite tooHeavy_available. cbn [List.length Nat.eqb].
  rewrite tooHeavy_controller_second.
  rewrite (callAssignOrder_eq _ _ _ tooHeavy_second_fits).
  reflexivity.
Qed.

Lemma eastWest_run : run eastWest [0; 1]%nat eastWestAssigned.
Proof.
  eapply run_cons; [apply callAssignOrder_eq, eastWest_first_fits|].
  eapply run_cons; [apply callAssignOrder_eq, eastWest_second_fits|].
  apply run_nil.
Qed.

Lemma eastWestAssigned_loadInvariant : loadInvariant eastWestAssigned.
Proof.
  eapply run_stepClosed;
    [apply loadInvariant_stepClosed|apply eastWest_run
    |apply eastWest_loadInvariant].
Qed.

Lemma eastWestAssigned_assignmentInvariant :
  assignmentInvariant eastWestAssigned.
Proof.
  eapply assignmentInvariant_run;
    [apply eastWest_run| | |apply eastWest_assignmentInvariant].
  - repeat constructor; cbn; intuition discriminate.
  - intros [|o] _; reflexivity.
Qed.

Lemma eastWest_greedy :
  exists res,
    OptimizationAlgorithm.greedyAssignment eastWest [0; 1]%nat [0]%nat
    = (res, eastWestAssigned).
Proof.
  eexists. unfold OptimizationAlgorithm.greedyAssignment.
  change (filter (OptimizationAlgorithm.is_idle eastWest) [0%nat])
    with [0%nat].
  rewrite (greedyLoop_assign [0%nat] 0%nat [1%nat] eastWest [] 0%nat 0%nat
             eq_refl eastWest_first_drone eastWest_first_fits).
  cbv zeta.
  rewrite (greedyLoop_assign [0%nat] 1%nat [] (assignStore eastWest 0%nat 0%nat)
             _ 1%nat 0%nat eq_refl eastWest_second_drone eastWest_second_fits).
  cbv zeta. cbn [OptimizationAlgorithm.greedyLoop]. reflexivity.
Qed.

Lemma single_order_route_within_range_witness :
  Drone.calculateRouteDistance
    (Store.drones
       (snd (callOptimizeRoute (assignStore eastWest 0%nat 0%nat) 0%nat))
       0%nat)
  = Drone.calculateDistance (Drone.basePosition (Store.drones eastWest 0%nat))
                            (Order.location (Store.orders eastWest 0%nat))
    + Drone.calculateDistance (Order.location (Store.orders eastWest 0%nat))
                              (Drone.basePosition (Store.drones eastWest 0%nat))
  /\ Drone.calculateRouteDistance
       (Store.drones
          (snd (callOptimizeRoute (assignStore eastWest 0%nat 0%nat) 0%nat))
          0%nat)
     <= Drone.range (Store.drones eastWest 0%nat).
Proof.
  apply (single_order_route_within_range eastWest 0%nat 0%nat).
  - reflexivity.
  - reflexivity.
  - apply callAssignOrder_eq, eastWest_first_fits.
Defined.

Lemma reverseRouteSegment_reverses_witness :
  OptimizationAlgorithm.reverseRouteSegment
    [Point.mk 0 0; Point.mk 1 0; Point.mk 2 0; Point.mk 3 0] 1 2
  = [Point.mk 0 0; Point.mk 2 0; Point.mk 1 0; Point.mk 3 0].
Proof.
  apply (reverseRouteSegment_reverses
           [Point.mk 0 0; Point.mk 1 0; Point.mk 2 0; Point.mk 3 0] 1 2).
  cbn. lia.
Defined.

Lemma two_opt_keeps_stops_witness :
  Permutation
    [Point.mk 0 0; Point.mk 1 0; Point.mk 2 0; Point.mk 3 0; Point.mk 0 0]
    [Point.mk 0 0; Point.mk 2 0; Point.mk 1 0; Point.mk 3 0; Point.mk 0 0]
  /\ hd_error
       [Point.mk 0 0; Point.mk 1 0; Point.mk 2 0; Point.mk 3 0; Point.mk 0 0]
     = hd_error
         [Point.mk 0 0; Point.mk 2 0; Point.mk 1 0; Point.mk 3 0; Point.mk 0 0]
  /\ last
       [Point.mk 0 0; Point.mk 1 0; Point.mk 2 0; Point.mk 3 0; Point.mk 0 0]
       (Point.mk 0 0)
     = last
         [Point.mk 0 0; Point.mk 2 0; Point.mk 1 0; Point.mk 3 0; Point.mk 0 0]
         (Point.mk 0 0).
Proof.
  apply (two_opt_keeps_stops 2). exact two_opt_example.
Defined.

Lemma two_opt_local_optimum_witness :
  OptimizationAlgorithm.calculateRouteDistance
    [Point.mk 0 0; Point.mk 1 0; Point.mk 2 0; Point.mk 3 0; Point.mk 0 0]
  <= OptimizationAlgorithm.calculateRouteDistance
       (OptimizationAlgorithm.reverseRouteSegment
          [Point.mk 0 0; Point.mk 1 0; Point.mk 2 0; Point.mk 3 0;
           Point.mk 0 0] 1 2).
Proof.
  apply (two_opt_local_optimum 2
           [Point.mk 0 0; Point.mk 2 0; Point.mk 1 0; Point.mk 3 0;
            Point.mk 0 0]).
  - exact two_opt_example.
  - cbn. lia.
  - lia.
  - lia.
  - cbn. lia.
Defined.

Lemma clustering_partitions_witness :
  exists clusters,
    OptimizationAlgorithm.clusterOrdersByDistance
      (fun _ => 0) westEast [0; 1; 2]%nat 2 = OK clusters
    /\ Forall (fun c => c <> []) clusters
    /\ Permutation (concat clusters) [0; 1; 2]%nat
    /\ (List.length clusters <= Nat.min 2 (List.length [0; 1; 2]%nat))%nat.
Proof.
  apply (clustering_partitions (fun _ => 0) westEast [0; 1; 2]%nat 2).
  - lia.
  - intros _. lra.
Defined.

Lemma clustering_without_drone_throws_witness :
  OptimizationAlgorithm.clusterOrdersByDistance
    (fun _ => 0) eastWest [0; 1]%nat 0 = TypeError
  /\ OptimizationAlgorithm.distanceOptimization
       (fun _ => 0) eastWest [0; 1]%nat [] = TypeError
  /\ OptimizationAlgorithm.applyOptimizationStrategy
       0 (fun _ => 0) eastWest [0; 1]%nat [] "distance_optimization"
     = TypeError.
Proof.
  apply (clustering_without_drone_throws 0 (fun _ => 0) eastWest [0; 1]%nat).
  discriminate.
Defined.

Lemma greedyAssignment_touches_only_idle_and_pending_witness :
  (forall d,
      ~ In d [0%nat] \/ Drone.status (Store.drones eastWest d) <> idle ->
      Store.drones eastWestAssigned d = Store.drones eastWest d)
  /\ (forall o,
         ~ In o [0; 1]%nat
         \/ Order.status (Store.orders eastWest o) <> pending ->
         Store.orders eastWestAssigned o = Store.orders eastWest o).
Proof.
  destruct eastWest_greedy as [res Hres].
  exact (greedyAssignment_touches_only_idle_and_pending
           eastWest [0; 1]%nat [0]%nat res eastWestAssigned Hres).
Defined.

Lemma optimizeDeliveries_frame_witness :
  (forall d, sameDroneFrame (Store.drones eastWest d)
                            (Store.drones eastWestAssigned d))
  /\ (forall o, sameOrderFrame (Store.orders eastWest o)
                               (Store.orders eastWestAssigned o))
  /\ (forall d, ~ In d [0%nat] ->
        Store.drones eastWestAssigned d = Store.drones eastWest d)
  /\ (forall o, ~ In o [0; 1]%nat ->
        Store.orders eastWestAssigned o = Store.orders eastWest o).
Proof.
  destruct eastWest_optimized as [res Hres].
  exact (optimizeDeliveries_frame 0 (fun _ => 0) eastWest [0; 1]%nat [0]%nat
           res eastWestAssigned Hres).
Defined.

Lemma greedyAssignment_success_iff_witness :
  exists res,
    OptimizationAlgorithm.greedyAssignment eastWest [0; 1]%nat [0]%nat
    = (res, eastWestAssigned)
    /\ (Result.success res = true <->
        exists o, In o [0; 1]%nat
                  /\ Order.status (Store.orders eastWest o) = pending
                  /\ Order.status (Store.orders eastWestAssigned o) = assigned).
Proof.
  destruct eastWest_greedy as [res Hres].
  exists res. split; [exact Hres|].
  exact (greedyAssignment_success_iff eastWest [0; 1]%nat [0]%nat res
           eastWestAssigned Hres).
Defined.

Lemma greedyAssignment_leaves_nothing_that_fits_witness :
  Drone.canCarryOrder
    (Store.drones (assignStore tooHeavy 0%nat 1%nat) 0%nat)
    (Store.orders (assignStore tooHeavy 0%nat 1%nat) 0%nat) = false.
Proof.
  destruct tooHeavy_greedy as [res Hres].
  apply (greedyAssignment_leaves_nothing_that_fits
           tooHeavy [0; 1]%nat [0]%nat res (assignStore tooHeavy 0%nat 1%nat)).
  - intros [|o] _; cbn; lra.
  - intros d _ _. cbn. lra.
  - exact Hres.
  - left. reflexivity.
  - left. reflexivity.
  - reflexivity.
  - reflexivity.
Defined.

Lemma deliverOrder_keeps_assignments_witness :
  let s' := callDeliverOrder 0 eastWestAssigned 0%nat 0%nat in
  Order.status (Store.orders s' 0%nat) = delivered
  /\ ~ In 0%nat (Drone.assignedOrders (Store.drones s' 0%nat))
  /\ assignmentInvariant s'
  /\ (forall d',
        Drone.currentLoad (Store.drones eastWestAssigned d')
        <= Drone.capacity (Store.drones eastWestAssigned d') ->
        Drone.currentLoad (Store.drones s' d')
        <= Drone.capacity (Store.drones s' d')).
Proof.
  apply (deliverOrder_keeps_assignments 0 eastWestAssigned 0%nat 0%nat).
  - exact eastWestAssigned_assignmentInvariant.
  - cbn. left. reflexivity.
  - intros [|[|o']]; cbn; intros H E; try reflexivity; discriminate.
  - cbn. lra.
Defined.

Lemma optimizeOrderDistribution_keeps_invariants_witness :
  (loadInvariant tooHeavy -> loadInvariant (assignStore tooHeavy 0%nat 1%nat))
  /\ (assignmentInvariant tooHeavy ->
      assignmentInvariant (assignStore tooHeavy 0%nat 1%nat)
      /\ assignedExactlyOnce (assignStore tooHeavy 0%nat 1%nat)).
Proof.
  destruct tooHeavy_distribution as [res Hres].
  exact (optimizeOrderDistribution_keeps_invariants 0 tooHeavy [0%nat]
           [0; 1]%nat res (assignStore tooHeavy 0%nat 1%nat) Hres).
Defined.

Lemma optimizeOrderDistribution_touches_witness :
  exists res,
    DroneController.optimizeOrderDistribution 0 tooHeavy [0%nat] [0; 1]%nat
    = (res, assignStore tooHeavy 0%nat 1%nat)
    /\ (forall d,
          ~ In d [0%nat] \/ Drone.status (Store.drones tooHeavy d) <> idle
          \/ Drone.battery (Store.drones tooHeavy d) < 20 ->
          Store.drones (assignStore tooHeavy 0%nat 1%nat) d
          = Store.drones tooHeavy d)
    /\ (forall o,
          ~ In o [0; 1]%nat
          \/ Order.status (Store.orders tooHeavy o) <> pending ->
          Store.orders (assignStore tooHeavy 0%nat 1%nat) o
          = Store.orders tooHeavy o)
    /\ (DroneController.Distribution.success res = true <->
        exists o, In o [0; 1]%nat
                  /\ Order.status (Store.orders tooHeavy o) = pending
                  /\ Order.status
                       (Store.orders (assignStore tooHeavy 0%nat 1%nat) o)
                     = assigned).
Proof.
  destruct tooHeavy_distribution as [res Hres].
  exists res. split; [exact Hres|].
  exact (optimizeOrderDistribution_touches 0 tooHeavy [0%nat] [0; 1]%nat
           res (assignStore tooHeavy 0%nat 1%nat) Hres).
Defined.

Lemma groupNearbyOrders_partition_witness :
  Permutation (concat (OrderController.groupNearbyOrders eastWest [0; 1]%nat 2))
              (OrderController.getPendingOrders eastWest [0; 1]%nat)
  /\ forall g,
       In g (OrderController.groupNearbyOrders eastWest [0; 1]%nat 2) ->
       exists first rest,
         g = first :: rest
         /\ forall o, In o rest ->
              Order.status (Store.orders eastWest o) = pending
              /\ Order.getDistanceTo (Store.orders eastWest first)
                   (Order.location (Store.orders eastWest o))
                 <= 2.
Proof.
  apply (groupNearbyOrders_partition eastWest [0; 1]%nat 2).
  cbn. repeat constructor; cbn; intuition discriminate.
Defined.

Lemma accepted_group_assigned_in_full_witness :
  exists s',
    DeliveryController.assignGroupLoop nearTwo 0%nat [0; 1]%nat = (true, s')
    /\ forall o, In o [0; 1]%nat ->
         Order.status (Store.orders s' o) = assigned
         /\ In o (Drone.assignedOrders (Store.drones s' 0%nat)).
Proof.
  apply (accepted_group_assigned_in_full nearTwo [0; 1]%nat [0%nat] 0%nat).
  - exact nearTwo_best_drone.
  - reflexivity.
  - intros [|o] _; cbn; lra.
  - intros [|[|o]] Ho.
    + exact nearTwo_first_alone.
    + exact nearTwo_second_alone.
    + destruct Ho as [Ho|[Ho|[]]]; discriminate.
Defined.

(** * A flight, from take-off to landing *)

Lemma onDrone_drone s d f :
  Store.drones (onDrone s d f) d = f (Store.drones s d).
Proof. unfold onDrone. cbn. apply upd_same. Qed.

Lemma onDrone_other s d f d' :
  d' <> d -> Store.drones (onDrone s d f) d' = Store.drones s d'.
Proof. intros H. unfold onDrone. cbn. now apply upd_other. Qed.

Lemma flightFrame_refl a : flightFrame a a.
Proof. unfold flightFrame. intuition. Qed.

Lemma flightFrame_trans a b c :
  flightFrame a b -> flightFrame b c -> flightFrame a c.
Proof. unfold flightFrame. intuition congruence. Qed.

Lemma deliveries_app l1 l2 :
  deliveries (l1 ++ l2) = deliveries l1 ++ deliveries l2.
Proof.
  induction l1 as [|st l1 IH]; [reflexivity|]. cbn.
  destruct (RouteStop.type st), (RouteStop.order st); cbn; now rewrite IH.
Qed.

Lemma deliveries_route orders this visited :
  deliveries (map (Drone.deliveryStop orders) visited ++ [Drone.baseStop this])
  = visited.
Proof.
  rewrite deliveries_app. cbn. rewrite app_nil_r.
  induction visited as [|o l IH]; cbn; [reflexivity|]. now rewrite IH.
Qed.

Lemma arrive_spec now s d currentPoint nextPoint :
  (RouteStop.type nextPoint = delivery -> RouteStop.order nextPoint <> None) ->
  exists s2,
    arrive now s d currentPoint nextPoint = OK s2
    /\ flightFrame (Store.drones s d) (Store.drones s2 d)
    /\ Drone.currentRouteIndex (Store.drones s2 d)
       = S (Drone.currentRouteIndex (Store.drones s d))
    /\ Drone.deliveriesCount (Store.drones s2 d)
       = (Drone.deliveriesCount (Store.drones s d)
          + List.length (deliveries [nextPoint]))%nat
    /\ (forall d', d' <> d -> Store.drones s2 d' = Store.drones s d')
    /\ (forall o, In o (deliveries [nextPoint]) ->
          Order.status (Store.orders s2 o) = delivered)
    /\ (forall o, ~ In o (deliveries [nextPoint]) ->
          Store.orders s2 o = Store.orders s o)
    /\ (forall o, Order.weight (Store.orders s2 o)
                  = Order.weight (Store.orders s o)).
Proof.
  intros Hok. unfold arrive. cbn [deliveries].
  destruct (RouteStop.type nextPoint) eqn:Ht.
  - eexists. split; [reflexivity|]. rewrite onDrone_drone.
    repeat apply conj; try reflexivity.
    + cbn. lia.
    + intros d' Hd'. now apply onDrone_other.
    + intros o [].
  - destruct (RouteStop.order nextPoint) as [o|] eqn:Ho;
      [|now destruct (Hok eq_refl)].
    eexists. split; [reflexivity|]. cbv zeta.
    rewrite !onDrone_drone.
    unfold callDeliverOrder, Drone.deliverOrder. cbn.
    rewrite !upd_same. cbn.
    repeat apply conj; try reflexivity.
    + lia.
    + intros d' Hd'. now rewrite !upd_other by exact Hd'.
    + intros o' [<-|[]]. now rewrite upd_same.
    + intros o' Ho'. apply upd_other. intros ->. apply Ho'. now left.
    + intros o'. unfold upd. destruct (Nat.eqb o' o) eqn:E; [|reflexivity].
      apply Nat.eqb_eq in E as ->. reflexivity.
Qed.

Lemma simulateMovement_spec clock d rest :
  forall pre cur fuel s,
    Drone.currentRoute (Store.drones s d) = pre ++ cur :: rest ->
    Drone.currentRouteIndex (Store.drones s d) = List.length pre ->
    (List.length rest <= fuel)%nat ->
    Forall (fun st => RouteStop.type st = delivery ->
                      RouteStop.order st <> None) rest ->
    exists s',
      simulateMovement fuel clock s d
      = Some (OK (onDrone s' d Drone.completeDelivery))
      /\ flightFrame (Store.drones s d) (Store.drones s' d)
      /\ Drone.deliveriesCount (Store.drones s' d)
         = (Drone.deliveriesCount (Store.drones s d)
            + List.length (deliveries rest))%nat
      /\ (forall d', d' <> d -> Store.drones s' d' = Store.drones s d')
      /\ (forall o, In o (deliveries rest) ->
            Order.status (Store.orders s' o) = delivered)
      /\ (forall o, ~ In o (deliveries rest) ->
            Store.orders s' o = Store.orders s o)
      /\ (forall o, Order.weight (Store.orders s' o)
                    = Order.weight (Store.orders s o)).
Proof.
  induction rest as [|next rest IH]; intros pre cur fuel s Hroute Hidx Hfuel Hok.
  - exists s.
    assert (Hdone : Nat.leb (List.length (Drone.currentRoute (Store.drones s d)))
                            (S (Drone.currentRouteIndex (Store.drones s d)))
                    = true).
    { rewrite Hroute, Hidx, length_app. cbn. apply Nat.leb_le. lia. }
    split.
    + destruct fuel; cbn [simulateMovement]; now rewrite Hdone.
    + split; [apply flightFrame_refl|]. split; [cbn; lia|].
      repeat apply conj; auto. intros o [].
  - destruct fuel as [|fuel]; [cbn in Hfuel; lia|].
    cbn [simulateMovement].
    assert (Hgo : Nat.leb (List.length (Drone.currentRoute (Store.drones s d)))
                          (S (Drone.currentRouteIndex (Store.drones s d)))
                  = false).
    { rewrite Hroute, Hidx, length_app. cbn. apply Nat.leb_gt. lia. }
    rewrite Hgo, Hroute, Hidx.
    assert (Hcur : nth_error (pre ++ cur :: next :: rest) (List.length pre)
                   = Some cur).
    { rewrite nth_error_app2 by lia. now rewrite Nat.sub_diag. }
    assert (Hnext : nth_error (pre ++ cur :: next :: rest)
                              (S (List.length pre))
                    = Some next).
    { rewrite nth_error_app2 by lia.
      replace (S (List.length pre) - List.length pre)%nat with 1%nat by lia.
      reflexivity. }
    rewrite Hcur, Hnext. cbv zeta.
    set (s1 := onDrone s d
                 (fun this => Drone.moveToPoint this (RouteStop.point next))).
    inversion Hok as [|? ? Hnextok Hrestok]; subst.
    destruct (arrive_spec (clock (S (List.length pre))) s1 d cur next Hnextok)
      as (s2 & -> & Hframe & Hidx2 & Hcount2 & Hother2 & Hdel2 & Hkeep2 & Hw2).
    assert (Hs1 : Store.drones s1 d
                  = Drone.moveToPoint (Store.drones s d)
                                      (RouteStop.point next))
      by apply onDrone_drone.
    destruct (IH (pre ++ [cur]) next fuel s2) as
      (s' & Heq & Hframe' & Hcount' & Hother' & Hdel' & Hkeep' & Hw').
    + destruct Hframe as (_ & _ & _ & -> & _). rewrite Hs1. cbn.
      rewrite Hroute, <- app_assoc. reflexivity.
    + rewrite Hidx2, Hs1. cbn. rewrite Hidx, length_app. cbn. lia.
    + cbn in Hfuel. lia.
    + exact Hrestok.
    + exists s'. split; [exact Heq|].
      change (deliveries (next :: rest))
        with (deliveries ([next] ++ rest)).
      rewrite deliveries_app.
      split; [|split; [|split; [|split; [|split]]]].
      * eapply flightFrame_trans; [|exact Hframe'].
        eapply flightFrame_trans; [|exact Hframe].
        rewrite Hs1. unfold flightFrame. cbn. intuition.
      * rewrite Hcount', Hcount2, Hs1, length_app. cbn. lia.
      * intros d' Hd'. rewrite Hother', Hother2 by exact Hd'.
        now apply onDrone_other.
      * intros o Ho. apply in_app_or in Ho as [Ho|Ho]; [|now apply Hdel'].
        destruct (in_dec Nat.eq_dec o (deliveries rest)) as [Hin|Hout];
          [now apply Hdel'|].
        rewrite (Hkeep' o Hout). now apply Hdel2.
      * intros o Ho. rewrite Hkeep', Hkeep2.
        -- reflexivity.
        -- intros Hin. apply Ho. apply in_or_app. now left.
        -- intros Hin. apply Ho. apply in_or_app. now right.
      * intros o. now rewrite Hw', Hw2.
Qed.

Lemma startDelivery_route (orders : OrderHeap) (this : Drone.t) :
  Drone.assignedOrders this <> [] ->
  exists visited this',
    Drone.startDelivery orders this = (true, this')
    /\ Permutation visited (Drone.assignedOrders this)
    /\ Drone.currentRoute this'
       = Drone.baseStop this
           :: map (Drone.deliveryStop orders) visited ++ [Drone.baseStop this]
    /\ Drone.id this' = Drone.id this
    /\ Drone.capacity this' = Drone.capacity this
    /\ Drone.range this' = Drone.range this
    /\ Drone.basePosition this' = Drone.basePosition this
    /\ Drone.deliveriesCount this' = Drone.deliveriesCount this.
Proof.
  intros Hne. unfold Drone.startDelivery.
  destruct (Drone.assignedOrders this) as [|o0 l] eqn:E; [congruence|].
  destruct (optimizeRoute_shape orders (Drone.set_status this loading))
    as (visited & this2 & Heq & Hvis & Hroute & _ & _ & Hsame).
  { cbn. rewrite E. discriminate. }
  rewrite Heq. cbn [snd]. exists visited. eexists. split; [reflexivity|].
  unfold sameDroneBut in Hsame. cbn in Hsame, Hvis.
  destruct Hsame as (Hid & Hcap & Hrange & _ & _ & _ & _ & _ & Hcnt & Hbase
                     & _).
  cbn. rewrite <- E. repeat apply conj; auto.
Qed.

(** X28. The flight that a successful [startDelivery] schedules, run to its
    end with nothing else touching the drone, delivers every order the
    drone held: each of them is [delivered] afterwards, no other order and
    no other drone is changed, and the drone is back at its base, idle and
    recharged, with no load, no order and no route, its [deliveriesCount]
    raised by the number of orders.  The books are kept: [currentLoad] is
    still the sum of the weights of the orders of each drone, and every
    assigned order is still listed by exactly the drone it names. *)
Theorem flight_delivers_every_order (clock : nat -> R) (s : Store.t)
    (d : dref) :
  Drone.assignedOrders (Store.drones s d) <> [] ->
  exists s1 s2,
    callStartDelivery s d = (true, s1)
    /\ flight clock s1 d = Some (OK s2)
    /\ (forall o, In o (Drone.assignedOrders (Store.drones s d)) ->
          Order.status (Store.orders s2 o) = delivered)
    /\ (forall o, ~ In o (Drone.assignedOrders (Store.drones s d)) ->
          Store.orders s2 o = Store.orders s o)
    /\ (forall d', d' <> d -> Store.drones s2 d' = Store.drones s d')
    /\ (Drone.status (Store.drones s2 d) = idle
        /\ Drone.battery (Store.drones s2 d) = 100
        /\ Drone.position (Store.drones s2 d)
           = Drone.basePosition (Store.drones s d)
        /\ Drone.currentLoad (Store.drones s2 d) = 0
        /\ Drone.assignedOrders (Store.drones s2 d) = []
        /\ Drone.currentRoute (Store.drones s2 d) = []
        /\ Drone.deliveriesCount (Store.drones s2 d)
           = (Drone.deliveriesCount (Store.drones s d)
              + List.length (Drone.assignedOrders (Store.drones s d)))%nat)
    /\ (loadInvariant s -> 0 <= Drone.capacity (Store.drones s d) ->
        loadInvariant s2)
    /\ (assignmentInvariant s -> assignmentInvariant s2).
Proof.
  intros Hne.
  destruct (startDelivery_route (Store.orders s) (Store.drones s d) Hne)
    as (visited & this1 & Hstart & Hvis & Hroute & Hid1 & Hcap1 & Hrange1
        & Hbase1 & Hcnt1).
  set (s1 := Store.mk (Store.orders s) (upd (Store.drones s) d this1)).
  assert (Hs1d : Store.drones s1 d = this1) by apply upd_same.
  set (s1' := onDrone s1 d Drone.takeOff).
  assert (Hs1'd : Store.drones s1' d = Drone.takeOff this1).
  { unfold s1'. now rewrite onDrone_drone, Hs1d. }
  destruct (simulateMovement_spec clock d
              (map (Drone.deliveryStop (Store.orders s)) visited
               ++ [Drone.baseStop (Store.drones s d)])
              [] (Drone.baseStop (Store.drones s d))
              (List.length (Drone.currentRoute (Store.drones s1' d))) s1')
    as (s' & Hsim & Hframe & Hcount & Hother & Hdel & Hkeep & Hw).
  { rewrite Hs1'd. cbn. exact Hroute. }
  { rewrite Hs1'd. reflexivity. }
  { rewrite Hs1'd. cbn [Drone.takeOff Drone.currentRoute]. rewrite Hroute.
    cbn. lia. }
  { apply Forall_app. split.
    - apply Forall_forall. intros st Hst _.
      apply in_map_iff in Hst as (o & <- & _). discriminate.
    - constructor; [|constructor]. discriminate. }
  rewrite deliveries_route in Hcount, Hdel, Hkeep.
  set (s2 := onDrone (onDrone s' d Drone.completeDelivery) d Drone.recharge).
  assert (Hs2d : Store.drones s2 d
                 = Drone.recharge (Drone.completeDelivery (Store.drones s' d))).
  { unfold s2. now rewrite !onDrone_drone. }
  assert (Hs2other : forall d', d' <> d ->
                       Store.drones s2 d' = Store.drones s d').
  { intros d' Hd'. unfold s2. rewrite !onDrone_other by exact Hd'.
    rewrite Hother by exact Hd'. unfold s1'.
    rewrite onDrone_other by exact Hd'. unfold s1. cbn.
    now apply upd_other. }
  assert (Hin : forall o, In o visited
                          <-> In o (Drone.assignedOrders (Store.drones s d))).
  { intros o. split; apply Permutation_in; [|symmetry]; exact Hvis. }
  assert (Hdelivered : forall o,
    In o (Drone.assignedOrders (Store.drones s d)) ->
    Order.status (Store.orders s2 o) = delivered).
  { intros o Ho. apply Hdel. now apply Hin. }
  assert (Hkept : forall o,
    ~ In o (Drone.assignedOrders (Store.drones s d)) ->
    Store.orders s2 o = Store.orders s o).
  { intros o Ho. change (Store.orders s' o = Store.orders s o).
    rewrite Hkeep; [reflexivity|]. intros Hv. apply Ho. now apply Hin. }
  assert (Hweights : forall o, Order.weight (Store.orders s2 o)
                               = Order.weight (Store.orders s o)).
  { intros o. apply (Hw o). }
  destruct Hframe as (Hid & Hcap & Hrange & _ & _ & Hbase & _).
  rewrite Hs1'd in Hid, Hcap, Hrange, Hbase, Hcount. cbn in Hid, Hcap, Hrange,
    Hbase, Hcount.
  exists s1, s2. split.
  { unfold callStartDelivery. now rewrite Hstart. }
  split.
  { unfold flight. fold s1'. now rewrite Hsim. }
  split; [exact Hdelivered|]. split; [exact Hkept|].
  split; [exact Hs2other|]. split; [|split].
  - rewrite Hs2d. cbn. repeat apply conj; try reflexivity.
    + congruence.
    + rewrite Hcount, Hcnt1. f_equal. apply Permutation_length, Hvis.
  - intros HI Hcapd d'. rewrite (sumWeights_ext s s2 _ Hweights).
    destruct (Nat.eq_dec d' d) as [->|Hd'].
    + rewrite Hs2d. cbn. split; [reflexivity|]. congruence.
    + rewrite (Hs2other d' Hd'). apply HI.
  - intros (Hnd & Huniq & Hlisted & Hassigned).
    assert (Hempty : Drone.assignedOrders (Store.drones s2 d) = [])
      by now rewrite Hs2d.
    repeat apply conj.
    + intros d'. destruct (Nat.eq_dec d' d) as [->|Hd'].
      * rewrite Hempty. constructor.
      * rewrite (Hs2other d' Hd'). apply Hnd.
    + intros d1 d2 o H1 H2.
      destruct (Nat.eq_dec d1 d) as [->|Hd1];
        [rewrite Hempty in H1; contradiction|].
      destruct (Nat.eq_dec d2 d) as [->|Hd2];
        [rewrite Hempty in H2; contradiction|].
      rewrite (Hs2other _ Hd1) in H1. rewrite (Hs2other _ Hd2) in H2.
      eapply Huniq; eauto.
    + intros d' o Ho.
      destruct (Nat.eq_dec d' d) as [->|Hd'];
        [rewrite Hempty in Ho; contradiction|].
      rewrite (Hs2other _ Hd') in *.
      rewrite Hkept; [now apply Hlisted|].
      intros Hd. apply Hd'. eapply Huniq; eauto.
    + intros o Ho.
      destruct (in_dec Nat.eq_dec o (Drone.assignedOrders (Store.drones s d)))
        as [Hd|Hd].
      * rewrite (Hdelivered o Hd) in Ho. discriminate.
      * rewrite (Hkept o Hd) in Ho. destruct (Hassigned o Ho) as [d' Hd'].
        exists d'. rewrite Hs2other; [exact Hd'|].
        intros ->. contradiction.
Qed.

Lemma flight_delivers_every_order_witness :
  exists s1 s2,
    callStartDelivery eastWestAssigned 0%nat = (true, s1)
    /\ flight (fun _ => 0) s1 0%nat = Some (OK s2)
    /\ (forall o,
          In o (Drone.assignedOrders (Store.drones eastWestAssigned 0%nat)) ->
          Order.status (Store.orders s2 o) = delivered)
    /\ (forall o,
          ~ In o (Drone.assignedOrders (Store.drones eastWestAssigned 0%nat)) ->
          Store.orders s2 o = Store.orders eastWestAssigned o)
    /\ (forall d', d' <> 0%nat ->
          Store.drones s2 d' = Store.drones eastWestAssigned d')
    /\ (Drone.status (Store.drones s2 0%nat) = idle
        /\ Drone.battery (Store.drones s2 0%nat) = 100
        /\ Drone.position (Store.drones s2 0%nat)
           = Drone.basePosition (Store.drones eastWestAssigned 0%nat)
        /\ Drone.currentLoad (Store.drones s2 0%nat) = 0
        /\ Drone.assignedOrders (Store.drones s2 0%nat) = []
        /\ Drone.currentRoute (Store.drones s2 0%nat) = []
        /\ Drone.deliveriesCount (Store.drones s2 0%nat)
           = (Drone.deliveriesCount (Store.drones eastWestAssigned 0%nat)
              + List.length
                  (Drone.assignedOrders
                     (Store.drones eastWestAssigned 0%nat)))%nat)
    /\ (loadInvariant eastWestAssigned ->
        0 <= Drone.capacity (Store.drones eastWestAssigned 0%nat) ->
        loadInvariant s2)
    /\ (assignmentInvariant eastWestAssigned -> assignmentInvariant s2).
Proof.
  apply (flight_delivers_every_order (fun _ => 0) eastWestAssigned 0%nat).
  cbn. discriminate.
Defined.

(** * DroneController: nothing that fits is left behind *)

Lemma DroneController_bestDroneLoop_Some_stays s order l d0 score :
  DroneController.bestDroneLoop s order l (Some d0) score <> None.
Proof.
  revert d0 score. induction l as [|d l IH]; intros d0 score; cbn;
    [discriminate|].
  destruct (negb _); [apply IH|]. destruct (Rlt_dec _ _); apply IH.
Qed.

Lemma DroneController_bestDroneLoop_None s order l score :
  DroneController.bestDroneLoop s order l None score = None ->
  forall d, In d l ->
    Drone.canCarryOrder (Store.drones s d) (Store.orders s order) = true ->
    DroneController.droneScore (Store.orders s order) (Store.drones s d)
    <= score.
Proof.
  revert score. induction l as [|d0 l IH]; intros score H d Hin Hcan;
    [contradiction|]. cbn in H.
  destruct (Drone.canCarryOrder (Store.drones s d0) (Store.orders s order))
    eqn:Hc0; cbn in H.
  - destruct (Rlt_dec score _) as [Hlt|Hge].
    + exfalso. revert H. apply DroneController_bestDroneLoop_Some_stays.
    + destruct Hin as [<-|Hin]; [lra|]. eapply IH; eauto.
  - destruct Hin as [<-|Hin]; [congruence|]. eapply IH; eauto.
Qed.

Lemma js_round_nonneg (x : R) : 0 <= x -> 0 <= js_round x.
Proof.
  intros H. unfold js_round. apply IZR_le.
  apply (Zfloor_lub 0). lra.
Qed.

Lemma efficiencyOrDefault_nonneg (drone : Drone.t) :
  0 <= Drone.totalDistance drone ->
  0 <= DroneController.efficiencyOrDefault drone.
Proof.
  intros H. unfold DroneController.efficiencyOrDefault.
  destruct (Req_dec_T (Drone.getEfficiency drone) 0); [lra|].
  unfold Drone.getEfficiency.
  destruct (Req_dec_T (Drone.totalDistance drone) 0); [lra|].
  apply js_round_nonneg. apply Rmult_le_pos; [|lra].
  apply Rmult_le_pos; [apply pos_INR|].
  apply Rlt_le, Rinv_0_lt_compat. lra.
Qed.

Lemma droneScore_nonneg (order : Order.t) (drone : Drone.t) :
  0 <= Drone.currentLoad drone + Order.weight order ->
  0 < Drone.capacity drone ->
  0 <= Drone.totalDistance drone ->
  0 <= DroneController.droneScore order drone.
Proof.
  intros Hl Hc Ht. unfold DroneController.droneScore. cbv zeta.
  pose proof (calculateDistance_nonneg (Drone.position drone)
                (Order.location order)) as Hd.
  pose proof (efficiencyOrDefault_nonneg drone Ht) as He.
  apply Rmult_le_pos; [apply Rmult_le_pos|].
  - apply Rmult_le_pos; [lra|]. apply Rlt_le, Rinv_0_lt_compat. lra.
  - apply Rmult_le_pos; [exact Hl|]. apply Rlt_le, Rinv_0_lt_compat, Hc.
  - apply Rmult_le_pos; [exact He|]. lra.
Qed.

Lemma assignOrderToDrone_refuses s drones order s' :
  0 <= Order.weight (Store.orders s order) ->
  (forall d, In d (DroneController.getAvailableDrones s drones) ->
             0 < Drone.capacity (Store.drones s d)
             /\ 0 <= Drone.currentLoad (Store.drones s d)
             /\ 0 <= Drone.totalDistance (Store.drones s d)) ->
  DroneController.assignOrderToDrone s drones order = (false, s') ->
  forall d, In d (DroneController.getAvailableDrones s drones) ->
    Drone.canCarryOrder (Store.drones s d) (Store.orders s order) = false.
Proof.
  intros Hw Hd. unfold DroneController.assignOrderToDrone,
    DroneController.findBestDroneForOrder.
  destruct (DroneController.getAvailableDrones s drones) as [|a l] eqn:Ha.
  { intros _ d []. }
  cbn [List.length Nat.eqb].
  destruct (DroneController.bestDroneLoop s order (a :: l) None (-1))
    as [b|] eqn:Hb.
  - apply DroneController_bestDroneLoop_picks in Hb as [_ Hcan].
    rewrite (callAssignOrder_eq _ _ _ Hcan). discriminate.
  - intros _ d Hin.
    destruct (Drone.canCarryOrder (Store.drones s d) (Store.orders s order))
      eqn:Hc; [|reflexivity].
    exfalso.
    pose proof (DroneController_bestDroneLoop_None _ _ _ _ Hb d Hin Hc)
      as Hscore.
    destruct (Hd d Hin) as (Hcap & Hload & Htot).
    pose proof (droneScore_nonneg (Store.orders s order) (Store.drones s d)).
    lra.
Qed.

Lemma distributionLoop_exhausts drones orders s c s' c' :
  (forall o, In o orders -> 0 <= Order.weight (Store.orders s o)) ->
  (forall d, In d (DroneController.getAvailableDrones s drones) ->
             0 < Drone.capacity (Store.drones s d)
             /\ 0 <= Drone.currentLoad (Store.drones s d)
             /\ 0 <= Drone.totalDistance (Store.drones s d)) ->
  DroneController.distributionLoop drones orders s c = (s', c') ->
  forall o d,
    In o orders -> In d (DroneController.getAvailableDrones s drones) ->
    Order.status (Store.orders s' o) = pending ->
    Drone.canCarryOrder (Store.drones s' d) (Store.orders s' o) = false.
Proof.
  revert s c. induction orders as [|order rest IH]; intros s c Hw Hd Hloop;
    [intros o d []|].
  assert (Hw' : forall o, In o rest -> 0 <= Order.weight (Store.orders s o))
    by (intros o Ho; apply Hw; now right).
  assert (Hskip :
    DroneController.distributionLoop drones rest s c = (s', c') ->
    (Order.status (Store.orders s order) = pending ->
     forall d, In d (DroneController.getAvailableDrones s drones) ->
       Drone.canCarryOrder (Store.drones s d) (Store.orders s order) = false) ->
    forall o d,
      In o (order :: rest) ->
      In d (DroneController.getAvailableDrones s drones) ->
      Order.status (Store.orders s' o) = pending ->
      Drone.canCarryOrder (Store.drones s' d) (Store.orders s' o) = false).
  { intros Hrest Hnow o d [<-|Hin] Hdin Hp; [|eapply IH; eauto].
    destruct (distributionLoop_trace drones rest s s c s' c')
      as (l & Hrun & Hincl & _);
      [intros d'; unfold sameDroneFrame; intuition|exact Hrest|].
    destruct (run_not_pending _ _ _ _ Hrun Hp) as [Hp0 Hnot].
    rewrite (run_orders_frame _ _ _ _ Hrun Hnot).
    destruct (Drone.canCarryOrder (Store.drones s' d) (Store.orders s order))
      eqn:Hc; [|reflexivity].
    rewrite <- (Hnow Hp0 d Hdin). symmetry.
    eapply canCarryOrder_lighter; [| |exact Hc].
    - eapply run_drone_static; eauto.
    - eapply run_load_grows; eauto. }
  cbn in Hloop.
  destruct (OptimizationAlgorithm.is_pending s order) eqn:Hst.
  2:{ eapply Hskip; eauto. intros Hp. apply is_pending_iff in Hp. congruence. }
  destruct (DroneController.assignOrderToDrone s drones order) as [ok s1]
    eqn:Hassign.
  destruct ok.
  - apply assignOrderToDrone_step in Hassign
      as [[Hf _]|(_ & b & Hb & Hstep)]; [discriminate|].
    assert (Havail : DroneController.getAvailableDrones s1 drones
                     = DroneController.getAvailableDrones s drones).
    { apply getAvailableDrones_static. intros d'.
      eapply step_drone_static; eauto. }
    intros o d [<-|Hin] Hdin Hp.
    + exfalso.
      destruct (distributionLoop_trace drones rest s1 s1 (S c) s' c')
        as (l & Hrun & _); [intros d'; unfold sameDroneFrame; intuition
                           |exact Hloop|].
      pose proof (run_keeps_assigned _ _ _ order Hrun
                    (step_status _ _ _ _ Hstep)). congruence.
    + rewrite <- Havail in Hdin.
      eapply IH; [| |exact Hloop|exact Hin|exact Hdin|exact Hp].
      * intros o' Ho'.
        destruct (step_order_static _ _ _ _ o' Hstep) as (_ & _ & -> & _).
        now apply Hw'.
      * intros d' Hd'. rewrite Havail in Hd'.
        destruct (Hd d' Hd') as (Hc & Hl & Ht).
        destruct (step_drone_static _ _ _ _ d' Hstep)
          as (_ & -> & _ & _ & _ & _ & _ & -> & _).
        repeat split; auto.
        pose proof (step_load_grows _ _ _ _ d' Hstep
                      (Hw order (or_introl eq_refl))). lra.
  - pose proof Hassign as Hrefuse.
    apply assignOrderToDrone_step in Hassign
      as [[_ ->]|(Hf & _)]; [|discriminate].
    eapply Hskip; eauto. intros _.
    eapply assignOrderToDrone_refuses; eauto.
    apply Hw. now left.
Qed.

Lemma getAvailableDrones_In s drones d :
  In d (DroneController.getAvailableDrones s drones)
  <-> In d drones /\ Drone.status (Store.drones s d) = idle
      /\ 20 <= Drone.battery (Store.drones s d).
Proof.
  unfold DroneController.getAvailableDrones.
  rewrite filter_In, andb_true_iff, is_idle_iff, negb_true_iff.
  unfold Drone.needsToReturn. rewrite Rltb_false_iff.
  split; intros (H1 & H2 & H3); repeat split; auto; lra.
Qed.

(** X29. After [DroneController.optimizeOrderDistribution] no order of the
    list that is still pending can be carried by any available drone (idle,
    battery at least 20): whatever fits has been assigned.  The weights are
    taken not to be negative and the available drones to have a positive
    capacity and a load and an odometer that are not negative. *)
Theorem optimizeOrderDistribution_leaves_nothing_that_fits (now : R)
    (s : Store.t) (drones : list dref) (orders : list oref)
    (res : DroneController.Distribution.t) (s' : Store.t) :
  (forall o, In o orders -> 0 <= Order.weight (Store.orders s o)) ->
  (forall d, In d drones -> Drone.status (Store.drones s d) = idle ->
             20 <= Drone.battery (Store.drones s d) ->
             0 < Drone.capacity (Store.drones s d)
             /\ 0 <= Drone.currentLoad (Store.drones s d)
             /\ 0 <= Drone.totalDistance (Store.drones s d)) ->
  DroneController.optimizeOrderDistribution now s drones orders = (res, s') ->
  forall o d,
    In o orders -> In d drones ->
    Drone.status (Store.drones s d) = idle ->
    20 <= Drone.battery (Store.drones s d) ->
    Order.status (Store.orders s' o) = pending ->
    Drone.canCarryOrder (Store.drones s' d) (Store.orders s' o) = false.
Proof.
  intros Hw Hd Heq o d Ho Hdin Hidle Hbat Hp.
  assert (Havail : In d (DroneController.getAvailableDrones s drones))
    by (apply getAvailableDrones_In; auto).
  unfold DroneController.optimizeOrderDistribution in Heq.
  destruct orders as [|o0 orders]; [contradiction|].
  destruct (DroneController.getAvailableDrones s drones) as [|a l] eqn:Ha;
    [contradiction|].
  cbn [List.length Nat.eqb orb] in Heq.
  match type of Heq with
  | context [DroneController.distributionLoop drones ?l s 0] =>
      destruct (DroneController.distributionLoop drones l s 0) as [s1 c1]
        eqn:Hl;
      assert (Hsorted : forall x, In x l -> In x (o0 :: orders))
        by (intros x; apply js_sort_incl)
  end.
  inversion Heq; subst.
  eapply distributionLoop_exhausts; [| |exact Hl| | |exact Hp].
  - intros x Hx. apply Hw. now apply Hsorted.
  - intros d' Hd'. apply getAvailableDrones_In in Hd' as (? & ? & ?).
    now apply Hd.
  - eapply Permutation_in; [symmetry; apply js_sort_perm|exact Ho].
  - rewrite Ha. exact Havail.
Qed.

Lemma optimizeOrderDistribution_leaves_nothing_that_fits_witness :
  Drone.canCarryOrder
    (Store.drones (assignStore tooHeavy 0%nat 1%nat) 0%nat)
    (Store.orders (assignStore tooHeavy 0%nat 1%nat) 0%nat) = false.
Proof.
  destruct tooHeavy_distribution as [res Hres].
  apply (optimizeOrderDistribution_leaves_nothing_that_fits
           0 tooHeavy [0%nat] [0; 1]%nat res
           (assignStore tooHeavy 0%nat 1%nat)).
  - intros [|o] _; cbn; lra.
  - intros d _ _ _. cbn. lra.
  - exact Hres.
  - left. reflexivity.
  - left. reflexivity.
  - reflexivity.
  - cbn. lra.
  - reflexivity.
Defined.

(** * DeliveryController: the entry point *)

(** X30. [DeliveryController.optimizeDeliveries] never throws and keeps the
    books: a store in which every drone's [currentLoad] is the sum of the
    weights of its orders and within its capacity stays so, and, when the
    list of orders has no order twice, a store in which every assigned order
    is listed by exactly the drone it names stays so.  It changes no drone
    that is outside the list, not idle or below 20 of battery, and no order
    that is outside the list or not pending; with no pending order or no
    such drone it refuses with a message and changes nothing. *)
Theorem DeliveryController_optimizeDeliveries_sound (now : R) (s : Store.t)
    (orders : list oref) (drones : list dref) (totalTrips : nat) :
  exists result s' totalTrips',
    DeliveryController.optimizeDeliveries now s orders drones totalTrips
    = OK (result, s', totalTrips')
    /\ (loadInvariant s -> loadInvariant s')
    /\ (NoDup orders -> assignmentInvariant s ->
        assignmentInvariant s' /\ assignedExactlyOnce s')
    /\ (forall d,
           ~ In d drones \/ Drone.status (Store.drones s d) <> idle
           \/ Drone.battery (Store.drones s d) < 20 ->
           Store.drones s' d = Store.drones s d)
    /\ (forall o,
           ~ In o orders \/ Order.status (Store.orders s o) <> pending ->
           Store.orders s' o = Store.orders s o)
    /\ ((forall o, In o orders ->
           Order.status (Store.orders s o) <> pending)
        \/ (forall d, In d drones ->
              Drone.status (Store.drones s d) <> idle
              \/ Drone.battery (Store.drones s d) < 20) ->
        s' = s /\ totalTrips' = totalTrips /\ exists message,
          result = inl message).
Proof.
  unfold DeliveryController.optimizeDeliveries. cbv zeta.
  set (pend := OrderController.getPendingOrders s orders).
  set (avail := DroneController.getAvailableDrones s drones).
  assert (Hpend : forall o, In o pend
            <-> In o orders /\ Order.status (Store.orders s o) = pending).
  { intros o. unfold pend, OrderController.getPendingOrders.
    now rewrite filter_In, is_pending_iff. }
  assert (Hrefuse : forall message,
    exists result s' totalTrips',
      OK (@inl string DeliveryController.Report.t message, s, totalTrips)
      = OK (result, s', totalTrips')
      /\ (loadInvariant s -> loadInvariant s')
      /\ (NoDup orders -> assignmentInvariant s ->
          assignmentInvariant s' /\ assignedExactlyOnce s')
      /\ (forall d,
             ~ In d drones \/ Drone.status (Store.drones s d) <> idle
             \/ Drone.battery (Store.drones s d) < 20 ->
             Store.drones s' d = Store.drones s d)
      /\ (forall o,
             ~ In o orders \/ Order.status (Store.orders s o) <> pending ->
             Store.orders s' o = Store.orders s o)
      /\ ((forall o, In o orders ->
             Order.status (Store.orders s o) <> pending)
          \/ (forall d, In d drones ->
                Drone.status (Store.drones s d) <> idle
                \/ Drone.battery (Store.drones s d) < 20) ->
          s' = s /\ totalTrips' = totalTrips
          /\ exists message', result = inl message')).
  { intros message. exists (inl message), s, totalTrips.
    repeat apply conj; auto.
    - intros _ HI. split; [exact HI|now apply assignmentInvariant_exactlyOnce].
    - intros _. repeat split. now exists message. }
  destruct pend as [|p0 pend'] eqn:Ep; [apply Hrefuse|].
  destruct avail as [|a0 avail'] eqn:Ea; [apply Hrefuse|].
  clear Hrefuse. cbn [List.length Nat.eqb].
  destruct (performAdvancedOptimization_trace now s (p0 :: pend')
              (a0 :: avail') totalTrips)
    as (report & s' & totalTrips' & l & -> & Hr & Hi & Hn & _ & _ & _ & _ & _
        & _ & Hout).
  cbn [bindExc fst snd].
  exists (inr report), s', totalTrips'.
  assert (Hl : forall o, In o l ->
                 In o orders /\ Order.status (Store.orders s o) = pending).
  { intros o Ho. apply Hpend. now apply Hi. }
  split; [reflexivity|]. split; [|split; [|split; [|split]]].
  - intros HI. eapply run_stepClosed; eauto using loadInvariant_stepClosed.
  - intros Hnd HI.
    assert (HI' : assignmentInvariant s').
    { eapply assignmentInvariant_run; eauto.
      - apply Hn. rewrite <- Ep. unfold OrderController.getPendingOrders.
        now apply NoDup_filter.
      - intros o Ho. now apply Hl. }
    split; [exact HI'|now apply assignmentInvariant_exactlyOnce].
  - intros d Hd. apply Hout. intros Hin.
    apply filter_In in Hin as [Hin _]. rewrite <- Ea in Hin.
    apply getAvailableDrones_In in Hin as (? & ? & ?).
    destruct Hd as [Hd|[Hd|Hd]]; [tauto|tauto|lra].
  - intros o Ho. eapply run_orders_frame; [exact Hr|].
    intros Hin. apply Hl in Hin. tauto.
  - intros [Hnone|Hnone]; exfalso.
    + destruct (proj1 (Hpend p0) (or_introl eq_refl)) as [Hin Hp].
      now apply (Hnone p0).
    + assert (Hin : In a0 (DroneController.getAvailableDrones s drones))
        by (fold avail; rewrite Ea; now left).
      apply getAvailableDrones_In in Hin as (Hin & Hidle & Hbat).
      destruct (Hnone a0 Hin); [tauto|lra].
Qed.
